(** * website-log-insights: the ingestion-and-aggregation engine

    A shallow embedding of [packages/log-analyzer/src]: the line parser
    ([parser.ts]), the SQLite-backed store ([database.ts]) and the result
    assembler ([analyzer.ts]), followed by the properties of the
    specification that were checked against them (C1 to C10) and by
    further properties of the code (X1 to X29).

    Conventions of the embedding:
    - a JavaScript string is the list of its UTF-16 code units ([jsstring]);
    - a [Date] is its time value, an integer number of milliseconds since
      the epoch; every date built by the parser comes from a four-digit
      year, so [TimeClip] is the identity on it for any real time zone and
      is left out;
    - a JavaScript number that holds an integer is that integer: this is
      what the program computes as long as the integer is at most 2^53
      in magnitude, beyond which [parseInt] and the reading of a [SUM]
      round to a double; the properties that read a status code, a
      response size or a sum of sizes are stated for that range
      ([exact_number]);
    - the quantities that the environment supplies are explicit arguments:
      the host's local time zone, the file system, the reading of
      [Date.now()], the day subtraction of date-fns and the faults of the
      storage engine. *)

From Stdlib Require Import ZArith NArith List String Ascii Bool Lia Permutation
  Sorted.
Import ListNotations.
Local Open Scope Z_scope.

(* ================================================================== *)
(** * JavaScript strings *)
(* ================================================================== *)

Definition jsstring := list N.

(** String literals of the source, written as Rocq strings. *)
Definition js (s : string) : jsstring :=
  map N_of_ascii (list_ascii_of_string s).

Definition jsstring_eq_dec : forall a b : jsstring, {a = b} + {a <> b} :=
  list_eq_dec N.eq_dec.

Definition str_eqb (a b : jsstring) : bool :=
  if jsstring_eq_dec a b then true else false.

(** ECMAScript WhiteSpace and LineTerminator code points: what
    [String.prototype.trim] strips and what [\s] matches. *)
Definition isWhiteSpace (c : N) : bool :=
  ((9 <=? c) && (c <=? 13) || (c =? 32) || (c =? 160) || (c =? 5760)
   || (8192 <=? c) && (c <=? 8202) || (c =? 8232) || (c =? 8233)
   || (c =? 8239) || (c =? 8287) || (c =? 12288) || (c =? 65279))%N.

Fixpoint trimStart (s : jsstring) : jsstring :=
  match s with
  | [] => []
  | c :: tl => if isWhiteSpace c then trimStart tl else s
  end.

Definition trimEnd (s : jsstring) : jsstring := rev (trimStart (rev s)).

Definition trim (s : jsstring) : jsstring := trimEnd (trimStart s).

(** [content.split('\n')]: the pieces between line feeds, at least one. *)
Fixpoint split_lines (s : jsstring) : list jsstring :=
  match s with
  | [] => [[]]
  | c :: tl =>
      if (c =? 10)%N then [] :: split_lines tl
      else match split_lines tl with
           | l :: ls => (c :: l) :: ls
           | [] => [[c]]
           end
  end.

Definition is_digit (c : N) : bool := ((48 <=? c) && (c <=? 57))%N.

Definition is_upper (c : N) : bool := ((65 <=? c) && (c <=? 90))%N.

Definition is_lower (c : N) : bool := ((97 <=? c) && (c <=? 122))%N.

(** [\w] without the unicode flag. *)
Definition is_word (c : N) : bool :=
  is_digit c || is_upper c || is_lower c || (c =? 95)%N.

Fixpoint take_while (p : N -> bool) (s : jsstring) : jsstring :=
  match s with
  | [] => []
  | c :: tl => if p c then c :: take_while p tl else []
  end.

Definition digits_value (ds : jsstring) : Z :=
  fold_left (fun acc c => 10 * acc + (Z.of_N c - 48)) ds 0.

(** [parseInt(s, 10)]: leading white space, an optional sign, the longest
    run of decimal digits; [None] is NaN.  The result is the integer
    that the digits denote, which is the Number that [parseInt] returns
    when it is at most 2^53; every call of the time stamp normalizer is
    on a field of at most four digits. *)
Definition parseInt10 (s : jsstring) : option Z :=
  let s1 := trimStart s in
  let '(sgn, s2) :=
    match s1 with
    | 45%N :: tl => (-1, tl)
    | 43%N :: tl => (1, tl)
    | _ => (1, s1)
    end in
  match take_while is_digit s2 with
  | [] => None
  | ds => Some (sgn * digits_value ds)
  end.

(* ================================================================== *)
(** * Regular expressions

    The patterns of the source are kept as syntax and run by a
    backtracking matcher in continuation-passing style, the way the
    ECMAScript specification defines them: alternatives are tried left
    to right, quantifiers are greedy, an iteration that consumes nothing
    is rejected. *)
(* ================================================================== *)

Inductive regex : Type :=
| Eps
| Chr (p : N -> bool)
| Bol
| Eol
| Seq (a b : regex)
| Alt (a b : regex)
| Star (a : regex)
| Opt (a : regex)
| Group (i : nat) (a : regex).

Record mstate : Type := MState {
  m_pos : nat;                       (* code units consumed so far *)
  m_rest : jsstring;                 (* input still to read *)
  m_caps : list (nat * jsstring)     (* capture groups, latest first *)
}.

Definition advance (st : mstate) (tl : jsstring) : mstate :=
  MState (S (m_pos st)) tl (m_caps st).

Definition set_cap (i : nat) (from to : mstate) : mstate :=
  MState (m_pos to) (m_rest to)
         ((i, firstn (m_pos to - m_pos from) (m_rest from)) :: m_caps to).

Definition progressed (from to : mstate) : bool :=
  negb (Nat.eqb (m_pos to) (m_pos from)).

Fixpoint rmatch (r : regex) (st : mstate) (k : mstate -> option mstate)
  {struct r} : option mstate :=
  match r with
  | Eps => k st
  | Chr p =>
      match m_rest st with
      | c :: tl => if p c then k (advance st tl) else None
      | [] => None
      end
  | Bol => if Nat.eqb (m_pos st) 0 then k st else None
  | Eol => match m_rest st with [] => k st | _ :: _ => None end
  | Seq a b => rmatch a st (fun st' => rmatch b st' k)
  | Alt a b =>
      match rmatch a st k with
      | Some m => Some m
      | None => rmatch b st k
      end
  | Star a =>
      (fix loop (fuel : nat) (cur : mstate) {struct fuel} : option mstate :=
         match fuel with
         | O => k cur
         | S fuel' =>
             match rmatch a cur
                     (fun nxt => if progressed cur nxt then loop fuel' nxt
                                 else None) with
             | Some m => Some m
             | None => k cur
             end
         end) (S (List.length (m_rest st))) st
  | Opt a =>
      match rmatch a st (fun nxt => if progressed st nxt then k nxt else None) with
      | Some m => Some m
      | None => k st
      end
  | Group i a => rmatch a st (fun st' => k (set_cap i st st'))
  end.

(** [RegExp.prototype.exec] without the global or sticky flag: the first
    start index at which the pattern matches. *)
Fixpoint rsearch (r : regex) (pos : nat) (rest : jsstring) : option mstate :=
  match rmatch r (MState pos rest []) Some with
  | Some m => Some m
  | None =>
      match rest with
      | [] => None
      | _ :: tl => rsearch r (S pos) tl
      end
  end.

Definition regex_exec (r : regex) (s : jsstring) : option mstate :=
  rsearch r 0%nat s.

Definition regex_test (r : regex) (s : jsstring) : bool :=
  match regex_exec r s with Some _ => true | None => false end.

(** The i-th element of the match array; [None] is [undefined]. *)
Fixpoint capture (caps : list (nat * jsstring)) (i : nat) : option jsstring :=
  match caps with
  | [] => None
  | (j, s) :: tl => if Nat.eqb i j then Some s else capture tl i
  end.

Definition Plus (a : regex) : regex := Seq a (Star a).

Fixpoint seqs (rs : list regex) : regex :=
  match rs with
  | [] => Eps
  | [r] => r
  | r :: tl => Seq r (seqs tl)
  end.

Definition chr (c : N) : regex := Chr (N.eqb c).

Definition lit (s : string) : regex := seqs (map chr (js s)).

Definition digit : regex := Chr is_digit.
Definition word : regex := Chr is_word.
Definition nonspace : regex := Chr (fun c => negb (isWhiteSpace c)).
Definition space : regex := Chr isWhiteSpace.
Definition not_chr (c : N) : regex := Chr (fun x => negb (N.eqb x c)).

(** Case-insensitive literal character (flag [i], no unicode flag): a
    letter matches its two ASCII cases and nothing else, any other
    character matches itself. *)
Definition ci_chr (c : N) : N -> bool :=
  fun x =>
    (N.eqb x c
     || (is_lower c && N.eqb x (c - 32))
     || (is_upper c && N.eqb x (c + 32)))%N.

Definition lit_ci (s : string) : regex := seqs (map (fun c => Chr (ci_chr c)) (js s)).

(* ================================================================== *)
(** * Dates

    The time-value arithmetic of the ECMAScript [Date] object, as far as
    [new Date(y, m, d, h, mi, s)], [getTime] and [toISOString] need it. *)
(* ================================================================== *)

Definition msPerDay : Z := 86400000.

Definition DayFromYear (y : Z) : Z :=
  365 * (y - 1970) + (y - 1969) / 4 - (y - 1901) / 100 + (y - 1601) / 400.

Definition InLeapYear (y : Z) : bool :=
  ((y mod 4 =? 0) && negb (y mod 100 =? 0)) || (y mod 400 =? 0).

(** Day within the year on which month [mn] (0 = January) starts. *)
Definition monthStart (leap : bool) (mn : Z) : Z :=
  nth (Z.to_nat mn) [0; 31; 59; 90; 120; 151; 181; 212; 243; 273; 304; 334] 0
  + (if leap && (2 <=? mn) then 1 else 0).

Definition MakeDay (year month date : Z) : Z :=
  let ym := year + month / 12 in
  let mn := month mod 12 in
  DayFromYear ym + monthStart (InLeapYear ym) mn + date - 1.

Definition MakeTime (hour min sec ms : Z) : Z :=
  hour * 3600000 + min * 60000 + sec * 1000 + ms.

Definition MakeDate (day time : Z) : Z := day * msPerDay + time.

(** The host's local time zone: [LocalTZA(t, false)], the offset in
    milliseconds of local time from UTC at the local time value [t]. *)
Definition TimeZone := Z -> Z.

Definition UTC (tz : TimeZone) (t : Z) : Z := t - tz t.

(** [new Date(year, month, date, hours, minutes, seconds)]: the fields are
    read in the host's local time zone. *)
Definition new_Date (tz : TimeZone) (year month date hours minutes seconds : Z) : Z :=
  let yr := if (0 <=? year) && (year <=? 99) then 1900 + year else year in
  UTC tz (MakeDate (MakeDay yr month date) (MakeTime hours minutes seconds 0)).

(** Year, month (1 = January) and day of the month of a day number. *)
Definition civil_from_days (z : Z) : Z * Z * Z :=
  let z := z + 719468 in
  let era := z / 146097 in
  let doe := z - era * 146097 in
  let yoe := (doe - doe / 1460 + doe / 36524 - doe / 146096) / 365 in
  let doy := doe - (365 * yoe + yoe / 4 - yoe / 100) in
  let mp := (5 * doy + 2) / 153 in
  let d := doy - (153 * mp + 2) / 5 + 1 in
  let m := if mp <? 10 then mp + 3 else mp - 9 in
  ((yoe + era * 400 + (if m <=? 2 then 1 else 0)), m, d).

Fixpoint pad_digits (n : nat) (v : Z) : jsstring :=
  match n with
  | O => []
  | S n' => pad_digits n' (v / 10) ++ [Z.to_N (48 + v mod 10)]
  end.

(** [date.toISOString().split('T')[0]]: the UTC calendar date. *)
Definition toISODate (t : Z) : jsstring :=
  let '(y, m, d) := civil_from_days (t / msPerDay) in
  let ys := if (0 <=? y) && (y <=? 9999) then pad_digits 4 y
            else (if y <? 0 then js "-" else js "+") ++ pad_digits 6 (Z.abs y) in
  ys ++ js "-" ++ pad_digits 2 m ++ js "-" ++ pad_digits 2 d.

(* ================================================================== *)
(** * parser.ts *)
(* ================================================================== *)

Record LogEntry : Type := mkLogEntry {
  ip : jsstring;
  timestamp : Z;
  method : jsstring;
  url : jsstring;
  protocol : jsstring;
  statusCode : Z;
  responseSize : Z;
  referrer : jsstring;
  userAgent : jsstring;
  forwardedFor : option jsstring
}.

Notation "x <- e ;; k" :=
  (match e with Some x => k | None => None end)
  (at level 61, e at next level, right associativity).

(** The line pattern; with Q for the double quote and [{0,}] for the
    star it reads
    [^(\S+) \S+ \S+ \[([^\]]+)\] Q(\S+) ([^Q]{0,}) (\S+)Q (\d+) (\d+|-) Q([^Q]{0,})Q Q([^Q]{0,})Q(?:\s+Q([^Q]{0,})Q)?] *)
Definition NGINX_LOG_REGEX : regex :=
  seqs [ Bol; Group 1 (Plus nonspace); lit " "; Plus nonspace; lit " ";
         Plus nonspace; lit " ";
         chr 91; Group 2 (Plus (not_chr 93)); chr 93; lit " ";
         chr 34; Group 3 (Plus nonspace); lit " "; Group 4 (Star (not_chr 34));
         lit " "; Group 5 (Plus nonspace); chr 34; lit " ";
         Group 6 (Plus digit); lit " ";
         Group 7 (Alt (Plus digit) (lit "-")); lit " ";
         chr 34; Group 8 (Star (not_chr 34)); chr 34; lit " ";
         chr 34; Group 9 (Star (not_chr 34)); chr 34;
         Opt (seqs [ Plus space; chr 34; Group 10 (Star (not_chr 34)); chr 34 ]) ].

(** [^(\d{2})\/(\w{3})\/(\d{4}):(\d{2}):(\d{2}):(\d{2}) ([+-]\d{4})$] *)
Definition timestampRegex : regex :=
  seqs [ Bol; Group 1 (seqs [digit; digit]); lit "/";
         Group 2 (seqs [word; word; word]); lit "/";
         Group 3 (seqs [digit; digit; digit; digit]); lit ":";
         Group 4 (seqs [digit; digit]); lit ":";
         Group 5 (seqs [digit; digit]); lit ":";
         Group 6 (seqs [digit; digit]); lit " ";
         Group 7 (seqs [Chr (fun c => N.eqb c 43 || N.eqb c 45);
                        digit; digit; digit; digit]);
         Eol ].

(** [([+-])(\d{2})(\d{2})] *)
Definition timezoneRegex : regex :=
  seqs [ Group 1 (Chr (fun c => N.eqb c 43 || N.eqb c 45));
         Group 2 (seqs [digit; digit]); Group 3 (seqs [digit; digit]) ].

Definition months : list (jsstring * Z) :=
  [ (js "Jan", 0); (js "Feb", 1); (js "Mar", 2); (js "Apr", 3);
    (js "May", 4); (js "Jun", 5); (js "Jul", 6); (js "Aug", 7);
    (js "Sep", 8); (js "Oct", 9); (js "Nov", 10); (js "Dec", 11) ].

Fixpoint lookup_month (tbl : list (jsstring * Z)) (name : jsstring) : option Z :=
  match tbl with
  | [] => None
  | (k, v) :: tl => if str_eqb k name then Some v else lookup_month tl name
  end.

Definition parseNginxTimestamp (tz : TimeZone) (timestampStr : jsstring) : option Z :=
  m <- regex_exec timestampRegex timestampStr ;;
  day <- capture (m_caps m) 1 ;;
  monthStr <- capture (m_caps m) 2 ;;
  year <- capture (m_caps m) 3 ;;
  hour <- capture (m_caps m) 4 ;;
  minute <- capture (m_caps m) 5 ;;
  second <- capture (m_caps m) 6 ;;
  timezone <- capture (m_caps m) 7 ;;
  month <- lookup_month months monthStr ;;
  tzm <- regex_exec timezoneRegex timezone ;;
  sign <- capture (m_caps tzm) 1 ;;
  offsetHours <- capture (m_caps tzm) 2 ;;
  offsetMinutes <- capture (m_caps tzm) 3 ;;
  oh <- parseInt10 offsetHours ;;
  om <- parseInt10 offsetMinutes ;;
  let offsetMilliseconds :=
    ((oh * 60 + om) * 60 * 1000) * (if str_eqb sign (js "+") then -1 else 1) in
  y <- parseInt10 year ;;
  d <- parseInt10 day ;;
  h <- parseInt10 hour ;;
  mi <- parseInt10 minute ;;
  s <- parseInt10 second ;;
  let date := new_Date tz y month d h mi s in
  Some (date + offsetMilliseconds).

Definition parseLogLine (tz : TimeZone) (line : jsstring) : option LogEntry :=
  let trimmedLine := trim line in
  match trimmedLine with
  | [] => None
  | _ :: _ =>
      m <- regex_exec NGINX_LOG_REGEX trimmedLine ;;
      ip <- capture (m_caps m) 1 ;;
      timestampStr <- capture (m_caps m) 2 ;;
      method <- capture (m_caps m) 3 ;;
      url <- capture (m_caps m) 4 ;;
      protocol <- capture (m_caps m) 5 ;;
      statusCodeStr <- capture (m_caps m) 6 ;;
      responseSizeStr <- capture (m_caps m) 7 ;;
      referrer <- capture (m_caps m) 8 ;;
      userAgent <- capture (m_caps m) 9 ;;
      let forwardedFor := capture (m_caps m) 10 in
      timestamp <- parseNginxTimestamp tz timestampStr ;;
      statusCode <- parseInt10 statusCodeStr ;;
      responseSize <- (if str_eqb responseSizeStr (js "-") then Some 0
                       else parseInt10 responseSizeStr) ;;
      Some (mkLogEntry ip timestamp method url protocol statusCode responseSize
              (if str_eqb referrer (js "-") then [] else referrer)
              userAgent
              (match forwardedFor with
               | Some [] | None => None
               | Some f => Some f
               end))
  end.

(** The literals of [botPatterns]; each is a pattern with the flag [i]. *)
Definition bot_tokens : list string :=
  [ "bot"; "crawler"; "spider"; "scraper"; "googlebot"; "bingbot"; "slurp";
    "duckduckbot"; "baiduspider"; "yandexbot"; "facebookexternalhit";
    "twitterbot"; "linkedinbot"; "whatsapp"; "telegrambot"; "curl"; "wget";
    "python-requests"; "go-http-client"; "java"; "apache-httpclient";
    "okhttp"; "postman"; "zapier"; "monitor"; "check"; "test"; "scan";
    "probe"; "lighthouse"; "pagespeed"; "gtmetrix"; "pingdom";
    "uptimerobot"; "newrelic" ]%string.

Definition botPatterns : list regex := map lit_ci bot_tokens.

Definition isBot (userAgent : jsstring) : bool :=
  existsb (fun pattern => regex_test pattern userAgent) botPatterns.

Fixpoint parse_lines (tz : TimeZone) (lines : list jsstring) : list LogEntry :=
  match lines with
  | [] => []
  | line :: rest =>
      match trim line with
      | [] => parse_lines tz rest
      | _ :: _ =>
          match parseLogLine tz line with
          | Some entry => entry :: parse_lines tz rest
          | None => parse_lines tz rest
          end
      end
  end.

Definition parseLogFile (tz : TimeZone) (content : jsstring) : list LogEntry :=
  parse_lines tz (split_lines content).

(* ================================================================== *)
(** * database.ts: the store *)
(* ================================================================== *)

(** Table [hosts]. *)
Record HostRow : Type := mkHostRow {
  host_id : Z;
  hostname : jsstring;
  created_at : Z;
  updated_at : Z
}.

(** Table [log_entries]. *)
Record LogRow : Type := mkLogRow {
  col_id : Z;
  col_host_id : Z;
  col_ip : jsstring;
  col_timestamp : Z;
  col_method : jsstring;
  col_url : jsstring;
  col_protocol : jsstring;
  col_status_code : Z;
  col_response_size : Z;
  col_referrer : jsstring;
  col_user_agent : jsstring;
  col_forwarded_for : option jsstring;
  col_is_bot : Z;
  col_date_only : jsstring
}.

(** Table [file_metadata]; no statement of the source writes to it. *)
Record FileMetadataRow : Type := mkFileMetadataRow {
  file_path : jsstring;
  fm_hostname : jsstring;
  last_modified : Z;
  file_size : Z;
  processed_at : Z
}.

(** The database file: the three tables and the AUTOINCREMENT counters
    that SQLite keeps in [sqlite_sequence]. *)
Record Database : Type := mkDatabase {
  hosts : list HostRow;
  log_entries : list LogRow;
  file_metadata : list FileMetadataRow;
  hosts_seq : Z;
  log_entries_seq : Z
}.

(** [initializeDatabase] on a fresh file. *)
Definition emptyDatabase : Database := mkDatabase [] [] [] 0 0.

(** Faults of the storage engine: whether a [stmt.run] of the bulk
    insert throws, and whether the COMMIT does. *)
Record Faults : Type := mkFaults {
  run_fails : Database -> LogEntry -> bool;
  commit_fails : Database -> bool
}.

Definition noFaults : Faults := mkFaults (fun _ _ => false) (fun _ => false).

Inductive LoadError : Type :=
| InputNotFound     (* 'Log file not found: ...' *)
| InvalidHost       (* 'Hostname is required when loading log files' *)
| ReadFailure       (* readFileSync throws *)
| EmptyResult       (* 'No valid log entries found in the file' *)
| StorageFailure.   (* the exception of the storage engine *)

Inductive outcome : Type :=
| Done
| Failed (e : LoadError).

Definition set_updated_at (now : Z) (h : HostRow) : HostRow :=
  mkHostRow (host_id h) (hostname h) (created_at h) now.

Definition getOrCreateHost (now : Z) (name : jsstring) (db : Database)
  : Z * Database :=
  match find (fun h => str_eqb (hostname h) name) (hosts db) with
  | Some existingHost =>
      (host_id existingHost,
       mkDatabase
         (map (fun h => if host_id h =? host_id existingHost
                        then set_updated_at now h else h) (hosts db))
         (log_entries db) (file_metadata db) (hosts_seq db) (log_entries_seq db))
  | None =>
      let id := hosts_seq db + 1 in
      (id,
       mkDatabase (hosts db ++ [mkHostRow id name now now])
         (log_entries db) (file_metadata db) id (log_entries_seq db))
  end.

(** The row that one [stmt.run] of the INSERT statement writes. *)
Definition entry_row (id hostId : Z) (entry : LogEntry) : LogRow :=
  let timestampMs := timestamp entry in
  let dateOnly := toISODate (timestamp entry) in
  let isBotFlag := if isBot (userAgent entry) then 1 else 0 in
  mkLogRow id hostId (ip entry) timestampMs (method entry) (url entry)
    (protocol entry) (statusCode entry) (responseSize entry) (referrer entry)
    (userAgent entry)
    (match forwardedFor entry with          (* entry.forwardedFor || null *)
     | Some [] | None => None
     | Some f => Some f
     end)
    isBotFlag dateOnly.

Definition stmt_run (hostId : Z) (entry : LogEntry) (db : Database) : Database :=
  let id := log_entries_seq db + 1 in
  mkDatabase (hosts db) (log_entries db ++ [entry_row id hostId entry])
    (file_metadata db) (hosts_seq db) id.

(** The body of the transaction function: the [for] loop over the
    entries; [None] when a [stmt.run] throws. *)
Fixpoint insert_loop (f : Faults) (hostId : Z) (entries : list LogEntry)
  (db : Database) : option Database :=
  match entries with
  | [] => Some db
  | entry :: rest =>
      if run_fails f db entry then None
      else insert_loop f hostId rest (stmt_run hostId entry db)
  end.

(** [db.transaction(fn)] of better-sqlite3: BEGIN, the body, COMMIT; an
    exception rolls back to the state at BEGIN and is thrown again. *)
Definition transaction (f : Faults) (body : Database -> option Database)
  (db : Database) : outcome * Database :=
  match body db with
  | Some db' =>
      if commit_fails f db' then (Failed StorageFailure, db) else (Done, db')
  | None => (Failed StorageFailure, db)
  end.

Definition insertLogEntries (f : Faults) (now : Z) (entries : list LogEntry)
  (name : jsstring) (db : Database) : outcome * Database :=
  let '(hostId, db1) := getOrCreateHost now name db in
  transaction f (insert_loop f hostId entries) db1.

Definition insertLogEntry (f : Faults) (now : Z) (entry : LogEntry)
  (name : jsstring) (db : Database) : outcome * Database :=
  let '(hostId, db1) := getOrCreateHost now name db in
  if run_fails f db1 entry then (Failed StorageFailure, db1)
  else (Done, stmt_run hostId entry db1).

Definition clearAllData (db : Database) : Database :=
  mkDatabase [] [] [] (hosts_seq db) (log_entries_seq db).

Definition getLogCount (db : Database) : Z :=
  Z.of_nat (List.length (log_entries db)).

(* ------------------------------------------------------------------ *)
(** ** The pieces of SQL that the queries use *)
(* ------------------------------------------------------------------ *)

(** [SUM(CASE WHEN p THEN 1 ELSE 0 END)] and [COUNT( * )] over a group. *)
Definition count_where (p : LogRow -> bool) (rows : list LogRow) : Z :=
  Z.of_nat (List.length (filter p rows)).

Definition sum_of {A : Type} (f : A -> Z) (l : list A) : Z :=
  fold_right (fun x acc => f x + acc) 0 l.

(** [GROUP BY key]: the distinct keys, each with its rows. *)
Definition group_by {K : Type} (K_dec : forall a b : K, {a = b} + {a <> b})
  (key : LogRow -> K) (rows : list LogRow) : list (K * list LogRow) :=
  map (fun k => (k, filter (fun r => if K_dec (key r) k then true else false) rows))
      (nodup K_dec (map key rows)).

(** [ORDER BY]: [after y x] says that [y] must come strictly after [x]
    (for [DESC], that the sort value of [y] is below that of [x]).  SQL
    leaves the order of the rows that tie open; here a row comes after
    the rows that tie with it and follow it in the input.  Nothing below
    depends on the order of ties. *)
Fixpoint insert_sorted {A : Type} (after : A -> A -> bool) (x : A) (l : list A)
  : list A :=
  match l with
  | [] => [x]
  | y :: tl => if after y x then x :: l else y :: insert_sorted after x tl
  end.

Definition order_by {A : Type} (after : A -> A -> bool) (l : list A) : list A :=
  fold_right (insert_sorted after) [] l.

(** [LIMIT n]; a negative [n] is no limit in SQLite. *)
Definition sql_limit {A : Type} (n : Z) (l : list A) : list A :=
  if n <? 0 then l else firstn (Z.to_nat n) l.

(** Comparison of TEXT values (BINARY collation). *)
Fixpoint str_ltb (a b : jsstring) : bool :=
  match a, b with
  | _, [] => false
  | [], _ :: _ => true
  | x :: a', y :: b' => (x <? y)%N || ((x =? y)%N && str_ltb a' b')
  end.

(** [Boolean(row.is_bot)]. *)
Definition Boolean (n : Z) : bool := negb (n =? 0).

Definition pair_dec {A B : Type}
  (A_dec : forall a b : A, {a = b} + {a <> b})
  (B_dec : forall a b : B, {a = b} + {a <> b})
  : forall a b : A * B, {a = b} + {a <> b}.
Proof. decide equality. Defined.

Definition since (threshold : Z) (r : LogRow) : bool := threshold <=? col_timestamp r.

(* ------------------------------------------------------------------ *)
(** ** Result rows (types.ts)

    The fields that SQLite computes in floating point
    ([averageResponseSize], [avgResponseSize], [botTrafficPercentage])
    are not part of the embedding. *)
(* ------------------------------------------------------------------ *)

Module UserAgentStats.
Record t : Type := mk {
  userAgent : jsstring;
  requests1d : Z;
  requests7d : Z;
  requests30d : Z;
  isBot : bool
}.
End UserAgentStats.

Module PageStats.
Record t : Type := mk {
  url : jsstring;
  requests1d : Z;
  requests7d : Z;
  requests30d : Z;
  uniqueIPs1d : Z;
  uniqueIPs7d : Z;
  uniqueIPs30d : Z;
  botRequests1d : Z;
  botRequests7d : Z;
  botRequests30d : Z;
  nonBotRequests1d : Z;
  nonBotRequests7d : Z;
  nonBotRequests30d : Z
}.
End PageStats.

Module ReferrerStats.
Record t : Type := mk {
  referrer : jsstring;
  requests1d : Z;
  requests7d : Z;
  requests30d : Z
}.
End ReferrerStats.

Module ErrorStats.
Record t : Type := mk {
  url : jsstring;
  statusCode : Z;
  requests1d : Z;
  requests7d : Z;
  requests30d : Z
}.
End ErrorStats.

Module BandwidthStats.
Record t : Type := mk {
  date : jsstring;
  totalBytes : Z;
  totalRequests : Z
}.
End BandwidthStats.

Module TopIPStats.
Record t : Type := mk {
  ip : jsstring;
  requests1d : Z;
  requests7d : Z;
  requests30d : Z;
  isBot : bool
}.
End TopIPStats.

Module StatusCodeCount.
Record t : Type := mk {
  code : Z;
  count : Z
}.
End StatusCodeCount.

Module Summary.
Record t : Type := mk {
  totalRequests : Z;
  totalUniqueIPs : Z;
  totalBandwidth : Z;
  mostActiveDay : jsstring;
  topStatusCodes : list StatusCodeCount.t
}.
End Summary.

Module AnalysisResults.
Record t : Type := mk {
  userAgents : list UserAgentStats.t;
  pages : list PageStats.t;
  referrers : list ReferrerStats.t;
  errors : list ErrorStats.t;
  bandwidth : list BandwidthStats.t;
  topIPs : list TopIPStats.t;
  summary : Summary.t
}.
End AnalysisResults.

(** [COUNT(DISTINCT CASE WHEN p THEN ip END)]. *)
Definition count_distinct_ip (p : LogRow -> bool) (rows : list LogRow) : Z :=
  Z.of_nat (List.length (nodup jsstring_eq_dec (map col_ip (filter p rows)))).

(** [MAX(is_bot)] over a group, NULL (read as 0 by [Boolean]) when empty. *)
Definition max_is_bot (rows : list LogRow) : Z :=
  match rows with
  | [] => 0
  | r :: tl => fold_left Z.max (map col_is_bot tl) (col_is_bot r)
  end.

(* ------------------------------------------------------------------ *)
(** ** The report queries

    [subDays] is date-fns's function (a dependency, not part of the
    repository), [now] the reading of [new Date()]. *)
(* ------------------------------------------------------------------ *)

Section Queries.

Variable subDays : Z -> Z -> Z.

Definition getUserAgentStats (now limit : Z) (db : Database)
  : list UserAgentStats.t :=
  let oneDayAgo := subDays now 1 in
  let sevenDaysAgo := subDays now 7 in
  let thirtyDaysAgo := subDays now 30 in
  let results :=
    map (fun g : (jsstring * Z) * list LogRow =>
           let '((user_agent, is_bot), rows) := g in
           UserAgentStats.mk user_agent
             (count_where (since oneDayAgo) rows)
             (count_where (since sevenDaysAgo) rows)
             (count_where (since thirtyDaysAgo) rows)
             (Boolean is_bot))
        (group_by (pair_dec jsstring_eq_dec Z.eq_dec)
           (fun r => (col_user_agent r, col_is_bot r)) (log_entries db)) in
  sql_limit limit
    (order_by
       (fun y x => UserAgentStats.requests30d y <? UserAgentStats.requests30d x)
       results).

Definition getPageStats (now limit : Z) (db : Database) : list PageStats.t :=
  let oneDayAgo := subDays now 1 in
  let sevenDaysAgo := subDays now 7 in
  let thirtyDaysAgo := subDays now 30 in
  let bot th r := since th r && (col_is_bot r =? 1) in
  let non_bot th r := since th r && (col_is_bot r =? 0) in
  let results :=
    map (fun g : jsstring * list LogRow =>
           let '(url, rows) := g in
           PageStats.mk url
             (count_where (since oneDayAgo) rows)
             (count_where (since sevenDaysAgo) rows)
             (count_where (since thirtyDaysAgo) rows)
             (count_distinct_ip (since oneDayAgo) rows)
             (count_distinct_ip (since sevenDaysAgo) rows)
             (count_distinct_ip (since thirtyDaysAgo) rows)
             (count_where (bot oneDayAgo) rows)
             (count_where (bot sevenDaysAgo) rows)
             (count_where (bot thirtyDaysAgo) rows)
             (count_where (non_bot oneDayAgo) rows)
             (count_where (non_bot sevenDaysAgo) rows)
             (count_where (non_bot thirtyDaysAgo) rows))
        (group_by jsstring_eq_dec col_url (log_entries db)) in
  sql_limit limit
    (order_by
       (fun y x => PageStats.requests30d y <? PageStats.requests30d x) results).

Definition getReferrerStats (now limit : Z) (db : Database)
  : list ReferrerStats.t :=
  let oneDayAgo := subDays now 1 in
  let sevenDaysAgo := subDays now 7 in
  let thirtyDaysAgo := subDays now 30 in
  let selected :=
    filter (fun r => negb (str_eqb (col_referrer r) [])
                     && negb (str_eqb (col_referrer r) (js "-")))
           (log_entries db) in
  let results :=
    map (fun g : jsstring * list LogRow =>
           let '(referrer, rows) := g in
           ReferrerStats.mk referrer
             (count_where (since oneDayAgo) rows)
             (count_where (since sevenDaysAgo) rows)
             (count_where (since thirtyDaysAgo) rows))
        (group_by jsstring_eq_dec col_referrer selected) in
  sql_limit limit
    (order_by
       (fun y x => ReferrerStats.requests30d y <? ReferrerStats.requests30d x)
       results).

Definition getErrorStats (now limit : Z) (db : Database) : list ErrorStats.t :=
  let oneDayAgo := subDays now 1 in
  let sevenDaysAgo := subDays now 7 in
  let thirtyDaysAgo := subDays now 30 in
  let selected := filter (fun r => 400 <=? col_status_code r) (log_entries db) in
  let results :=
    map (fun g : (jsstring * Z) * list LogRow =>
           let '((url, status_code), rows) := g in
           ErrorStats.mk url status_code
             (count_where (since oneDayAgo) rows)
             (count_where (since sevenDaysAgo) rows)
             (count_where (since thirtyDaysAgo) rows))
        (group_by (pair_dec jsstring_eq_dec Z.eq_dec)
           (fun r => (col_url r, col_status_code r)) selected) in
  sql_limit limit
    (order_by
       (fun y x => ErrorStats.requests30d y <? ErrorStats.requests30d x) results).

Definition getTopIPs (now limit : Z) (db : Database) : list TopIPStats.t :=
  let oneDayAgo := subDays now 1 in
  let sevenDaysAgo := subDays now 7 in
  let thirtyDaysAgo := subDays now 30 in
  let results :=
    map (fun g : jsstring * list LogRow =>
           let '(ip, rows) := g in
           TopIPStats.mk ip
             (count_where (since oneDayAgo) rows)
             (count_where (since sevenDaysAgo) rows)
             (count_where (since thirtyDaysAgo) rows)
             (Boolean (max_is_bot rows)))
        (group_by jsstring_eq_dec col_ip (log_entries db)) in
  sql_limit limit
    (order_by
       (fun y x => TopIPStats.requests30d y <? TopIPStats.requests30d x) results).

End Queries.

(** [totalBytes] is the integer that [SUM(response_size)] computes; the
    program reads it as a Number, which is that integer when it is at
    most 2^53 in magnitude. *)
Definition getBandwidthStats (db : Database) : list BandwidthStats.t :=
  let results :=
    map (fun g : jsstring * list LogRow =>
           let '(date, rows) := g in
           BandwidthStats.mk date
             (sum_of col_response_size rows)
             (count_where (fun _ => true) rows))
        (group_by jsstring_eq_dec col_date_only (log_entries db)) in
  sql_limit 30
    (order_by
       (fun y x => str_ltb (BandwidthStats.date y) (BandwidthStats.date x)) results).

(** [SELECT ... FROM hosts ORDER BY hostname]. *)
Definition getAllHosts (db : Database) : list HostRow :=
  order_by (fun y x => str_ltb (hostname x) (hostname y)) (hosts db).

(* ================================================================== *)
(** * analyzer.ts *)
(* ================================================================== *)

Inductive FsNode : Type :=
| Missing                       (* existsSync is false *)
| Unreadable                    (* exists, readFileSync throws *)
| File (content : jsstring).    (* exists, readFileSync returns content *)

Definition FileSystem := jsstring -> FsNode.

Definition existsSync (fs : FileSystem) (path : jsstring) : bool :=
  match fs path with Missing => false | _ => true end.

Definition readFileSync (fs : FileSystem) (path : jsstring) : option jsstring :=
  match fs path with File content => Some content | _ => None end.

(** [!hostname || hostname.trim() === ''] *)
Definition hostname_missing (name : jsstring) : bool :=
  match name with [] => true | _ :: _ => str_eqb (trim name) [] end.

Definition loadLogFile (tz : TimeZone) (fs : FileSystem) (f : Faults) (now : Z)
  (filePath name : jsstring) (db : Database) : outcome * Database :=
  if negb (existsSync fs filePath) then (Failed InputNotFound, db)
  else if hostname_missing name then (Failed InvalidHost, db)
  else
    match readFileSync fs filePath with
    | None => (Failed ReadFailure, db)
    | Some content =>
        let entries := parseLogFile tz content in
        match entries with
        | [] => (Failed EmptyResult, db)
        | _ :: _ => insertLogEntries f now entries name db
        end
    end.

(** [totalBandwidth] is the integer that [SUM(response_size)] computes,
    read as a Number like [totalBytes] above. *)
Definition calculateSummary (db : Database) : Summary.t :=
  let rows := log_entries db in
  let totalRequests := getLogCount db in
  let totalUniqueIPs := count_distinct_ip (fun _ => true) rows in
  let totalBandwidth := sum_of col_response_size rows in
  let days :=
    order_by (fun y x => snd y <? snd x)
      (map (fun g : jsstring * list LogRow =>
              (fst g, count_where (fun _ => true) (snd g)))
           (group_by jsstring_eq_dec col_date_only rows)) in
  let mostActiveDay :=
    match sql_limit 1 days with
    | (date_only, _) :: _ =>
        match date_only with [] => js "N/A" | _ :: _ => date_only end
    | [] => js "N/A"
    end in
  let topStatusCodes :=
    sql_limit 10
      (order_by
         (fun y x => StatusCodeCount.count y <? StatusCodeCount.count x)
         (map (fun g : Z * list LogRow =>
                 StatusCodeCount.mk (fst g) (count_where (fun _ => true) (snd g)))
              (group_by Z.eq_dec col_status_code rows))) in
  Summary.mk totalRequests totalUniqueIPs totalBandwidth mostActiveDay
    topStatusCodes.

Definition analyze (subDays : Z -> Z -> Z) (now : Z)
  (userAgentLimit pageLimit referrerLimit errorLimit ipLimit : Z)
  (db : Database) : AnalysisResults.t :=
  AnalysisResults.mk
    (getUserAgentStats subDays now userAgentLimit db)
    (getPageStats subDays now pageLimit db)
    (getReferrerStats subDays now referrerLimit db)
    (getErrorStats subDays now errorLimit db)
    (getBandwidthStats db)
    (getTopIPs subDays now ipLimit db)
    (calculateSummary db).

(* ================================================================== *)
(** * Stores that the program can produce, and sample environments *)
(* ================================================================== *)

(** The database states that the operations of [LogDatabase] produce
    from a fresh file, under any clock and any storage faults. *)
Inductive reachable : Database -> Prop :=
| reach_fresh : reachable emptyDatabase
| reach_insertLogEntries f now entries name db :
    reachable db -> reachable (snd (insertLogEntries f now entries name db))
| reach_insertLogEntry f now entry name db :
    reachable db -> reachable (snd (insertLogEntry f now entry name db))
| reach_clearAllData db :
    reachable db -> reachable (clearAllData db).

(** The rows that a committed bulk insert adds, with their consecutive
    row ids. *)
Fixpoint rows_from (seq hostId : Z) (entries : list LogEntry) : list LogRow :=
  match entries with
  | [] => []
  | entry :: rest => entry_row (seq + 1) hostId entry :: rows_from (seq + 1) hostId rest
  end.

Definition host_rows (name : jsstring) (db : Database) : list HostRow :=
  filter (fun h => str_eqb (hostname h) name) (hosts db).

Definition userAgentGroups (db : Database) : list (jsstring * Z) :=
  nodup (pair_dec jsstring_eq_dec Z.eq_dec)
        (map (fun r => (col_user_agent r, col_is_bot r)) (log_entries db)).

Definition activeDays (db : Database) : list jsstring :=
  nodup jsstring_eq_dec (map col_date_only (log_entries db)).

Definition statusCodes (db : Database) : list Z :=
  nodup Z.eq_dec (map col_status_code (log_entries db)).

(** The instant [y-mo-dThh:mi:ss.msZ] as a time value. *)
Definition instant (y mo d hh mi ss ms : Z) : Z :=
  MakeDate (MakeDay y (mo - 1) d) (MakeTime hh mi ss ms).

(** A host whose local time is UTC, and one on Pacific daylight time. *)
Definition tzUTC : TimeZone := fun _ => 0.
Definition tzPacific : TimeZone := fun _ => -7 * 3600000.

(** Day subtraction where every day has 24 hours. *)
Definition subDays_fixed (now amount : Z) : Z := now - amount * msPerDay.

(** A string literal in which the apostrophe stands for the double quote. *)
Definition jsq (s : string) : jsstring :=
  map (fun c => if N.eqb c 39 then 34%N else c) (js s).

(** The example line of the README and of the specification. *)
Definition sample_line : jsstring :=
  jsq "172.16.6.142 - - [06/Sep/2025:11:01:23 -0700] 'GET /js/script.js HTTP/1.1' 200 1650 'https://example.com/' 'Mozilla/5.0...' '205.169.39.128'".

Definition chrome_ua : jsstring :=
  js "Mozilla/5.0 (Windows NT 10.0; Win64; x64) AppleWebKit/537.36 (KHTML, like Gecko) Chrome/120.0.0.0 Safari/537.36".

Definition firefox_ua : jsstring :=
  js "Mozilla/5.0 (X11; Linux x86_64; rv:109.0) Gecko/20100101 Firefox/115.0".

(** An entry with a given instant, status code and user agent. *)
Definition entry_at (t status : Z) (ua : jsstring) : LogEntry :=
  mkLogEntry (js "172.16.6.142") t (js "GET") (js "/") (js "HTTP/1.1")
    status 1650 [] ua None.

Definition one_file (path content : jsstring) : FileSystem :=
  fun p => if str_eqb p path then File content else Missing.

Definition no_files : FileSystem := fun _ => Missing.

Definition failing : Faults := mkFaults (fun _ _ => true) (fun _ => false).

(** Substring search, written directly: [match_prefix ps s] reads one
    character of [s] per predicate of [ps]; [contains ps s] tries every
    start position. *)
Fixpoint match_prefix (ps : list (N -> bool)) (s : jsstring) : option jsstring :=
  match ps, s with
  | [], _ => Some s
  | p :: ps', c :: s' => if p c then match_prefix ps' s' else None
  | _ :: _, [] => None
  end.

Fixpoint contains (ps : list (N -> bool)) (s : jsstring) : bool :=
  match match_prefix ps s with
  | Some _ => true
  | None => match s with [] => false | _ :: tl => contains ps tl end
  end.

(** [s] has the word [w] in it, in any mix of upper and lower case. *)
Definition contains_ci (w : string) (s : jsstring) : bool :=
  contains (map ci_chr (js w)) s.

(** Tokens of the shape [DD/Mon/YYYY:HH:MM:SS +HHMM], from their parts. *)
Definition timestamp_token (day mon year hour minute second zone : jsstring)
  : jsstring :=
  day ++ 47%N :: mon ++ 47%N :: year ++ 58%N :: hour ++ 58%N :: minute
  ++ 58%N :: second ++ 32%N :: zone.

Definition all_digits (ds : jsstring) : Prop :=
  Forall (fun c => is_digit c = true) ds.

(** The time value of calendar fields read as UTC (month 0 = January). *)
Definition fields_instant (y mo d h mi s : Z) : Z :=
  MakeDate (MakeDay y mo d) (MakeTime h mi s 0).

(** The offset from UTC, in milliseconds, that a zone [+HHMM] or [-HHMM]
    states: [sg] is the code of the sign character. *)
Definition stated_offset (sg : N) (oh om : Z) : Z :=
  (if (sg =? 43)%N then 1 else -1) * ((oh * 60 + om) * 60000).

(** The invariants of the reachable stores: the bot flag of every entry
    row is 0 or 1, and no two host rows share a host name. *)
Definition bot_flag_ok (r : LogRow) : Prop := col_is_bot r = 0 \/ col_is_bot r = 1.

Definition store_ok (db : Database) : Prop :=
  NoDup (map hostname (hosts db)) /\ Forall bot_flag_ok (log_entries db).

(** The three thresholds of a query are ordered: thirty days ago is not
    after seven days ago, which is not after one day ago. *)
Definition windows_nested (subDays : Z -> Z -> Z) : Prop :=
  forall now, subDays now 30 <= subDays now 7 /\ subDays now 7 <= subDays now 1.

(** Sample stores, each built by the program from a fresh database. *)

Definition load_entries (entries : list LogEntry) : Database :=
  snd (insertLogEntries noFaults 5000 entries (js "example.com") emptyDatabase).

(** Two days of traffic from two browsers and two bots. *)
Definition sample_db : Database :=
  load_entries
    [ entry_at (instant 2025 9 6 18 1 23 0) 200 chrome_ua;
      entry_at (instant 2025 9 6 18 5 0 0) 200 (js "Zapier");
      entry_at (instant 2025 9 7 1 0 0 0) 404 (js "Zapier");
      entry_at (instant 2025 9 7 9 30 0 0) 200 firefox_ua;
      entry_at (instant 2025 9 7 9 31 0 0) 301
        (js "Mozilla/5.0 (compatible; AhrefsBot/7.0; +http://ahrefs.com/robot/)") ].

(** One request, made on 2025-07-01. *)
Definition old_db : Database :=
  load_entries [ entry_at (instant 2025 7 1 12 0 0 0) 200 chrome_ua ].

(** One request on each of 31 consecutive days from 2025-08-08 on. *)
Definition month_db : Database :=
  load_entries
    (map (fun i => entry_at (instant 2025 8 8 12 0 0 0 + Z.of_nat i * msPerDay)
                     200 chrome_ua)
         (seq 0 31)).

(** One request from each of 51 user agents. *)
Definition agents_db : Database :=
  load_entries
    (map (fun i => entry_at (instant 2025 9 7 12 0 0 0) 200
                     (js "Mozilla/5.0 rv:" ++ pad_digits 2 (Z.of_nat i)))
         (seq 0 51)).

(** Eleven requests with eleven status codes. *)
Definition codes_db : Database :=
  load_entries
    (map (fun code => entry_at (instant 2025 9 7 12 0 0 0) code chrome_ua)
         [200; 201; 204; 206; 301; 302; 304; 400; 403; 404; 500]).

(* ================================================================== *)
(** * Notions used to state the further properties *)
(* ================================================================== *)

(* ------------------------------------------------------------------ *)
(** ** Patterns *)
(* ------------------------------------------------------------------ *)

(** [run r st st']: the pattern [r] can read from the state [st] to the
    state [st'].  This is the matcher without its search order: every
    result of [rmatch] is a [run], and what a pattern accepts is read
    off its runs. *)
Inductive run : regex -> mstate -> mstate -> Prop :=
| run_Eps st : run Eps st st
| run_Chr p st c tl :
    m_rest st = c :: tl -> p c = true -> run (Chr p) st (advance st tl)
| run_Bol st : m_pos st = 0%nat -> run Bol st st
| run_Eol st : m_rest st = [] -> run Eol st st
| run_Seq a b st st' st'' :
    run a st st' -> run b st' st'' -> run (Seq a b) st st''
| run_Alt_l a b st st' : run a st st' -> run (Alt a b) st st'
| run_Alt_r a b st st' : run b st st' -> run (Alt a b) st st'
| run_Star_stop a st : run (Star a) st st
| run_Star_step a st st' st'' :
    run a st st' -> progressed st st' = true -> run (Star a) st' st'' ->
    run (Star a) st st''
| run_Opt_skip a st : run (Opt a) st st
| run_Opt_take a st st' :
    run a st st' -> progressed st st' = true -> run (Opt a) st st'
| run_Group i a st st' : run a st st' -> run (Group i a) st (set_cap i st st').

(** The loop of [rmatch] on a star, with the matcher of the body as an
    argument. *)
Definition star_loop (step : mstate -> (mstate -> option mstate) -> option mstate)
  (k : mstate -> option mstate) : nat -> mstate -> option mstate :=
  fix loop (fuel : nat) (cur : mstate) {struct fuel} : option mstate :=
    match fuel with
    | O => k cur
    | S fuel' =>
        match step cur (fun nxt => if progressed cur nxt then loop fuel' nxt
                                   else None) with
        | Some m => Some m
        | None => k cur
        end
    end.

(** What a greedy star over a character class tries on the run [s] of
    characters of the class: the longest run first, then one character
    less, down to none. *)
Fixpoint star_try (k : mstate -> option mstate) (pos : nat)
  (caps : list (nat * jsstring)) (s rest : jsstring) : option mstate :=
  match s with
  | [] => k (MState pos rest caps)
  | x :: s' =>
      match star_try k (S pos) caps s' rest with
      | Some m => Some m
      | None => k (MState pos (x :: s' ++ rest) caps)
      end
  end.

(** A run of the class [p] stops before [rest]. *)
Definition stops (p : N -> bool) (rest : jsstring) : Prop :=
  match rest with [] => True | c :: _ => p c = false end.

(** [yields x P]: the match attempt [x] succeeds, with a final state that
    satisfies [P]. *)
Definition yields (x : option mstate) (P : mstate -> Prop) : Prop :=
  exists m, x = Some m /\ P m.

(** [reads st s st']: going from [st] to [st'] consumes exactly [s]. *)
Definition reads (st : mstate) (s : jsstring) (st' : mstate) : Prop :=
  m_rest st = s ++ m_rest st' /\ m_pos st' = (m_pos st + List.length s)%nat.

(* ------------------------------------------------------------------ *)
(** ** Numbers *)
(* ------------------------------------------------------------------ *)

(** The integers up to 2^53 in magnitude: each of them is a Number, so
    that [parseInt] of its digits and the reading of a [SUM] that
    computes it return it unchanged. *)
Definition exact_number (v : Z) : Prop := - 2 ^ 53 <= v <= 2 ^ 53.

(* ------------------------------------------------------------------ *)
(** ** Lines *)
(* ------------------------------------------------------------------ *)

(** Text without white space, without a double quote, of white space
    only, of ASCII characters only. *)
Definition no_space (s : jsstring) : Prop :=
  Forall (fun c => negb (isWhiteSpace c) = true) s.

Definition no_quote (s : jsstring) : Prop :=
  Forall (fun c => negb (N.eqb c 34) = true) s.

Definition blank (s : jsstring) : Prop := Forall (fun c => isWhiteSpace c = true) s.

(** For ASCII text the order of the UTF-16 code units is the order of the
    bytes that SQLite compares. *)
Definition ascii_text (s : jsstring) : Prop := Forall (fun c => (c < 128)%N) s.

(** Strings that [trimEnd] leaves alone. *)
Definition ends_well (s : jsstring) : Prop := trimEnd s = s /\ s <> [].

(** A log line written from its fields, in the format of the README:
    [ip user1 user2 [ts] Qmethod url protoQ status size QrefQ QuaQ], and
    [ QfwdQ] after it when there is a forwarded-for field (Q is the
    double quote). *)
Definition format_line (ip user1 user2 ts method url proto status size ref ua : jsstring)
  (fwd : option jsstring) : jsstring :=
  ip ++ 32%N :: user1 ++ 32%N :: user2 ++ 32%N :: 91%N :: ts ++ 93%N :: 32%N
  :: 34%N :: method ++ 32%N :: url ++ 32%N :: proto ++ 34%N :: 32%N
  :: status ++ 32%N :: size ++ 32%N :: 34%N :: ref ++ 34%N :: 32%N
  :: 34%N :: ua ++ 34%N
  :: match fwd with Some f => 32%N :: 34%N :: f ++ [34%N] | None => [] end.

(** [line_shape tz line e]: [line], without the white space around it,
    is an access-log line whose fields are those of the entry [e],
    followed by anything: between the user agent's closing quote and the
    end of the line the pattern asks for nothing, and reads a quoted
    forwarded-for field when there is one.  The status and the size of
    the entry are not negative, and they are the integers that their
    digits denote when these are Numbers ([exact_number]; beyond that
    range [parseInt] rounds). *)
Definition line_shape (tz : TimeZone) (line : jsstring) (e : LogEntry) : Prop :=
  exists user1 user2 ts status size ref fwd tail,
    trim line
    = format_line (ip e) user1 user2 ts (method e) (url e) (protocol e) status
        size ref (userAgent e) None ++ tail /\
    (ip e <> [] /\ no_space (ip e)) /\
    (user1 <> [] /\ no_space user1) /\
    (user2 <> [] /\ no_space user2) /\
    parseNginxTimestamp tz ts = Some (timestamp e) /\
    (method e <> [] /\ no_space (method e)) /\
    no_quote (url e) /\
    (protocol e <> [] /\ no_space (protocol e)) /\
    (status <> [] /\ all_digits status /\ 0 <= statusCode e /\
     (exact_number (digits_value status) -> statusCode e = digits_value status)) /\
    ((size = js "-" /\ responseSize e = 0) \/
     (size <> [] /\ all_digits size /\ 0 <= responseSize e /\
      (exact_number (digits_value size) -> responseSize e = digits_value size))) /\
    (no_quote ref /\ referrer e = if str_eqb ref (js "-") then [] else ref) /\
    no_quote (userAgent e) /\
    match fwd with
    | Some f => (exists w rest, tail = w ++ 34%N :: f ++ 34%N :: rest
                                /\ w <> [] /\ blank w /\ no_quote f)
                /\ forwardedFor e = match f with [] => None | _ :: _ => Some f end
    | None => forwardedFor e = None
    end.

(** What every entry that the parser returns satisfies. *)
Definition entry_guarantees (e : LogEntry) : Prop :=
  (ip e <> [] /\ no_space (ip e)) /\
  (method e <> [] /\ no_space (method e)) /\
  no_quote (url e) /\
  (protocol e <> [] /\ no_space (protocol e)) /\
  0 <= statusCode e /\
  0 <= responseSize e /\
  (referrer e <> js "-" /\ no_quote (referrer e)) /\
  no_quote (userAgent e) /\
  (forall f, forwardedFor e = Some f -> f <> [] /\ no_quote f).

(* ------------------------------------------------------------------ *)
(** ** The store *)
(* ------------------------------------------------------------------ *)

(** The store after the batch [entries] was committed for the host
    [hostId]: what the loop of [stmt.run] leaves when nothing fails. *)
Definition committed (hostId : Z) (entries : list LogEntry) (db1 : Database)
  : Database :=
  mkDatabase (hosts db1)
    (log_entries db1 ++ rows_from (log_entries_seq db1) hostId entries)
    (file_metadata db1) (hosts_seq db1)
    (log_entries_seq db1 + Z.of_nat (List.length entries)).

(** Row ids: in both tables they grow with the position of the row and
    stay within the counter of the table. *)
Definition ids_ok (db : Database) : Prop :=
  StronglySorted Z.lt (map col_id (log_entries db)) /\
  Forall (fun r => 0 < col_id r <= log_entries_seq db) (log_entries db) /\
  StronglySorted Z.lt (map host_id (hosts db)) /\
  Forall (fun h => 0 < host_id h <= hosts_seq db) (hosts db) /\
  0 <= log_entries_seq db /\ 0 <= hosts_seq db.

(** An entry row: its host is in [hosts], and its derived columns agree
    with the columns they are derived from. *)
Definition row_ok (db : Database) (r : LogRow) : Prop :=
  In (col_host_id r) (map host_id (hosts db)) /\
  col_is_bot r = (if isBot (col_user_agent r) then 1 else 0) /\
  col_date_only r = toISODate (col_timestamp r).

(* ------------------------------------------------------------------ *)
(** ** Reports *)
(* ------------------------------------------------------------------ *)

(** [ranked_cut key top full]: [top] is the head of the ranking [full],
    it is in descending order of [key], and nothing that was cut off
    ranks above a row that was kept. *)
Definition ranked_cut {B : Type} (key : B -> Z) (top full : list B) : Prop :=
  StronglySorted (fun a b => key b <= key a) top /\
  exists rest, full = top ++ rest /\
               forall r r', In r top -> In r' rest -> key r' <= key r.

(** The number of stored entries that satisfy [p] and are not older than
    the threshold [th]. *)
Definition hits (p : LogRow -> bool) (th : Z) (db : Database) : Z :=
  count_where (fun x => p x && since th x) (log_entries db).

(** The number of distinct values of a column, or of a tuple of columns. *)
Definition distinct {K : Type} (K_dec : forall a b : K, {a = b} + {a <> b})
  (key : LogRow -> K) (rows : list LogRow) : Z :=
  Z.of_nat (List.length (nodup K_dec (map key rows))).

(** The number of stored entries of a UTC date. *)
Definition requests_on (day : jsstring) (db : Database) : Z :=
  count_where (fun x => str_eqb (col_date_only x) day) (log_entries db).

(** The number of stored entries with a status code. *)
Definition requests_with (code : Z) (db : Database) : Z :=
  count_where (fun x => col_status_code x =? code) (log_entries db).

(* ------------------------------------------------------------------ *)
(** ** More samples *)
(* ------------------------------------------------------------------ *)

(** The entry of the example line, on a host whose local time is UTC. *)
Definition sample_entry : LogEntry :=
  mkLogEntry (js "172.16.6.142") (instant 2025 9 6 18 1 23 0) (js "GET")
    (js "/js/script.js") (js "HTTP/1.1") 200 1650 (js "https://example.com/")
    (js "Mozilla/5.0...") (Some (js "205.169.39.128")).

(** The first row of [sample_db]. *)
Definition sample_row : LogRow :=
  entry_row 1 1 (entry_at (instant 2025 9 6 18 1 23 0) 200 chrome_ua).

(** The sample store with a second host. *)
Definition two_hosts_db : Database :=
  snd (insertLogEntries noFaults 6000
         [entry_at (instant 2025 9 7 10 0 0 0) 200 firefox_ua]
         (js "blog.example.com") sample_db).

(* ================================================================== *)
(** * Strings and patterns: basic facts *)
(* ================================================================== *)

Lemma str_eqb_eq a b : str_eqb a b = true <-> a = b.
Proof. unfold str_eqb. destruct (jsstring_eq_dec a b); split; congruence. Qed.

Lemma str_eqb_refl a : str_eqb a a = true.
Proof. now apply str_eqb_eq. Qed.

Lemma str_eqb_neq a b : str_eqb a b = false <-> a <> b.
Proof. unfold str_eqb. destruct (jsstring_eq_dec a b); split; congruence. Qed.

Lemma trimStart_blank s : Forall (fun c => isWhiteSpace c = true) s -> trimStart s = [].
Proof.
  induction 1 as [|c s Hc _ IH]; simpl; [reflexivity|].
  now rewrite Hc.
Qed.

Lemma trim_blank s : Forall (fun c => isWhiteSpace c = true) s -> trim s = [].
Proof.
  intros H. unfold trim, trimEnd. now rewrite (trimStart_blank s H).
Qed.

Lemma split_lines_blank s :
  Forall (fun c => isWhiteSpace c = true) s ->
  Forall (Forall (fun c => isWhiteSpace c = true)) (split_lines s).
Proof.
  induction 1 as [|c s Hc Hs IH]; simpl.
  - repeat constructor.
  - destruct (c =? 10)%N.
    + constructor; [constructor | exact IH].
    + destruct (split_lines s) as [|l ls].
      * repeat constructor; assumption.
      * inversion IH; subst. constructor; [constructor|]; assumption.
Qed.

Lemma parse_lines_blank tz ls :
  Forall (Forall (fun c => isWhiteSpace c = true)) ls -> parse_lines tz ls = [].
Proof.
  induction 1 as [|l ls Hl _ IH]; simpl; [reflexivity|].
  now rewrite (trim_blank l Hl).
Qed.

(** An empty or blank-only file has no entries. *)
Lemma parseLogFile_blank tz content :
  Forall (fun c => isWhiteSpace c = true) content -> parseLogFile tz content = [].
Proof.
  intros H. unfold parseLogFile. apply parse_lines_blank, split_lines_blank, H.
Qed.

(** A pattern that matches at the start of [s], wherever [s] begins, is
    found in every string that ends with [s]. *)
Lemma rsearch_suffix r pre s :
  (forall pos, rmatch r (MState pos s []) Some <> None) ->
  forall pos, rsearch r pos (pre ++ s) <> None.
Proof.
  intros Hm. induction pre as [|c pre IH]; intros pos; simpl.
  - specialize (Hm pos). destruct s; simpl;
      destruct (rmatch r _ Some); congruence.
  - destruct (rmatch r _ Some); [congruence | apply IH].
Qed.

Lemma regex_test_suffix r pre s :
  (forall pos, rmatch r (MState pos s []) Some <> None) ->
  regex_test r (pre ++ s) = true.
Proof.
  intros Hm. unfold regex_test, regex_exec.
  pose proof (rsearch_suffix r pre s Hm 0%nat) as H.
  destruct (rsearch r 0 (pre ++ s)); congruence.
Qed.

(** A sequence of character classes reads one character per class. *)
Lemma rmatch_seqs_chr ps : forall st k,
  rmatch (seqs (map Chr ps)) st k
  = match match_prefix ps (m_rest st) with
    | Some rest => k (MState (m_pos st + List.length ps) rest (m_caps st))
    | None => None
    end.
Proof.
  induction ps as [|p ps IH]; intros [pos rest caps] k.
  - simpl. now rewrite Nat.add_0_r.
  - destruct ps as [|q ps'].
    + simpl. destruct rest as [|c tl]; [reflexivity|].
      destruct (p c); [|reflexivity].
      unfold advance. simpl. now rewrite Nat.add_1_r.
    + change (seqs (map Chr (p :: q :: ps')))
        with (Seq (Chr p) (seqs (map Chr (q :: ps')))).
      cbn [rmatch m_rest match_prefix].
      destruct rest as [|c tl]; [reflexivity|].
      destruct (p c); [|reflexivity].
      rewrite IH. unfold advance. cbn [m_rest m_pos m_caps List.length].
      replace (S pos + S (List.length ps'))%nat
        with (pos + S (S (List.length ps')))%nat by lia.
      reflexivity.
Qed.

Lemma rsearch_chr_seq ps s : forall pos,
  match rsearch (seqs (map Chr ps)) pos s with Some _ => true | None => false end
  = contains ps s.
Proof.
  induction s as [|c s IH]; intros pos; cbn [rsearch contains];
    rewrite rmatch_seqs_chr; cbn [m_rest];
    destruct (match_prefix ps _); auto.
Qed.

(** The patterns of the bot table are plain words: testing one is a
    case-insensitive substring search. *)
Lemma regex_test_lit_ci w s : regex_test (lit_ci w) s = contains_ci w s.
Proof.
  unfold regex_test, regex_exec, lit_ci, contains_ci.
  rewrite <- (map_map ci_chr Chr). apply rsearch_chr_seq.
Qed.

Lemma isBot_spec ua : isBot ua = existsb (fun w => contains_ci w ua) bot_tokens.
Proof.
  unfold isBot, botPatterns. induction bot_tokens as [|w ws IH]; simpl.
  - reflexivity.
  - now rewrite regex_test_lit_ci, IH.
Qed.

(** Every user agent with [Bot] or [bot] in it is classified as a bot,
    by the first pattern of the table. *)
Lemma isBot_contains_Bot pre post : isBot (pre ++ js "Bot" ++ post) = true.
Proof.
  unfold isBot, botPatterns, bot_tokens. simpl map. cbn [existsb].
  rewrite regex_test_suffix; [reflexivity|].
  intros pos. simpl. discriminate.
Qed.

Lemma isBot_contains_bot pre post : isBot (pre ++ js "bot" ++ post) = true.
Proof.
  unfold isBot, botPatterns, bot_tokens. simpl map. cbn [existsb].
  rewrite regex_test_suffix; [reflexivity|].
  intros pos. simpl. discriminate.
Qed.

(** C8. The bot classifier is a function from the user-agent string to a
    boolean; it answers true for [Zapier], for every string that
    contains [AhrefsBot] and for every string that contains [Amazonbot],
    and false for browser strings that start with [Mozilla] and carry no
    bot token, and for the empty string. *)
Theorem C8_isBot_classification :
  isBot (js "Zapier") = true /\
  (forall pre post, isBot (pre ++ js "AhrefsBot" ++ post) = true) /\
  (forall pre post, isBot (pre ++ js "Amazonbot" ++ post) = true) /\
  isBot chrome_ua = false /\
  isBot firefox_ua = false /\
  isBot (js "Mozilla/5.0...") = false /\
  isBot [] = false.
Proof.
  split; [vm_compute; reflexivity|].
  split.
  { intros pre post.
    change (js "AhrefsBot" ++ post) with (js "Ahrefs" ++ js "Bot" ++ post).
    rewrite app_assoc. apply isBot_contains_Bot. }
  split.
  { intros pre post.
    change (js "Amazonbot" ++ post) with (js "Amazon" ++ js "bot" ++ post).
    rewrite app_assoc. apply isBot_contains_bot. }
  repeat split; vm_compute; reflexivity.
Qed.

(* ================================================================== *)
(** * The timestamp normalizer *)
(* ================================================================== *)

Lemma take_while_all p s : Forall (fun c => p c = true) s -> take_while p s = s.
Proof. induction 1 as [|c s Hc _ IH]; simpl; [reflexivity|]. now rewrite Hc, IH. Qed.

Lemma is_digit_cases d : is_digit d = true ->
  (d = 48 \/ d = 49 \/ d = 50 \/ d = 51 \/ d = 52
   \/ d = 53 \/ d = 54 \/ d = 55 \/ d = 56 \/ d = 57)%N.
Proof.
  unfold is_digit. intros H. apply andb_true_iff in H as [H1 H2].
  apply N.leb_le in H1, H2. lia.
Qed.

Lemma parseInt10_digits d ds :
  all_digits (d :: ds) -> parseInt10 (d :: ds) = Some (digits_value (d :: ds)).
Proof.
  intros H. inversion H as [|? ? Hd Hds]; subst.
  unfold parseInt10.
  destruct (is_digit_cases d Hd) as [->|[->|[->|[->|[->|[->|[->|[->|[->| ->]]]]]]]]];
    cbn [trimStart isWhiteSpace]; simpl; rewrite (take_while_all _ _ Hds); simpl;
    f_equal; destruct (digits_value _); reflexivity.
Qed.

Lemma match_prefix_all ps : forall s rest,
  Forall2 (fun p c => p c = true) ps s -> match_prefix ps (s ++ rest) = Some rest.
Proof.
  induction ps as [|p ps IH]; intros s rest H; inversion H; subst; simpl.
  - reflexivity.
  - rewrite H2. now apply IH.
Qed.

(** A group of character classes captures the characters it reads. *)
Lemma rmatch_group_chrs i ps s rest pos caps k :
  Forall2 (fun p c => p c = true) ps s ->
  rmatch (Group i (seqs (map Chr ps))) (MState pos (s ++ rest) caps) k
  = k (MState (pos + List.length s) rest ((i, s) :: caps)).
Proof.
  intros H. cbn [rmatch]. rewrite rmatch_seqs_chr. cbn [m_rest m_pos m_caps].
  rewrite (match_prefix_all ps s rest H).
  unfold set_cap. cbn [m_rest m_pos m_caps].
  pose proof (Forall2_length H) as Hlen. rewrite Hlen.
  replace (pos + List.length s - pos)%nat with (List.length s) by lia.
  now rewrite firstn_app, firstn_all, Nat.sub_diag, app_nil_r.
Qed.

Lemma rmatch_Seq a b st k : rmatch (Seq a b) st k = rmatch a st (fun st' => rmatch b st' k).
Proof. reflexivity. Qed.

Lemma rmatch_chr c rest pos caps k :
  rmatch (chr c) (MState pos (c :: rest) caps) k = k (MState (S pos) rest caps).
Proof. cbn [rmatch chr m_rest]. now rewrite N.eqb_refl. Qed.

(** One step through a sequence: [Hseq] exposes its head, [Hhead] runs
    the head (a group of character classes, or a literal character). *)
Ltac step_group Hseq Hhead :=
  rewrite Hseq; rewrite Hhead by (repeat constructor; assumption); cbv beta.

Ltac step_chr Hseq Hhead c :=
  rewrite Hseq; change (rmatch (lit _)) with (rmatch (chr c));
  rewrite Hhead; cbv beta.

Lemma regex_exec_at_start r s m :
  rmatch r (MState 0 s []) Some = Some m -> regex_exec r s = Some m.
Proof. unfold regex_exec. intros H. destruct s; simpl; now rewrite H. Qed.

Lemma rmatch_Bol s caps k : rmatch Bol (MState 0 s caps) k = k (MState 0 s caps).
Proof. reflexivity. Qed.

Lemma rmatch_Eol pos caps k : rmatch Eol (MState pos [] caps) k = k (MState pos [] caps).
Proof. reflexivity. Qed.

Lemma timestampRegex_token d1 d2 m1 m2 m3 y1 y2 y3 y4 h1 h2 mi1 mi2 s1 s2 sg o1 o2 o3 o4 :
  all_digits [d1; d2; y1; y2; y3; y4; h1; h2; mi1; mi2; s1; s2; o1; o2; o3; o4] ->
  Forall (fun c => is_word c = true) [m1; m2; m3] ->
  sg = 43%N \/ sg = 45%N ->
  exists m,
  regex_exec timestampRegex
    (timestamp_token [d1; d2] [m1; m2; m3] [y1; y2; y3; y4] [h1; h2] [mi1; mi2]
       [s1; s2] [sg; o1; o2; o3; o4])
  = Some m /\
  m_caps m = [ (7%nat, [sg; o1; o2; o3; o4]); (6%nat, [s1; s2]);
               (5%nat, [mi1; mi2]); (4%nat, [h1; h2]);
               (3%nat, [y1; y2; y3; y4]); (2%nat, [m1; m2; m3]);
               (1%nat, [d1; d2]) ].
Proof.
  intros Hd Hw Hsg.
  repeat match goal with
         | H : all_digits (_ :: _) |- _ =>
             let Hc := fresh "Hc" in inversion H as [|? ? Hc ?]; subst; clear H
         | H : Forall _ (_ :: _) |- _ =>
             let Hc := fresh "Hc" in inversion H as [|? ? Hc ?]; subst; clear H
         end.
  assert (Hs : (N.eqb sg 43 || N.eqb sg 45) = true) by (destruct Hsg as [-> | ->]; reflexivity).
  eexists. split.
  - apply regex_exec_at_start.
    unfold timestamp_token, timestampRegex; cbn [seqs].
    rewrite rmatch_Seq, rmatch_Bol.
    step_group rmatch_Seq (rmatch_group_chrs 1 [is_digit; is_digit] [d1; d2]).
    step_chr rmatch_Seq rmatch_chr 47%N.
    step_group rmatch_Seq
      (rmatch_group_chrs 2 [is_word; is_word; is_word] [m1; m2; m3]).
    step_chr rmatch_Seq rmatch_chr 47%N.
    step_group rmatch_Seq
      (rmatch_group_chrs 3 [is_digit; is_digit; is_digit; is_digit]
         [y1; y2; y3; y4]).
    step_chr rmatch_Seq rmatch_chr 58%N.
    step_group rmatch_Seq (rmatch_group_chrs 4 [is_digit; is_digit] [h1; h2]).
    step_chr rmatch_Seq rmatch_chr 58%N.
    step_group rmatch_Seq (rmatch_group_chrs 5 [is_digit; is_digit] [mi1; mi2]).
    step_chr rmatch_Seq rmatch_chr 58%N.
    step_group rmatch_Seq (rmatch_group_chrs 6 [is_digit; is_digit] [s1; s2]).
    step_chr rmatch_Seq rmatch_chr 32%N.
    rewrite rmatch_Seq.
    rewrite <- (app_nil_r [sg; o1; o2; o3; o4]).
    rewrite (rmatch_group_chrs 7
               [fun c => N.eqb c 43 || N.eqb c 45; is_digit; is_digit; is_digit;
                is_digit]
               [sg; o1; o2; o3; o4])
      by (repeat constructor; assumption).
    rewrite rmatch_Eol. reflexivity.
  - reflexivity.
Qed.

Lemma months_are_words mon mo :
  lookup_month months mon = Some mo ->
  exists m1 m2 m3, mon = [m1; m2; m3] /\ Forall (fun c => is_word c = true) mon.
Proof.
  unfold months. cbn [lookup_month].
  repeat match goal with
         | |- context [str_eqb ?k mon] =>
             let E := fresh "E" in
             destruct (str_eqb k mon) eqn:E;
             [apply str_eqb_eq in E; subst mon; intros _;
              do 3 eexists; split; [reflexivity | repeat constructor] |]
         end.
  discriminate.
Qed.

Lemma timezoneRegex_zone sg o1 o2 o3 o4 :
  all_digits [o1; o2; o3; o4] ->
  sg = 43%N \/ sg = 45%N ->
  exists m,
    regex_exec timezoneRegex [sg; o1; o2; o3; o4] = Some m /\
    m_caps m = [(3%nat, [o3; o4]); (2%nat, [o1; o2]); (1%nat, [sg])].
Proof.
  intros Hd Hsg.
  repeat match goal with
         | H : all_digits (_ :: _) |- _ =>
             let Hc := fresh "Hc" in inversion H as [|? ? Hc ?]; subst; clear H
         | H : Forall _ (_ :: _) |- _ =>
             let Hc := fresh "Hc" in inversion H as [|? ? Hc ?]; subst; clear H
         end.
  assert (Hs : (N.eqb sg 43 || N.eqb sg 45) = true) by (destruct Hsg as [-> | ->]; reflexivity).
  eexists. split.
  - apply regex_exec_at_start. unfold timezoneRegex. cbn [seqs].
    change [sg; o1; o2; o3; o4] with ([sg] ++ [o1; o2] ++ [o3; o4] ++ []).
    rewrite rmatch_Seq.
    rewrite (rmatch_group_chrs 1 [fun c => N.eqb c 43 || N.eqb c 45] [sg])
      by (repeat constructor; assumption).
    step_group rmatch_Seq (rmatch_group_chrs 2 [is_digit; is_digit] [o1; o2]).
    rewrite (rmatch_group_chrs 3 [is_digit; is_digit] [o3; o4])
      by (repeat constructor; assumption).
    reflexivity.
  - reflexivity.
Qed.

Lemma digits_value_from_nonneg ds : forall acc,
  all_digits ds -> 0 <= acc ->
  0 <= fold_left (fun a c => 10 * a + (Z.of_N c - 48)) ds acc.
Proof.
  induction ds as [|d ds IH]; intros acc Hd Hacc; cbn [fold_left];
    [exact Hacc|].
  inversion Hd as [|? ? Hc Hds]; subst. apply IH; [exact Hds|].
  unfold is_digit in Hc. apply andb_true_iff in Hc as [H1 _].
  apply N.leb_le in H1. lia.
Qed.

Lemma digits_value_nonneg ds : all_digits ds -> 0 <= digits_value ds.
Proof. intros H. apply digits_value_from_nonneg; [exact H | lia]. Qed.

Lemma new_Date_fields tz y mo d h mi s :
  0 <= y ->
  new_Date tz y mo d h mi s
  = fields_instant (if y <=? 99 then 1900 + y else y) mo d h mi s
    - tz (fields_instant (if y <=? 99 then 1900 + y else y) mo d h mi s).
Proof.
  intros Hy. unfold new_Date, UTC, fields_instant.
  apply Z.leb_le in Hy. now rewrite Hy.
Qed.

(** What the normalizer computes on every well-formed token with a month
    of the table: the instant of the calendar fields in the stated
    offset, moved by the local offset of the host at those fields (and
    with a year below 100 read as 19YY by the [Date] constructor). *)
Theorem parseNginxTimestamp_token
  tz d1 d2 mon mo y1 y2 y3 y4 h1 h2 mi1 mi2 s1 s2 sg o1 o2 o3 o4 :
  all_digits [d1; d2; y1; y2; y3; y4; h1; h2; mi1; mi2; s1; s2; o1; o2; o3; o4] ->
  lookup_month months mon = Some mo ->
  sg = 43%N \/ sg = 45%N ->
  let year := digits_value [y1; y2; y3; y4] in
  let local :=
    fields_instant (if year <=? 99 then 1900 + year else year) mo
      (digits_value [d1; d2]) (digits_value [h1; h2]) (digits_value [mi1; mi2])
      (digits_value [s1; s2]) in
  parseNginxTimestamp tz
    (timestamp_token [d1; d2] mon [y1; y2; y3; y4] [h1; h2] [mi1; mi2] [s1; s2]
       [sg; o1; o2; o3; o4])
  = Some (local
          - stated_offset sg (digits_value [o1; o2]) (digits_value [o3; o4])
          - tz local).
Proof.
  intros Hd Hmon Hsg year local.
  destruct (months_are_words mon mo Hmon) as (m1 & m2 & m3 & -> & Hw).
  destruct (timestampRegex_token d1 d2 m1 m2 m3 y1 y2 y3 y4 h1 h2 mi1 mi2 s1 s2
              sg o1 o2 o3 o4 Hd Hw Hsg) as (m & Hm & Hcaps).
  repeat match goal with
         | H : all_digits (_ :: _) |- _ =>
             let Hc := fresh "Hc" in inversion H as [|? ? Hc ?]; subst; clear H
         | H : Forall (fun c => is_digit c = true) (_ :: _) |- _ =>
             let Hc := fresh "Hc" in inversion H as [|? ? Hc ?]; subst; clear H
         end.
  destruct (timezoneRegex_zone sg o1 o2 o3 o4) as (tzm & Htz & Hzcaps);
    [repeat constructor; assumption | exact Hsg |].
  unfold parseNginxTimestamp. rewrite Hm, Hcaps. cbn [capture Nat.eqb].
  rewrite Hmon, Htz, Hzcaps. cbn [capture Nat.eqb].
  rewrite !parseInt10_digits by (repeat constructor; assumption).
  fold year. f_equal.
  rewrite new_Date_fields
    by (subst year; apply digits_value_nonneg; repeat constructor; assumption).
  fold local. generalize local. intros t. unfold stated_offset.
  destruct Hsg as [-> | ->].
  - change (str_eqb [43%N] (js "+")) with true.
    change ((43 =? 43)%N) with true. cbv iota. lia.
  - change (str_eqb [45%N] (js "+")) with false.
    change ((45 =? 43)%N) with false. cbv iota. lia.
Qed.

(** On a host that runs in UTC, and for a year from 100 on, that is the
    instant of the calendar fields in the stated offset. *)
Corollary parseNginxTimestamp_token_UTC
  d1 d2 mon mo y1 y2 y3 y4 h1 h2 mi1 mi2 s1 s2 sg o1 o2 o3 o4 :
  all_digits [d1; d2; y1; y2; y3; y4; h1; h2; mi1; mi2; s1; s2; o1; o2; o3; o4] ->
  lookup_month months mon = Some mo ->
  sg = 43%N \/ sg = 45%N ->
  100 <= digits_value [y1; y2; y3; y4] ->
  parseNginxTimestamp tzUTC
    (timestamp_token [d1; d2] mon [y1; y2; y3; y4] [h1; h2] [mi1; mi2] [s1; s2]
       [sg; o1; o2; o3; o4])
  = Some (fields_instant (digits_value [y1; y2; y3; y4]) mo
            (digits_value [d1; d2]) (digits_value [h1; h2])
            (digits_value [mi1; mi2]) (digits_value [s1; s2])
          - stated_offset sg (digits_value [o1; o2]) (digits_value [o3; o4])).
Proof.
  intros Hd Hmon Hsg Hy.
  rewrite (parseNginxTimestamp_token tzUTC _ _ _ _ _ _ _ _ _ _ _ _ _ _ _ _ _ _ _
             Hd Hmon Hsg).
  replace (digits_value [y1; y2; y3; y4] <=? 99) with false
    by (symmetry; apply Z.leb_gt; lia).
  unfold tzUTC. f_equal. lia.
Qed.

(** The calendar arithmetic on a few dates: a day in September, a leap
    day, the last millisecond before the epoch, a century year. *)
Lemma toISODate_examples :
  toISODate (instant 2025 9 6 18 1 23 0) = js "2025-09-06" /\
  toISODate (instant 2024 2 29 23 59 59 999) = js "2024-02-29" /\
  toISODate (-1) = js "1969-12-31" /\
  toISODate (instant 1900 3 1 0 0 0 0) = js "1900-03-01" /\
  toISODate (instant 1900 2 29 0 0 0 0) = js "1900-03-01".
Proof. vm_compute. repeat split. Qed.

(** The sample entries are what the parser makes of log lines. *)
Lemma entry_at_is_parsed :
  parseLogLine tzUTC
    (jsq "172.16.6.142 - - [07/Sep/2025:01:00:00 +0000] 'GET / HTTP/1.1' 404 1650 '-' 'Zapier'")
  = Some (entry_at (instant 2025 9 7 1 0 0 0) 404 (js "Zapier")).
Proof. vm_compute. reflexivity. Qed.

Lemma new_Date_constant_zone c y mo d h mi s :
  new_Date (fun _ => c) y mo d h mi s = new_Date tzUTC y mo d h mi s - c.
Proof. unfold new_Date, UTC, tzUTC. lia. Qed.

(** On a host whose local time is [c] milliseconds ahead of UTC, every
    parsed timestamp is [c] milliseconds earlier than on a UTC host. *)
Lemma parseNginxTimestamp_constant_zone c s :
  parseNginxTimestamp (fun _ => c) s
  = option_map (fun t => t - c) (parseNginxTimestamp tzUTC s).
Proof.
  unfold parseNginxTimestamp.
  repeat match goal with
         | |- context [match ?x with Some _ => _ | None => _ end] =>
             destruct x; simpl; try reflexivity
         end.
  rewrite new_Date_constant_zone. f_equal. lia.
Qed.

(** C1. [parseNginxTimestamp] builds the date with the local-time [Date]
    constructor, so its result moves with the time zone of the host: the
    token [06/Sep/2025:11:01:23 -0700] becomes 2025-09-06T18:01:23.000Z
    on a host that runs in UTC, and 2025-09-07T01:01:23.000Z on a host on
    Pacific daylight time; in general the result on a host [c]
    milliseconds ahead of UTC is [c] milliseconds early. *)
Theorem C1_parseNginxTimestamp_depends_on_host_zone :
  parseNginxTimestamp tzUTC (js "06/Sep/2025:11:01:23 -0700")
    = Some (instant 2025 9 6 18 1 23 0) /\
  parseNginxTimestamp tzPacific (js "06/Sep/2025:11:01:23 -0700")
    = Some (instant 2025 9 7 1 1 23 0) /\
  instant 2025 9 7 1 1 23 0 <> instant 2025 9 6 18 1 23 0 /\
  (forall c s,
      parseNginxTimestamp (fun _ => c) s
      = option_map (fun t => t - c) (parseNginxTimestamp tzUTC s)).
Proof.
  split; [vm_compute; reflexivity|].
  split; [vm_compute; reflexivity|].
  split; [vm_compute; discriminate|].
  apply parseNginxTimestamp_constant_zone.
Qed.

(* ================================================================== *)
(** * loadLogFile: the checks before the database is touched *)
(* ================================================================== *)

Lemma hostname_missing_blank name : hostname_missing name = true <-> trim name = [].
Proof.
  unfold hostname_missing. destruct name as [|c s].
  - split; reflexivity.
  - apply str_eqb_eq.
Qed.

(** C10 (as the code has it). When the file exists and its content has
    no valid entry, [loadLogFile] fails and returns the database it was
    given: no host row is created or updated and no entry row is
    inserted, whatever the clock and the storage engine would have
    done.  The failure is the empty-result error when the host name is
    not blank; when it is blank the failure is the host-name error,
    because the host name is tested before the file is read. *)
Theorem C10_no_entries_store_untouched tz fs f now filePath name db content :
  fs filePath = File content ->
  parseLogFile tz content = [] ->
  snd (loadLogFile tz fs f now filePath name db) = db /\
  (trim name <> [] ->
   loadLogFile tz fs f now filePath name db = (Failed EmptyResult, db)) /\
  (trim name = [] ->
   loadLogFile tz fs f now filePath name db = (Failed InvalidHost, db)).
Proof.
  intros Hfile Hparse. unfold loadLogFile, existsSync, readFileSync.
  rewrite Hfile. simpl.
  destruct (hostname_missing name) eqn:Hm.
  - split; [reflexivity|]. split; [|reflexivity]. intros Hname.
    apply hostname_missing_blank in Hm. contradiction.
  - rewrite Hparse. split; [reflexivity|]. split; [reflexivity|].
    intros Hname. apply hostname_missing_blank in Hname. congruence.
Qed.

Lemma C10_witness :
  let content := js "   " ++ [10%N] ++ js "not a log line" ++ [10%N] in
  let fs := one_file (js "access.log") content in
  loadLogFile tzUTC fs failing 1000 (js "access.log") (js "example.com") emptyDatabase
  = (Failed EmptyResult, emptyDatabase).
Proof.
  intros content fs.
  destruct (C10_no_entries_store_untouched tzUTC fs failing 1000 (js "access.log")
              (js "example.com") emptyDatabase content) as (_ & Hempty & _).
  - reflexivity.
  - vm_compute. reflexivity.
  - apply Hempty. vm_compute. discriminate.
Defined.

(** The claim as stated fails: the file exists and holds no valid
    entry, the host name is blank, and the failure is the host-name
    error, not the empty-result one. *)
Lemma C10_counterexample :
  parseLogFile tzUTC (js "not a log line") = [] /\
  fst (loadLogFile tzUTC (one_file (js "access.log") (js "not a log line"))
         noFaults 1000 (js "access.log") (js "   ") emptyDatabase)
  = Failed InvalidHost /\
  Failed InvalidHost <> Failed EmptyResult.
Proof.
  split; [vm_compute; reflexivity|].
  split; [vm_compute; reflexivity | discriminate].
Qed.

(** C3 (as the code has it). With a host name that is empty or blank
    after trimming, [loadLogFile] fails and returns the database it was
    given; the error is the host-name error when the file exists, and the
    file-not-found error when it does not, because the existence of the
    file is checked first. *)
Theorem C3_blank_hostname tz fs f now filePath name db :
  trim name = [] ->
  loadLogFile tz fs f now filePath name db
  = (Failed (if existsSync fs filePath then InvalidHost else InputNotFound), db).
Proof.
  intros Hname. unfold loadLogFile.
  destruct (existsSync fs filePath); simpl; [|reflexivity].
  apply hostname_missing_blank in Hname. now rewrite Hname.
Qed.

Lemma C3_witness :
  loadLogFile tzUTC (one_file (js "access.log") sample_line) noFaults 1000
    (js "access.log") (js "   ") emptyDatabase
  = (Failed InvalidHost, emptyDatabase).
Proof.
  apply (C3_blank_hostname tzUTC (one_file (js "access.log") sample_line)
           noFaults 1000 (js "access.log") (js "   ") emptyDatabase).
  vm_compute. reflexivity.
Defined.

(** The claim as stated fails: the file is missing and the host name is
    blank, and the call does not report the host-name error. *)
Lemma C3_counterexample :
  trim (js "   ") = [] /\
  fst (loadLogFile tzUTC no_files noFaults 1000 (js "missing.log") (js "   ")
         emptyDatabase) <> Failed InvalidHost.
Proof.
  split; [vm_compute; reflexivity|]. vm_compute. discriminate.
Qed.

(* ================================================================== *)
(** * The store: hosts and the bulk insert *)
(* ================================================================== *)

Lemma getOrCreateHost_keeps_entries now name db :
  let db1 := snd (getOrCreateHost now name db) in
  log_entries db1 = log_entries db /\
  file_metadata db1 = file_metadata db /\
  log_entries_seq db1 = log_entries_seq db.
Proof.
  unfold getOrCreateHost.
  destruct (find _ (hosts db)); simpl; repeat split.
Qed.

Lemma insert_loop_spec f hostId entries : forall db db',
  insert_loop f hostId entries db = Some db' ->
  db' = mkDatabase (hosts db)
          (log_entries db ++ rows_from (log_entries_seq db) hostId entries)
          (file_metadata db) (hosts_seq db)
          (log_entries_seq db + Z.of_nat (List.length entries)).
Proof.
  induction entries as [|e rest IH]; intros db db' H; simpl in H.
  - injection H as <-. destruct db; simpl. now rewrite app_nil_r, Z.add_0_r.
  - destruct (run_fails f db e); [discriminate|].
    apply IH in H. subst db'. simpl.
    rewrite <- app_assoc. simpl. f_equal. lia.
Qed.

Lemma insert_loop_noFaults hostId entries : forall db,
  insert_loop noFaults hostId entries db <> None.
Proof.
  induction entries as [|e rest IH]; intros db; simpl; [discriminate | apply IH].
Qed.

(** What [insertLogEntries] returns: the host step always stays; the rows
    are added all together or not at all. *)
Lemma insertLogEntries_spec f now entries name db :
  let hostId := fst (getOrCreateHost now name db) in
  let db1 := snd (getOrCreateHost now name db) in
  insertLogEntries f now entries name db
  = (Done,
     mkDatabase (hosts db1)
       (log_entries db ++ rows_from (log_entries_seq db) hostId entries)
       (file_metadata db) (hosts_seq db1)
       (log_entries_seq db + Z.of_nat (List.length entries)))
  \/ insertLogEntries f now entries name db = (Failed StorageFailure, db1).
Proof.
  intros hostId db1. unfold insertLogEntries, transaction.
  destruct (getOrCreateHost_keeps_entries now name db) as (He & Hm & Hs).
  subst hostId db1.
  destruct (getOrCreateHost now name db) as [hostId db1]; simpl in *.
  destruct (insert_loop f hostId entries db1) as [db'|] eqn:Hloop;
    [|now right].
  apply insert_loop_spec in Hloop.
  destruct (commit_fails f db'); [now right|].
  left. subst db'. now rewrite He, Hm, Hs.
Qed.

Lemma insertLogEntries_hosts f now entries name db :
  hosts (snd (insertLogEntries f now entries name db))
  = hosts (snd (getOrCreateHost now name db)).
Proof.
  destruct (insertLogEntries_spec f now entries name db) as [H|H];
    rewrite H; reflexivity.
Qed.

(** C2 (as the code has it). The bulk insert is one transaction over the
    entry rows: either the load succeeds and every parsed entry is a new
    row, or it fails with the storage error and the entries table and its
    row counter are as before. The host row is resolved or created before
    the transaction starts, and that write stays in both cases. *)
Theorem C2_bulk_insert_all_or_nothing f now entries name db :
  let hostId := fst (getOrCreateHost now name db) in
  let db1 := snd (getOrCreateHost now name db) in
  let res := insertLogEntries f now entries name db in
  hosts (snd res) = hosts db1 /\
  ((fst res = Done /\
    log_entries (snd res)
    = log_entries db ++ rows_from (log_entries_seq db) hostId entries)
   \/
   (fst res = Failed StorageFailure /\
    log_entries (snd res) = log_entries db /\
    log_entries_seq (snd res) = log_entries_seq db)).
Proof.
  intros hostId db1 res. subst res.
  destruct (getOrCreateHost_keeps_entries now name db) as (He & _ & Hs).
  destruct (insertLogEntries_spec f now entries name db) as [H|H];
    rewrite H; simpl; split; auto.
Qed.

(** The claim as stated fails: the second insert of a batch throws, no
    entry row is kept, and the hosts table has a row it did not have. *)
Lemma C2_counterexample :
  let batch := [entry_at 1000 200 chrome_ua; entry_at 2000 404 chrome_ua] in
  let f := mkFaults (fun db _ => 1 <=? log_entries_seq db) (fun _ => false) in
  let res := insertLogEntries f 5000 batch (js "example.com") emptyDatabase in
  fst res = Failed StorageFailure /\
  log_entries (snd res) = [] /\
  hosts (snd res) <> hosts emptyDatabase.
Proof.
  vm_compute. repeat split. discriminate.
Qed.

(* ------------------------------------------------------------------ *)
(** ** Host rows *)
(* ------------------------------------------------------------------ *)

Lemma filter_map_commute {A : Type} (p : A -> bool) (g : A -> A) l :
  (forall x, p (g x) = p x) -> filter p (map g l) = map g (filter p l).
Proof.
  intros Hp. induction l as [|x l IH]; simpl; [reflexivity|].
  rewrite Hp. destruct (p x); simpl; now rewrite IH.
Qed.

Lemma find_none_filter {A : Type} (p : A -> bool) l :
  find p l = None -> filter p l = [].
Proof.
  induction l as [|x l IH]; simpl; [reflexivity|].
  destruct (p x); [discriminate | exact IH].
Qed.

Lemma find_unique_host name l h :
  NoDup (map hostname l) ->
  find (fun h => str_eqb (hostname h) name) l = Some h ->
  filter (fun h => str_eqb (hostname h) name) l = [h].
Proof.
  induction l as [|x l IH]; simpl; intros Hnd Hf; [discriminate|].
  inversion Hnd as [|? ? Hnotin Hnd']; subst.
  destruct (str_eqb (hostname x) name) eqn:Hx.
  - injection Hf as <-. f_equal.
    apply str_eqb_eq in Hx.
    destruct (filter _ l) as [|y ys] eqn:Hfl; [reflexivity|].
    exfalso. apply Hnotin.
    assert (Hin : In y (filter (fun h => str_eqb (hostname h) name) l))
      by (rewrite Hfl; now left).
    apply filter_In in Hin as [Hin Hy]. apply str_eqb_eq in Hy.
    rewrite Hx, <- Hy. now apply in_map.
  - now apply IH.
Qed.

Lemma map_hostname_update now id l :
  map hostname
      (map (fun h => if host_id h =? id then set_updated_at now h else h) l)
  = map hostname l.
Proof.
  rewrite map_map. apply map_ext. intros h.
  now destruct (host_id h =? id).
Qed.

(** The two cases of [getOrCreateHost]: a new row with both instants at
    [now], or the existing row with its update instant moved to [now]. *)
Lemma getOrCreateHost_host_rows now name db :
  NoDup (map hostname (hosts db)) ->
  let db1 := snd (getOrCreateHost now name db) in
  (host_rows name db = [] /\
   host_rows name db1 = [mkHostRow (hosts_seq db + 1) name now now] /\
   hosts db1 = hosts db ++ [mkHostRow (hosts_seq db + 1) name now now])
  \/
  (exists h, host_rows name db = [h] /\
             host_rows name db1 = [set_updated_at now h] /\
             List.length (hosts db1) = List.length (hosts db)).
Proof.
  intros Hnd. unfold getOrCreateHost, host_rows.
  destruct (find _ (hosts db)) as [h|] eqn:Hf; simpl.
  - right. exists h.
    pose proof (find_unique_host name _ h Hnd Hf) as Hu.
    split; [exact Hu|]. split; [|now rewrite length_map].
    rewrite filter_map_commute.
    + rewrite Hu. simpl. now rewrite Z.eqb_refl.
    + intros x. now destruct (host_id x =? host_id h).
  - left. apply find_none_filter in Hf.
    split; [exact Hf|]. split; [|reflexivity].
    rewrite filter_app, Hf. simpl. now rewrite str_eqb_refl.
Qed.

Lemma getOrCreateHost_unique now name db :
  NoDup (map hostname (hosts db)) ->
  NoDup (map hostname (hosts (snd (getOrCreateHost now name db)))).
Proof.
  intros Hnd. unfold getOrCreateHost.
  destruct (find _ (hosts db)) as [h|] eqn:Hf; simpl.
  - now rewrite map_hostname_update.
  - rewrite map_app. simpl.
    apply NoDup_app; [exact Hnd | repeat constructor; auto | ].
    intros x Hx [<-|[]].
    apply in_map_iff in Hx as (h & Hh & Hin).
    pose proof (find_none _ _ Hf h Hin) as Hno. simpl in Hno.
    apply str_eqb_neq in Hno. contradiction.
Qed.

(* ------------------------------------------------------------------ *)
(** ** Invariants of the reachable stores *)
(* ------------------------------------------------------------------ *)

Lemma entry_row_flag id hostId e : bot_flag_ok (entry_row id hostId e).
Proof.
  unfold bot_flag_ok, entry_row. simpl. destruct (isBot (userAgent e)); auto.
Qed.

Lemma rows_from_flags hostId entries : forall seq,
  Forall bot_flag_ok (rows_from seq hostId entries).
Proof.
  induction entries as [|e rest IH]; intros seq; simpl; constructor.
  - apply entry_row_flag.
  - apply IH.
Qed.

Lemma insertLogEntries_ok f now entries name db :
  store_ok db -> store_ok (snd (insertLogEntries f now entries name db)).
Proof.
  intros [Hh He]. split.
  - rewrite insertLogEntries_hosts. now apply getOrCreateHost_unique.
  - destruct (getOrCreateHost_keeps_entries now name db) as (Hk & _ & _).
    destruct (insertLogEntries_spec f now entries name db) as [H|H];
      rewrite H; simpl.
    + apply Forall_app. split; [exact He | apply rows_from_flags].
    + now rewrite Hk.
Qed.

Lemma insertLogEntry_ok f now entry name db :
  store_ok db -> store_ok (snd (insertLogEntry f now entry name db)).
Proof.
  intros [Hh He]. unfold insertLogEntry.
  pose proof (getOrCreateHost_unique now name db Hh) as Hu.
  destruct (getOrCreateHost_keeps_entries now name db) as (Hk & _ & _).
  destruct (getOrCreateHost now name db) as [hostId db1]; simpl in *.
  destruct (run_fails f db1 entry); unfold store_ok; simpl;
    (split; [exact Hu|]); rewrite Hk.
  - exact He.
  - apply Forall_app. split; [exact He|].
    constructor; [apply entry_row_flag | constructor].
Qed.

Lemma reachable_ok db : reachable db -> store_ok db.
Proof.
  induction 1.
  - split; constructor.
  - now apply insertLogEntries_ok.
  - now apply insertLogEntry_ok.
  - split; constructor.
Qed.

Lemma loadLogFile_cases tz fs f now filePath name db :
  snd (loadLogFile tz fs f now filePath name db) = db
  \/ exists entries,
       loadLogFile tz fs f now filePath name db
       = insertLogEntries f now entries name db.
Proof.
  unfold loadLogFile.
  destruct (negb (existsSync fs filePath)); [now left|].
  destruct (hostname_missing name); [now left|].
  destruct (readFileSync fs filePath) as [content|]; [|now left].
  destruct (parseLogFile tz content) as [|e es] eqn:Hp; [now left|].
  right. now exists (e :: es).
Qed.

Lemma loadLogFile_reachable tz fs f now filePath name db :
  reachable db -> reachable (snd (loadLogFile tz fs f now filePath name db)).
Proof.
  intros Hr.
  destruct (loadLogFile_cases tz fs f now filePath name db) as [H|[es H]];
    rewrite H; [exact Hr | now constructor].
Qed.

Lemma loadLogFile_Done tz fs f now filePath name db db' :
  loadLogFile tz fs f now filePath name db = (Done, db') ->
  hosts db' = hosts (snd (getOrCreateHost now name db)).
Proof.
  unfold loadLogFile.
  destruct (negb (existsSync fs filePath)); [discriminate|].
  destruct (hostname_missing name); [discriminate|].
  destruct (readFileSync fs filePath) as [content|]; [|discriminate].
  destruct (parseLogFile tz content) as [|e es]; [discriminate|].
  intros H. rewrite <- (insertLogEntries_hosts f now (e :: es) name db).
  now rewrite H.
Qed.

(** C9 (as the code has it). After two successful loads for one host
    name, at clock readings [now1] and [now2], the hosts table has
    exactly one row for the name before and after the second load, the
    second load adds no host row and keeps the row's id and creation
    instant, the update instant is [now1] after the first load and [now2]
    after the second, and so it is strictly later when the clock reading
    is. Host names stay unique in the table. *)
Theorem C9_second_load_updates_host
  tz fs1 fs2 f1 f2 now1 now2 path1 path2 name db0 db1 db2 :
  reachable db0 ->
  loadLogFile tz fs1 f1 now1 path1 name db0 = (Done, db1) ->
  loadLogFile tz fs2 f2 now2 path2 name db1 = (Done, db2) ->
  exists h1 h2,
    host_rows name db1 = [h1] /\
    host_rows name db2 = [h2] /\
    List.length (hosts db2) = List.length (hosts db1) /\
    host_id h2 = host_id h1 /\
    created_at h2 = created_at h1 /\
    updated_at h1 = now1 /\
    updated_at h2 = now2 /\
    (now1 < now2 -> updated_at h1 < updated_at h2) /\
    NoDup (map hostname (hosts db2)).
Proof.
  intros Hr H1 H2.
  pose proof (reachable_ok _ Hr) as [Hnd0 _].
  pose proof (loadLogFile_Done _ _ _ _ _ _ _ _ H1) as Hh1.
  pose proof (loadLogFile_Done _ _ _ _ _ _ _ _ H2) as Hh2.
  assert (Hnd1 : NoDup (map hostname (hosts db1)))
    by (rewrite Hh1; now apply getOrCreateHost_unique).
  assert (Hnd2 : NoDup (map hostname (hosts db2)))
    by (rewrite Hh2; now apply getOrCreateHost_unique).
  assert (Hrow1 : exists h1, host_rows name db1 = [h1] /\ updated_at h1 = now1).
  { unfold host_rows at 1. rewrite Hh1.
    destruct (getOrCreateHost_host_rows now1 name db0 Hnd0)
      as [(_ & Hn & _)|(h & _ & Hn & _)]; unfold host_rows in Hn;
      rewrite Hn; eexists; split; reflexivity. }
  destruct Hrow1 as (h1 & Hr1 & Hu1).
  destruct (getOrCreateHost_host_rows now2 name db1 Hnd1)
    as [(Hnone & _)|(h & Hsome & Hn & Hlen)].
  - rewrite Hr1 in Hnone. discriminate.
  - rewrite Hr1 in Hsome. injection Hsome as <-.
    exists h1, (set_updated_at now2 h1).
    unfold host_rows at 2. rewrite Hh2. unfold host_rows in Hn.
    rewrite Hlen, Hu1. simpl. repeat split; auto.
    now apply getOrCreateHost_unique.
Qed.

Lemma C9_witness :
  let fs := one_file (js "access.log") sample_line in
  let db1 := snd (loadLogFile tzUTC fs noFaults 1000 (js "access.log")
                    (js "example.com") emptyDatabase) in
  let db2 := snd (loadLogFile tzUTC fs noFaults 1010 (js "access.log")
                    (js "example.com") db1) in
  exists h1 h2,
    host_rows (js "example.com") db1 = [h1] /\
    host_rows (js "example.com") db2 = [h2] /\
    List.length (hosts db2) = List.length (hosts db1) /\
    host_id h2 = host_id h1 /\
    created_at h2 = created_at h1 /\
    updated_at h1 = 1000 /\
    updated_at h2 = 1010 /\
    (1000 < 1010 -> updated_at h1 < updated_at h2) /\
    NoDup (map hostname (hosts db2)).
Proof.
  intros fs db1 db2.
  apply (C9_second_load_updates_host tzUTC fs fs noFaults noFaults 1000 1010
           (js "access.log") (js "access.log") (js "example.com")
           emptyDatabase db1 db2).
  - constructor.
  - vm_compute. reflexivity.
  - vm_compute. reflexivity.
Defined.

(** The claim as stated fails: two loads for one host name that read the
    same millisecond from the clock leave the update instant where the
    first load put it, not strictly later. *)
Lemma C9_counterexample :
  let fs := one_file (js "access.log") sample_line in
  let r1 := loadLogFile tzUTC fs noFaults 1000 (js "access.log")
              (js "example.com") emptyDatabase in
  let r2 := loadLogFile tzUTC fs noFaults 1000 (js "access.log")
              (js "example.com") (snd r1) in
  exists h1 h2,
    fst r1 = Done /\ fst r2 = Done /\
    host_rows (js "example.com") (snd r1) = [h1] /\
    host_rows (js "example.com") (snd r2) = [h2] /\
    ~ (updated_at h1 < updated_at h2).
Proof.
  intros fs r1 r2.
  exists (mkHostRow 1 (js "example.com") 1000 1000).
  exists (mkHostRow 1 (js "example.com") 1000 1000).
  vm_compute. repeat split. discriminate.
Qed.

(* ================================================================== *)
(** * The pieces of SQL: counting, grouping, ordering, limiting *)
(* ================================================================== *)

Lemma count_where_cons p r rows :
  count_where p (r :: rows) = (if p r then 1 else 0) + count_where p rows.
Proof.
  unfold count_where. cbn [filter]. destruct (p r); cbn [List.length]; lia.
Qed.

Lemma count_where_nonneg p rows : 0 <= count_where p rows.
Proof. unfold count_where. lia. Qed.

Lemma count_where_le p q rows :
  (forall r, In r rows -> p r = true -> q r = true) ->
  count_where p rows <= count_where q rows.
Proof.
  induction rows as [|r rows IH]; intros H.
  - unfold count_where. simpl. lia.
  - rewrite !count_where_cons.
    assert (IH' : count_where p rows <= count_where q rows)
      by (apply IH; intros; apply H; simpl; auto).
    destruct (p r) eqn:Hp.
    + rewrite (H r (or_introl eq_refl) Hp). lia.
    + destruct (q r); lia.
Qed.

Lemma count_where_all p rows :
  (forall r, In r rows -> p r = true) ->
  count_where p rows = Z.of_nat (List.length rows).
Proof.
  induction rows as [|r rows IH]; intros H; [reflexivity|].
  rewrite count_where_cons, IH by (intros; apply H; simpl; auto).
  rewrite (H r (or_introl eq_refl)). simpl List.length. lia.
Qed.

Lemma count_where_split p q1 q2 rows :
  (forall r, In r rows -> p r = true -> xorb (q1 r) (q2 r) = true) ->
  count_where p rows
  = count_where (fun r => p r && q1 r) rows + count_where (fun r => p r && q2 r) rows.
Proof.
  induction rows as [|r rows IH]; intros H; [reflexivity|].
  rewrite !count_where_cons, IH by (intros; apply H; simpl; auto).
  specialize (H r (or_introl eq_refl)).
  destruct (p r); cbn [andb]; [|lia].
  specialize (H eq_refl). destruct (q1 r), (q2 r); try discriminate H; lia.
Qed.

Lemma sum_of_map {A B : Type} (f : B -> Z) (g : A -> B) l :
  sum_of f (map g l) = sum_of (fun x => f (g x)) l.
Proof. induction l as [|x l IH]; simpl; [reflexivity | now rewrite IH]. Qed.

Lemma sum_of_ext {A : Type} (f g : A -> Z) l :
  (forall x, In x l -> f x = g x) -> sum_of f l = sum_of g l.
Proof.
  induction l as [|x l IH]; intros H; simpl; [reflexivity|].
  rewrite (H x (or_introl eq_refl)), IH; [reflexivity|].
  intros; apply H; simpl; auto.
Qed.

Lemma sum_of_plus {A : Type} (f g : A -> Z) l :
  sum_of (fun x => f x + g x) l = sum_of f l + sum_of g l.
Proof. induction l as [|x l IH]; simpl; [reflexivity | rewrite IH; lia]. Qed.

Lemma sum_of_zero {A : Type} (l : list A) : sum_of (fun _ => 0) l = 0.
Proof. induction l as [|x l IH]; simpl; [reflexivity | now rewrite IH]. Qed.

Lemma sum_of_nonneg {A : Type} (f : A -> Z) l :
  (forall x, In x l -> 0 <= f x) -> 0 <= sum_of f l.
Proof.
  induction l as [|x l IH]; intros H; simpl; [lia|].
  assert (0 <= f x) by (apply H; simpl; auto).
  assert (0 <= sum_of f l) by (apply IH; intros; apply H; simpl; auto).
  lia.
Qed.

Lemma sum_of_app {A : Type} (f : A -> Z) l1 l2 :
  sum_of f (l1 ++ l2) = sum_of f l1 + sum_of f l2.
Proof. induction l1 as [|x l1 IH]; simpl; [reflexivity | rewrite IH; lia]. Qed.

Lemma sum_of_Permutation {A : Type} (f : A -> Z) l1 l2 :
  Permutation l1 l2 -> sum_of f l1 = sum_of f l2.
Proof. induction 1; simpl; lia. Qed.

Lemma insert_sorted_Permutation {A : Type} (after : A -> A -> bool) x l :
  Permutation (insert_sorted after x l) (x :: l).
Proof.
  induction l as [|y l IH]; simpl; [reflexivity|].
  destruct (after y x); [reflexivity|].
  rewrite IH. apply perm_swap.
Qed.

Lemma order_by_Permutation {A : Type} (after : A -> A -> bool) l :
  Permutation (order_by after l) l.
Proof.
  induction l as [|x l IH]; simpl; [reflexivity|].
  rewrite insert_sorted_Permutation. now constructor.
Qed.

Lemma sql_limit_In {A : Type} n (l : list A) x : In x (sql_limit n l) -> In x l.
Proof.
  unfold sql_limit. destruct (n <? 0); [auto|].
  intros H. rewrite <- (firstn_skipn (Z.to_nat n) l). apply in_or_app. now left.
Qed.

Lemma sql_limit_all {A : Type} n (l : list A) :
  n < 0 \/ Z.of_nat (List.length l) <= n -> sql_limit n l = l.
Proof.
  unfold sql_limit. intros H. destruct (n <? 0) eqn:Hn; [reflexivity|].
  apply firstn_all2. apply Z.ltb_ge in Hn. lia.
Qed.

Lemma sum_of_sql_limit_le {A : Type} (f : A -> Z) n l :
  (forall x, In x l -> 0 <= f x) -> sum_of f (sql_limit n l) <= sum_of f l.
Proof.
  intros H. unfold sql_limit. destruct (n <? 0); [lia|].
  rewrite <- (firstn_skipn (Z.to_nat n) l) at 2. rewrite sum_of_app.
  assert (0 <= sum_of f (skipn (Z.to_nat n) l)); [|lia].
  apply sum_of_nonneg. intros x Hx. apply H.
  rewrite <- (firstn_skipn (Z.to_nat n) l). apply in_or_app. now right.
Qed.

(** A row of a report comes from one group of the grouped table. *)
Lemma report_row_inv {A B : Type} (mk : A -> B) after n (groups : list A) x :
  In x (sql_limit n (order_by after (map mk groups))) ->
  exists g, In g groups /\ x = mk g.
Proof.
  intros H. apply sql_limit_In in H.
  apply (Permutation_in _ (order_by_Permutation after _)) in H.
  apply in_map_iff in H as (g & <- & Hg). now exists g.
Qed.

Lemma report_sum_all {A B : Type} (f : B -> Z) (mk : A -> B) after n groups :
  n < 0 \/ Z.of_nat (List.length groups) <= n ->
  sum_of f (sql_limit n (order_by after (map mk groups)))
  = sum_of (fun g => f (mk g)) groups.
Proof.
  intros Hn. rewrite sql_limit_all.
  - rewrite (sum_of_Permutation f _ _ (order_by_Permutation after _)).
    apply sum_of_map.
  - rewrite (Permutation_length (order_by_Permutation after _)), length_map.
    exact Hn.
Qed.

Lemma report_sum_le {A B : Type} (f : B -> Z) (mk : A -> B) after n groups :
  (forall g, In g groups -> 0 <= f (mk g)) ->
  sum_of f (sql_limit n (order_by after (map mk groups)))
  <= sum_of (fun g => f (mk g)) groups.
Proof.
  intros Hpos. rewrite <- (sum_of_map f mk groups).
  rewrite <- (sum_of_Permutation f _ _ (order_by_Permutation after (map mk groups))).
  apply sum_of_sql_limit_le. intros x Hx.
  apply (Permutation_in _ (order_by_Permutation after _)) in Hx.
  apply in_map_iff in Hx as (g & <- & Hg). now apply Hpos.
Qed.

Section Grouping.

Context {K : Type}.
Variable K_dec : forall a b : K, {a = b} + {a <> b}.
Variable key : LogRow -> K.

Lemma group_by_inv rows g :
  In g (group_by K_dec key rows) ->
  snd g = filter (fun r => if K_dec (key r) (fst g) then true else false) rows.
Proof.
  unfold group_by. intros H. apply in_map_iff in H as (k & <- & _). reflexivity.
Qed.

Lemma group_by_incl rows g r :
  In g (group_by K_dec key rows) -> In r (snd g) -> In r rows.
Proof.
  intros Hg Hr. rewrite (group_by_inv _ _ Hg) in Hr.
  now apply filter_In in Hr.
Qed.

Lemma group_by_length rows :
  List.length (group_by K_dec key rows)
  = List.length (nodup K_dec (map key rows)).
Proof. unfold group_by. apply length_map. Qed.

Lemma sum_of_indicator x c ks :
  NoDup ks -> In x ks ->
  sum_of (fun k => if K_dec x k then c else 0) ks = c.
Proof.
  induction 1 as [|k ks Hnotin Hnd IH]; intros Hin; [contradiction|].
  simpl. destruct (K_dec x k) as [->|Hne].
  - rewrite (sum_of_ext _ (fun _ => 0)), sum_of_zero; [lia|].
    intros k' Hk'. destruct (K_dec k k') as [->|]; [contradiction | reflexivity].
  - destruct Hin as [->|Hin]; [contradiction|]. rewrite IH by assumption. lia.
Qed.

(** The groups partition the table: counting in every group and adding
    up is counting in the table. *)
Lemma count_by_groups p ks : NoDup ks -> forall rows,
  (forall r, In r rows -> In (key r) ks) ->
  sum_of (fun k => count_where p
                     (filter (fun r => if K_dec (key r) k then true else false) rows))
         ks
  = count_where p rows.
Proof.
  intros Hnd. induction rows as [|r rows IH]; intros Hk.
  - simpl. apply sum_of_zero.
  - rewrite count_where_cons.
    rewrite <- IH by (intros; apply Hk; simpl; auto).
    rewrite <- (sum_of_indicator (key r) (if p r then 1 else 0) ks Hnd)
      by (apply Hk; simpl; auto).
    rewrite <- sum_of_plus. apply sum_of_ext. intros k _. simpl.
    destruct (K_dec (key r) k); [apply count_where_cons | lia].
Qed.

Lemma group_by_count p rows :
  sum_of (fun g => count_where p (snd g)) (group_by K_dec key rows)
  = count_where p rows.
Proof.
  unfold group_by. rewrite sum_of_map. simpl.
  apply count_by_groups.
  - apply NoDup_nodup.
  - intros r Hr. apply nodup_In. now apply in_map.
Qed.

End Grouping.

(* ================================================================== *)
(** * The report queries *)
(* ================================================================== *)

Lemma since_mono a b r : b <= a -> since a r = true -> since b r = true.
Proof. unfold since. intros Hab H. apply Z.leb_le in H. apply Z.leb_le. lia. Qed.

Lemma count_since_mono a b rows :
  b <= a -> count_where (since a) rows <= count_where (since b) rows.
Proof.
  intros Hab. apply count_where_le. intros r _. now apply since_mono.
Qed.

Lemma count_since_and_mono a b (q : LogRow -> bool) rows :
  b <= a ->
  count_where (fun r => since a r && q r) rows
  <= count_where (fun r => since b r && q r) rows.
Proof.
  intros Hab. apply count_where_le. intros r _ H.
  apply andb_true_iff in H as [Hs Hq]. apply andb_true_iff. split; [|exact Hq].
  now apply (since_mono a b).
Qed.

Lemma count_distinct_ip_le p q rows :
  (forall r, p r = true -> q r = true) ->
  count_distinct_ip p rows <= count_distinct_ip q rows.
Proof.
  intros Hpq. unfold count_distinct_ip. apply Nat2Z.inj_le.
  apply NoDup_incl_length; [apply NoDup_nodup|].
  intros x Hx. apply nodup_In in Hx. apply nodup_In.
  apply in_map_iff in Hx as (r & <- & Hr). apply in_map.
  apply filter_In in Hr as [Hin Hp]. apply filter_In. auto.
Qed.

Lemma subDays_fixed_nested : windows_nested subDays_fixed.
Proof. intros now. unfold subDays_fixed, msPerDay. lia. Qed.

(** C7. In every windowed report (user agents, pages, referrers, errors,
    top IPs) and for every row, the 1-day count is at most the 7-day
    count, which is at most the 30-day count, because the window
    thresholds are nested; for pages this holds for the request counts,
    the distinct-IP counts, the bot counts and the non-bot counts. *)
Theorem C7_window_counts_nested subDays now limit db :
  windows_nested subDays ->
  (forall r, In r (getUserAgentStats subDays now limit db) ->
     UserAgentStats.requests1d r <= UserAgentStats.requests7d r
     <= UserAgentStats.requests30d r) /\
  (forall r, In r (getPageStats subDays now limit db) ->
     PageStats.requests1d r <= PageStats.requests7d r <= PageStats.requests30d r /\
     PageStats.uniqueIPs1d r <= PageStats.uniqueIPs7d r <= PageStats.uniqueIPs30d r /\
     PageStats.botRequests1d r <= PageStats.botRequests7d r
       <= PageStats.botRequests30d r /\
     PageStats.nonBotRequests1d r <= PageStats.nonBotRequests7d r
       <= PageStats.nonBotRequests30d r) /\
  (forall r, In r (getReferrerStats subDays now limit db) ->
     ReferrerStats.requests1d r <= ReferrerStats.requests7d r
     <= ReferrerStats.requests30d r) /\
  (forall r, In r (getErrorStats subDays now limit db) ->
     ErrorStats.requests1d r <= ErrorStats.requests7d r
     <= ErrorStats.requests30d r) /\
  (forall r, In r (getTopIPs subDays now limit db) ->
     TopIPStats.requests1d r <= TopIPStats.requests7d r
     <= TopIPStats.requests30d r).
Proof.
  intros Hn. destruct (Hn now) as [H30 H7].
  split; [|split; [|split; [|split]]]; intros r Hr.
  all: match type of Hr with
       | In _ (?q _ _ _ _) => unfold q in Hr
       end; cbv zeta in Hr; apply report_row_inv in Hr;
       destruct Hr as (g & Hr & ->).
  all: repeat match goal with g : (_ * _)%type |- _ => destruct g end; simpl.
  all: repeat split.
  all: try (now apply count_since_mono).
  all: try (now apply count_since_and_mono).
  all: apply count_distinct_ip_le; intros r; now apply since_mono.
Qed.

Lemma load_entries_reachable entries : reachable (load_entries entries).
Proof. unfold load_entries. constructor. constructor. Qed.

Lemma C7_witness :
  let now := instant 2025 9 8 0 0 0 0 in
  windows_nested subDays_fixed /\
  (forall r, In r (getUserAgentStats subDays_fixed now 50 sample_db) ->
     UserAgentStats.requests1d r <= UserAgentStats.requests7d r
     <= UserAgentStats.requests30d r) /\
  (forall r, In r (getPageStats subDays_fixed now 50 sample_db) ->
     PageStats.requests1d r <= PageStats.requests7d r <= PageStats.requests30d r /\
     PageStats.uniqueIPs1d r <= PageStats.uniqueIPs7d r <= PageStats.uniqueIPs30d r /\
     PageStats.botRequests1d r <= PageStats.botRequests7d r
       <= PageStats.botRequests30d r /\
     PageStats.nonBotRequests1d r <= PageStats.nonBotRequests7d r
       <= PageStats.nonBotRequests30d r) /\
  (forall r, In r (getReferrerStats subDays_fixed now 50 sample_db) ->
     ReferrerStats.requests1d r <= ReferrerStats.requests7d r
     <= ReferrerStats.requests30d r) /\
  (forall r, In r (getErrorStats subDays_fixed now 50 sample_db) ->
     ErrorStats.requests1d r <= ErrorStats.requests7d r
     <= ErrorStats.requests30d r) /\
  (forall r, In r (getTopIPs subDays_fixed now 50 sample_db) ->
     TopIPStats.requests1d r <= TopIPStats.requests7d r
     <= TopIPStats.requests30d r).
Proof.
  intros now. split; [exact subDays_fixed_nested|].
  exact (C7_window_counts_nested subDays_fixed now 50 sample_db
           subDays_fixed_nested).
Defined.

Lemma flags_split th rows :
  Forall bot_flag_ok rows ->
  count_where (since th) rows
  = count_where (fun r => since th r && (col_is_bot r =? 1)) rows
    + count_where (fun r => since th r && (col_is_bot r =? 0)) rows.
Proof.
  intros Hok. apply count_where_split. intros r Hr _.
  rewrite Forall_forall in Hok. destruct (Hok r Hr) as [H|H]; now rewrite H.
Qed.

(** C6. In every store that the program can produce, each row of the
    page report has, in each of the three windows, a request count equal
    to its bot count plus its non-bot count. *)
Theorem C6_page_requests_are_bot_plus_non_bot subDays now limit db :
  reachable db ->
  forall r, In r (getPageStats subDays now limit db) ->
    PageStats.requests1d r = PageStats.botRequests1d r + PageStats.nonBotRequests1d r /\
    PageStats.requests7d r = PageStats.botRequests7d r + PageStats.nonBotRequests7d r /\
    PageStats.requests30d r
    = PageStats.botRequests30d r + PageStats.nonBotRequests30d r.
Proof.
  intros Hreach r Hr. apply reachable_ok in Hreach as [_ Hflags].
  unfold getPageStats in Hr. cbv zeta in Hr.
  apply report_row_inv in Hr. destruct Hr as ([u rows] & Hr & ->).
  assert (Hrows : Forall bot_flag_ok rows).
  { rewrite Forall_forall in *. intros x Hx. apply Hflags.
    apply (group_by_incl jsstring_eq_dec col_url _ _ x Hr Hx). }
  simpl. repeat split; now apply flags_split.
Qed.

Lemma C6_witness :
  reachable sample_db /\
  forall r, In r (getPageStats subDays_fixed (instant 2025 9 8 0 0 0 0) 50 sample_db) ->
    PageStats.requests1d r = PageStats.botRequests1d r + PageStats.nonBotRequests1d r /\
    PageStats.requests7d r = PageStats.botRequests7d r + PageStats.nonBotRequests7d r /\
    PageStats.requests30d r
    = PageStats.botRequests30d r + PageStats.nonBotRequests30d r.
Proof.
  split; [apply load_entries_reachable|].
  apply (C6_page_requests_are_bot_plus_non_bot subDays_fixed
           (instant 2025 9 8 0 0 0 0) 50 sample_db).
  apply load_entries_reachable.
Defined.

Lemma totalRequests_count db :
  Summary.totalRequests (calculateSummary db)
  = count_where (fun _ => true) (log_entries db).
Proof. symmetry. now apply count_where_all. Qed.

(** C4 (as the code has it). When every persisted entry lies in the
    30-day window of the query and the limit cuts off no group of the
    user-agent report, the 30-day counts of its rows sum to
    [summary.totalRequests]; when the entries fall on at most thirty
    calendar days, the per-day request counts of the bandwidth report sum
    to [summary.totalRequests]. *)
Theorem C4_report_sums_reconcile subDays now limit db :
  ((forall r, In r (log_entries db) -> subDays now 30 <= col_timestamp r) ->
   (limit < 0 \/ Z.of_nat (List.length (userAgentGroups db)) <= limit) ->
   sum_of UserAgentStats.requests30d (getUserAgentStats subDays now limit db)
   = Summary.totalRequests (calculateSummary db))
  /\
  ((List.length (activeDays db) <= 30)%nat ->
   sum_of BandwidthStats.totalRequests (getBandwidthStats db)
   = Summary.totalRequests (calculateSummary db)).
Proof.
  split.
  - intros Hwin Hlim. unfold getUserAgentStats. cbv zeta.
    rewrite report_sum_all by (rewrite group_by_length; exact Hlim).
    rewrite (sum_of_ext _ (fun g => count_where (since (subDays now 30)) (snd g)))
      by (intros [[ua b] rows] _; reflexivity).
    rewrite group_by_count, totalRequests_count.
    rewrite !count_where_all; [reflexivity | reflexivity |].
    intros r Hr. apply Z.leb_le. now apply Hwin.
  - intros Hdays. unfold getBandwidthStats.
    rewrite report_sum_all
      by (right; rewrite group_by_length; fold (activeDays db); lia).
    rewrite (sum_of_ext _ (fun g => count_where (fun _ => true) (snd g)))
      by (intros [d rows] _; reflexivity).
    now rewrite group_by_count, totalRequests_count.
Qed.

Lemma C4_witness :
  let now := instant 2025 9 8 0 0 0 0 in
  sum_of UserAgentStats.requests30d (getUserAgentStats subDays_fixed now 50 sample_db)
  = Summary.totalRequests (calculateSummary sample_db)
  /\
  sum_of BandwidthStats.totalRequests (getBandwidthStats sample_db)
  = Summary.totalRequests (calculateSummary sample_db).
Proof.
  intros now.
  destruct (C4_report_sums_reconcile subDays_fixed now 50 sample_db) as [Hua Hbw].
  split.
  - apply Hua.
    + intros r Hr. vm_compute in Hr.
      repeat (destruct Hr as [<-|Hr]; [vm_compute; discriminate|]). contradiction.
    + right. vm_compute. discriminate.
  - apply Hbw. vm_compute. lia.
Defined.

(** The claim as stated fails in each of its parts, here with the default
    limit of 50 rows: a request older than thirty days is in the total
    and in no 30-day count; the 51st user agent is cut off by the limit;
    the 31st day is not in the bandwidth report. *)
Lemma C4_counterexample :
  let now := instant 2025 9 8 0 0 0 0 in
  sum_of UserAgentStats.requests30d (getUserAgentStats subDays_fixed now 50 old_db)
    <> Summary.totalRequests (calculateSummary old_db) /\
  sum_of UserAgentStats.requests30d (getUserAgentStats subDays_fixed now 50 agents_db)
    <> Summary.totalRequests (calculateSummary agents_db) /\
  sum_of BandwidthStats.totalRequests (getBandwidthStats month_db)
    <> Summary.totalRequests (calculateSummary month_db).
Proof.
  vm_compute. repeat split; discriminate.
Qed.

(** C5 (as the code has it). The counts of [summary.topStatusCodes] never
    sum to more than [summary.totalRequests], and they sum to exactly
    that when the store holds at most ten distinct status codes. *)
Theorem C5_status_code_counts db :
  sum_of StatusCodeCount.count (Summary.topStatusCodes (calculateSummary db))
    <= Summary.totalRequests (calculateSummary db)
  /\
  ((List.length (statusCodes db) <= 10)%nat ->
   sum_of StatusCodeCount.count (Summary.topStatusCodes (calculateSummary db))
   = Summary.totalRequests (calculateSummary db)).
Proof.
  rewrite totalRequests_count.
  rewrite <- (group_by_count Z.eq_dec col_status_code (fun _ => true) (log_entries db)).
  unfold calculateSummary. cbv zeta. cbn [Summary.topStatusCodes]. split.
  - apply (report_sum_le StatusCodeCount.count
             (fun g : Z * list LogRow =>
                StatusCodeCount.mk (fst g) (count_where (fun _ => true) (snd g)))).
    intros g _. apply count_where_nonneg.
  - intros Hcodes.
    apply (report_sum_all StatusCodeCount.count
             (fun g : Z * list LogRow =>
                StatusCodeCount.mk (fst g) (count_where (fun _ => true) (snd g)))).
    right. rewrite group_by_length. fold (statusCodes db). lia.
Qed.

Lemma C5_witness :
  sum_of StatusCodeCount.count (Summary.topStatusCodes (calculateSummary sample_db))
  = Summary.totalRequests (calculateSummary sample_db).
Proof.
  apply (proj2 (C5_status_code_counts sample_db)).
  vm_compute. lia.
Defined.

(** The claim as stated fails: with eleven status codes in the store the
    ten counts that are reported sum to ten, and the total is eleven. *)
Lemma C5_counterexample :
  sum_of StatusCodeCount.count (Summary.topStatusCodes (calculateSummary codes_db)) = 10
  /\ Summary.totalRequests (calculateSummary codes_db) = 11.
Proof.
  vm_compute. split; reflexivity.
Qed.

(* ================================================================== *)
(** * Patterns: what a successful match has read *)
(* ================================================================== *)

Lemma rmatch_Star a st k :
  rmatch (Star a) st k = star_loop (rmatch a) k (S (List.length (m_rest st))) st.
Proof. reflexivity. Qed.

Lemma rmatch_sound r : forall st k m,
  rmatch r st k = Some m -> exists st', run r st st' /\ k st' = Some m.
Proof.
  induction r as [|p| | |a IHa b IHb|a IHa b IHb|a IHa|a IHa|i a IHa];
    intros st k m H; [cbn [rmatch] in H ..| rewrite rmatch_Star in H | cbn [rmatch] in H | cbn [rmatch] in H].
  - exists st. split; [constructor | exact H].
  - destruct (m_rest st) as [|c tl] eqn:E; [discriminate|].
    destruct (p c) eqn:Hp; [|discriminate].
    exists (advance st tl). split; [now apply run_Chr with (c := c) | exact H].
  - destruct (Nat.eqb (m_pos st) 0) eqn:E; [|discriminate].
    apply Nat.eqb_eq in E. exists st. split; [now constructor | exact H].
  - destruct (m_rest st) eqn:E; [|discriminate].
    exists st. split; [now constructor | exact H].
  - apply IHa in H as (st1 & H1 & H). apply IHb in H as (st2 & H2 & H).
    exists st2. split; [now apply run_Seq with (st' := st1) | exact H].
  - destruct (rmatch a st k) eqn:E.
    + injection H as <-. apply IHa in E as (st1 & H1 & E).
      exists st1. split; [now apply run_Alt_l | exact E].
    + apply IHb in H as (st1 & H1 & H).
      exists st1. split; [now apply run_Alt_r | exact H].
  - revert H. generalize (S (List.length (m_rest st))). intros fuel. revert st.
    induction fuel as [|fuel IHf]; intros cur H; cbn [star_loop] in H.
    + exists cur. split; [constructor | exact H].
    + match type of H with
      | match ?x with _ => _ end = _ => destruct x eqn:E
      end.
      * injection H as <-. apply IHa in E as (st1 & H1 & E).
        destruct (progressed cur st1) eqn:Hp; [|discriminate].
        apply IHf in E as (st2 & H2 & E).
        exists st2. split; [now apply run_Star_step with (st' := st1) | exact E].
      * exists cur. split; [constructor | exact H].
  - destruct (rmatch a st _) eqn:E.
    + injection H as <-. apply IHa in E as (st1 & H1 & E).
      destruct (progressed st st1) eqn:Hp; [|discriminate].
      exists st1. split; [now apply run_Opt_take | exact E].
    + exists st. split; [constructor | exact H].
  - apply IHa in H as (st1 & H1 & H).
    exists (set_cap i st st1). split; [now constructor | exact H].
Qed.

(** An anchored pattern matches at the start of the input or not at all. *)
Lemma rsearch_Bol_later r s : forall pos, rsearch (Seq Bol r) (S pos) s = None.
Proof.
  induction s as [|c s IH]; intros pos; cbn [rsearch rmatch m_pos Nat.eqb]; auto.
Qed.

Lemma regex_exec_Bol r s m :
  regex_exec (Seq Bol r) s = Some m ->
  exists st', run r (MState 0 s []) st' /\ st' = m.
Proof.
  unfold regex_exec. intros H.
  assert (Hm : rmatch (Seq Bol r) (MState 0 s []) Some = Some m).
  { destruct s as [|c s]; cbn [rsearch] in H;
      destruct (rmatch (Seq Bol r) _ Some) eqn:E; try exact H; try discriminate.
    now rewrite rsearch_Bol_later in H. }
  cbn [rmatch m_pos Nat.eqb] in Hm.
  apply rmatch_sound in Hm as (st' & Hrun & Hk). injection Hk as <-.
  now exists st'.
Qed.

(* ================================================================== *)
(** * Patterns: greedy runs of a character class *)
(* ================================================================== *)

Lemma progressed_advance pos r caps x :
  progressed (MState pos (x :: r) caps) (advance (MState pos (x :: r) caps) r) = true.
Proof.
  unfold progressed, advance. cbn [m_pos].
  destruct (Nat.eqb (S pos) pos) eqn:E; [|reflexivity].
  apply Nat.eqb_eq in E. lia.
Qed.

Lemma rmatch_Star_chr_cons p pos x r caps k :
  rmatch (Star (Chr p)) (MState pos (x :: r) caps) k
  = if p x
    then match rmatch (Star (Chr p)) (MState (S pos) r caps) k with
         | Some m => Some m
         | None => k (MState pos (x :: r) caps)
         end
    else k (MState pos (x :: r) caps).
Proof.
  rewrite !rmatch_Star. cbn [m_rest List.length].
  cbn [star_loop]. cbn [rmatch m_rest].
  destruct (p x); [|reflexivity].
  rewrite progressed_advance. reflexivity.
Qed.

Lemma rmatch_Star_chr_nil p pos caps k :
  rmatch (Star (Chr p)) (MState pos [] caps) k = k (MState pos [] caps).
Proof. reflexivity. Qed.

Lemma rmatch_Star_chr p k caps s : forall pos rest,
  Forall (fun c => p c = true) s -> stops p rest ->
  rmatch (Star (Chr p)) (MState pos (s ++ rest) caps) k = star_try k pos caps s rest.
Proof.
  induction s as [|x s IH]; intros pos rest Hs Hrest.
  - cbn [app star_try]. destruct rest as [|c r]; [reflexivity|].
    rewrite rmatch_Star_chr_cons. cbn [stops] in Hrest. now rewrite Hrest.
  - inversion Hs as [|? ? Hx Hs']; subst.
    cbn [app star_try]. rewrite rmatch_Star_chr_cons, Hx.
    now rewrite IH.
Qed.

(** The star settles on the run [u] when the rest of the pattern matches
    after [u] and after no longer run. *)
Lemma star_try_split k caps u v rest m : forall pos,
  k (MState (pos + List.length u) (v ++ rest) caps) = Some m ->
  (forall v1 v2, v = v1 ++ v2 -> v1 <> [] ->
     k (MState (pos + List.length u + List.length v1) (v2 ++ rest) caps) = None) ->
  star_try k pos caps (u ++ v) rest = Some m.
Proof.
  induction u as [|x u IH]; intros pos Hk Hlater.
  - cbn [app List.length] in *. rewrite Nat.add_0_r in *.
    assert (Hv : forall v pos,
               (forall v1 v2, v = v1 ++ v2 -> v1 <> [] ->
                  k (MState (pos + List.length v1) (v2 ++ rest) caps) = None) ->
               star_try k pos caps v rest = k (MState pos (v ++ rest) caps)).
    { clear. induction v as [|y v IHv]; intros pos H; [reflexivity|].
      cbn [star_try app]. rewrite IHv.
      - specialize (H [y] v eq_refl ltac:(discriminate)).
        cbn [List.length] in H. rewrite Nat.add_1_r in H. now rewrite H.
      - intros v1 v2 -> Hne.
        specialize (H (y :: v1) v2 eq_refl ltac:(discriminate)).
        cbn [List.length] in H. now rewrite Nat.add_succ_r in H. }
    rewrite Hv; [exact Hk|]. intros v1 v2 Hv12 Hne.
    specialize (Hlater v1 v2 Hv12 Hne). rewrite ?Nat.add_0_r in Hlater. exact Hlater.
  - cbn [app star_try]. rewrite IH; [reflexivity | |].
    + cbn [List.length] in Hk. now rewrite Nat.add_succ_r in Hk.
    + intros v1 v2 Hv12 Hne. specialize (Hlater v1 v2 Hv12 Hne).
      cbn [List.length] in Hlater. now rewrite Nat.add_succ_r in Hlater.
Qed.

(** Greedy case: the rest of the pattern matches after the whole run. *)
Lemma rmatch_Star_chr_greedy p k caps s pos rest m :
  Forall (fun c => p c = true) s -> stops p rest ->
  k (MState (pos + List.length s) rest caps) = Some m ->
  rmatch (Star (Chr p)) (MState pos (s ++ rest) caps) k = Some m.
Proof.
  intros Hs Hrest Hk. rewrite rmatch_Star_chr by assumption.
  rewrite <- (app_nil_r s). apply star_try_split.
  - exact Hk.
  - intros v1 v2 Hv Hne. destruct v1; [contradiction | discriminate].
Qed.

Lemma rmatch_Plus_chr_greedy p k caps x s pos rest m :
  Forall (fun c => p c = true) (x :: s) -> stops p rest ->
  k (MState (pos + List.length (x :: s)) rest caps) = Some m ->
  rmatch (Plus (Chr p)) (MState pos ((x :: s) ++ rest) caps) k = Some m.
Proof.
  intros Hs Hrest Hk. inversion Hs as [|? ? Hx Hs']; subst.
  unfold Plus. cbn [rmatch m_rest app]. rewrite Hx. unfold advance. cbn [m_pos m_caps].
  apply rmatch_Star_chr_greedy; try assumption.
  cbn [List.length] in Hk. now rewrite Nat.add_succ_r in Hk.
Qed.

(* ================================================================== *)
(** * Patterns: stepping through groups *)
(* ================================================================== *)

Lemma set_cap_app i pos s rest caps caps' :
  set_cap i (MState pos (s ++ rest) caps) (MState (pos + List.length s) rest caps')
  = MState (pos + List.length s) rest ((i, s) :: caps').
Proof.
  unfold set_cap. cbn [m_pos m_rest m_caps].
  replace (pos + List.length s - pos)%nat with (List.length s) by lia.
  now rewrite firstn_app, firstn_all, Nat.sub_diag, app_nil_r.
Qed.

Lemma rmatch_Chr_cons p pos x r caps k :
  rmatch (Chr p) (MState pos (x :: r) caps) k
  = if p x then k (MState (S pos) r caps) else None.
Proof. reflexivity. Qed.

Lemma rmatch_Group i a st k :
  rmatch (Group i a) st k = rmatch a st (fun st' => k (set_cap i st st')).
Proof. reflexivity. Qed.

Lemma step_group_star i p s rest pos caps k m :
  Forall (fun c => p c = true) s -> stops p rest ->
  k (MState (pos + List.length s) rest ((i, s) :: caps)) = Some m ->
  rmatch (Group i (Star (Chr p))) (MState pos (s ++ rest) caps) k = Some m.
Proof.
  intros Hs Hr Hk. rewrite rmatch_Group.
  apply rmatch_Star_chr_greedy; try assumption.
  now rewrite set_cap_app.
Qed.

Lemma step_plus p s rest pos caps k m :
  s <> [] -> Forall (fun c => p c = true) s -> stops p rest ->
  k (MState (pos + List.length s) rest caps) = Some m ->
  rmatch (Plus (Chr p)) (MState pos (s ++ rest) caps) k = Some m.
Proof.
  intros Hne Hs Hr Hk. destruct s as [|x s]; [contradiction|].
  now apply rmatch_Plus_chr_greedy.
Qed.

Lemma step_group_plus i p s rest pos caps k m :
  s <> [] -> Forall (fun c => p c = true) s -> stops p rest ->
  k (MState (pos + List.length s) rest ((i, s) :: caps)) = Some m ->
  rmatch (Group i (Plus (Chr p))) (MState pos (s ++ rest) caps) k = Some m.
Proof.
  intros Hne Hs Hr Hk. rewrite rmatch_Group.
  apply step_plus; try assumption.
  now rewrite set_cap_app.
Qed.

(** The path of the request: the star over non-quotes first runs to the
    closing quote and gives back the protocol and the space before it. *)
Lemma step_group_url i url proto rest pos caps k m :
  Forall (fun c => negb (N.eqb c 34) = true) url ->
  Forall (fun c => negb (N.eqb c 34) = true) proto ->
  Forall (fun c => negb (isWhiteSpace c) = true) proto ->
  (forall st, m_rest st = [] \/ (exists c r, m_rest st = c :: r /\ c <> 32%N) -> k st = None) ->
  k (MState (pos + List.length url) (32%N :: proto ++ 34%N :: rest) ((i, url) :: caps)) = Some m ->
  rmatch (Group i (Star (not_chr 34)))
         (MState pos (url ++ 32%N :: proto ++ 34%N :: rest) caps) k = Some m.
Proof.
  intros Hurl Hq Hw Hfail Hk. rewrite rmatch_Group. unfold not_chr.
  replace (url ++ 32%N :: proto ++ 34%N :: rest)
    with ((url ++ 32%N :: proto) ++ 34%N :: rest)
    by (now rewrite <- app_assoc).
  rewrite rmatch_Star_chr.
  - apply star_try_split.
    + cbn [app]. rewrite <- app_assoc. cbn [app].
      replace (url ++ 32%N :: proto ++ 34%N :: rest)
        with (url ++ (32%N :: proto ++ 34%N :: rest)) by reflexivity.
      rewrite set_cap_app. exact Hk.
    + intros v1 v2 Hv Hne. apply Hfail. cbn [set_cap m_rest].
      destruct v1 as [|c v1]; [contradiction|]. injection Hv as <- ->.
      destruct v2 as [|c2 v2].
      * right. exists 34%N, rest. split; [reflexivity | discriminate].
      * right. exists c2, (v2 ++ 34%N :: rest). split; [reflexivity|].
        rewrite Forall_forall in Hw.
        assert (Hc : negb (isWhiteSpace c2) = true)
          by (apply Hw, in_or_app; right; now left).
        intros ->. discriminate.
  - apply Forall_app. split; [exact Hurl|]. constructor; [reflexivity | exact Hq].
  - cbn [stops]. reflexivity.
Qed.

(** The protocol: the plus over non-spaces runs over the closing quote
    and gives it back. *)
Lemma step_group_proto i proto rest pos caps k m :
  proto <> [] ->
  Forall (fun c => negb (isWhiteSpace c) = true) proto ->
  (forall st, (exists r, m_rest st = 32%N :: r) -> k st = None) ->
  k (MState (pos + List.length proto) (34%N :: 32%N :: rest) ((i, proto) :: caps)) = Some m ->
  rmatch (Group i (Plus nonspace))
         (MState pos (proto ++ 34%N :: 32%N :: rest) caps) k = Some m.
Proof.
  intros Hne Hw Hfail Hk. destruct proto as [|x proto]; [contradiction|].
  inversion Hw as [|? ? Hx Hw']; subst.
  rewrite rmatch_Group. unfold Plus, nonspace. rewrite rmatch_Seq.
  cbn [app]. rewrite rmatch_Chr_cons, Hx.
  replace (proto ++ 34%N :: 32%N :: rest) with ((proto ++ [34%N]) ++ 32%N :: rest)
    by (now rewrite <- app_assoc).
  rewrite rmatch_Star_chr.
  - apply star_try_split.
    + cbn [app].
      replace (S pos + List.length proto)%nat
        with (pos + List.length (x :: proto))%nat by (cbn [List.length]; lia).
      rewrite <- app_assoc. cbn [app].
      replace (x :: proto ++ 34%N :: 32%N :: rest)
        with ((x :: proto) ++ 34%N :: 32%N :: rest) by reflexivity.
      rewrite set_cap_app. exact Hk.
    + intros v1 v2 Hv Hne'. apply Hfail. cbn [set_cap m_rest].
      destruct v1 as [|c v1]; [contradiction|]. injection Hv as <- Hv.
      destruct v1; [|discriminate]. cbn [app] in Hv. subst v2.
      now exists rest.
  - apply Forall_app. split; [exact Hw' | repeat constructor].
  - cbn [stops]. reflexivity.
Qed.

(* ================================================================== *)
(** * The line pattern on a line written from its fields *)
(* ================================================================== *)

Lemma rmatch_Chr_nil p pos caps k : rmatch (Chr p) (MState pos [] caps) k = None.
Proof. reflexivity. Qed.

Lemma rmatch_chr_other c x r pos caps k :
  x <> c -> rmatch (chr c) (MState pos (x :: r) caps) k = None.
Proof.
  intros H. unfold chr. rewrite rmatch_Chr_cons.
  destruct (N.eqb c x) eqn:E; [|reflexivity].
  apply N.eqb_eq in E. congruence.
Qed.

Lemma rmatch_Alt a b st k :
  rmatch (Alt a b) st k
  = match rmatch a st k with Some m => Some m | None => rmatch b st k end.
Proof. reflexivity. Qed.

Lemma rmatch_Opt a st k :
  rmatch (Opt a) st k
  = match rmatch a st (fun nxt => if progressed st nxt then k nxt else None) with
    | Some m => Some m
    | None => k st
    end.
Proof. reflexivity. Qed.

Lemma yields_step x y P :
  (forall m, y = Some m -> x = Some m) -> yields y P -> yields x P.
Proof. intros H (m & Hy & HP). exists m. split; [now apply H | exact HP]. Qed.

Lemma yields_Some m (P : mstate -> Prop) : P m -> yields (Some m) P.
Proof. intros H. now exists m. Qed.

Section Steps.

Variable r : regex.
Variable k : mstate -> option mstate.
Variable P : mstate -> Prop.

Lemma yields_Bol s caps :
  yields (rmatch r (MState 0 s caps) k) P ->
  yields (rmatch (Seq Bol r) (MState 0 s caps) k) P.
Proof. exact (fun H => H). Qed.

Lemma yields_chr c pos rest caps :
  yields (rmatch r (MState (S pos) rest caps) k) P ->
  yields (rmatch (Seq (chr c) r) (MState pos (c :: rest) caps) k) P.
Proof. rewrite rmatch_Seq, rmatch_chr. exact (fun H => H). Qed.

Lemma yields_plus p s pos rest caps :
  s <> [] -> Forall (fun c => p c = true) s -> stops p rest ->
  yields (rmatch r (MState (pos + List.length s) rest caps) k) P ->
  yields (rmatch (Seq (Plus (Chr p)) r) (MState pos (s ++ rest) caps) k) P.
Proof.
  intros Hne Hs Hr. apply yields_step. intros m Hm.
  rewrite rmatch_Seq. now apply step_plus.
Qed.

Lemma yields_group_plus i p s pos rest caps :
  s <> [] -> Forall (fun c => p c = true) s -> stops p rest ->
  yields (rmatch r (MState (pos + List.length s) rest ((i, s) :: caps)) k) P ->
  yields (rmatch (Seq (Group i (Plus (Chr p))) r) (MState pos (s ++ rest) caps) k) P.
Proof.
  intros Hne Hs Hr. apply yields_step. intros m Hm.
  rewrite rmatch_Seq. now apply step_group_plus.
Qed.

Lemma yields_group_star i p s pos rest caps :
  Forall (fun c => p c = true) s -> stops p rest ->
  yields (rmatch r (MState (pos + List.length s) rest ((i, s) :: caps)) k) P ->
  yields (rmatch (Seq (Group i (Star (Chr p))) r) (MState pos (s ++ rest) caps) k) P.
Proof.
  intros Hs Hr. apply yields_step. intros m Hm.
  rewrite rmatch_Seq. now apply step_group_star.
Qed.

Lemma yields_group_url i url proto pos rest caps :
  no_quote url -> no_quote proto -> no_space proto ->
  yields (rmatch (Seq (chr 32) r)
            (MState (pos + List.length url) (32%N :: proto ++ 34%N :: rest)
               ((i, url) :: caps)) k) P ->
  yields (rmatch (Seq (Group i (Star (not_chr 34))) (Seq (chr 32) r))
            (MState pos (url ++ 32%N :: proto ++ 34%N :: rest) caps) k) P.
Proof.
  intros Hurl Hq Hw. apply yields_step. intros m Hm.
  rewrite rmatch_Seq. apply step_group_url; try assumption.
  intros [p0 r0 c0] [H|(x & r' & H & Hx)]; cbn [m_rest] in H; subst r0;
    rewrite rmatch_Seq.
  - apply rmatch_Chr_nil.
  - now apply rmatch_chr_other.
Qed.

Lemma yields_group_proto i proto pos rest caps :
  proto <> [] -> no_space proto ->
  yields (rmatch (Seq (chr 34) r)
            (MState (pos + List.length proto) (34%N :: 32%N :: rest)
               ((i, proto) :: caps)) k) P ->
  yields (rmatch (Seq (Group i (Plus nonspace)) (Seq (chr 34) r))
            (MState pos (proto ++ 34%N :: 32%N :: rest) caps) k) P.
Proof.
  intros Hne Hw. apply yields_step. intros m Hm.
  rewrite rmatch_Seq. apply step_group_proto; try assumption.
  intros [p0 r0 c0] (r' & H); cbn [m_rest] in H; subst r0.
  rewrite rmatch_Seq. apply rmatch_chr_other. discriminate.
Qed.

(** The size: a run of digits, or the dash. *)
Lemma yields_group_size i size pos rest caps :
  size = js "-" \/ (size <> [] /\ all_digits size) ->
  yields (rmatch (Seq (chr 32) r)
            (MState (pos + List.length size) (32%N :: rest) ((i, size) :: caps)) k) P ->
  yields (rmatch (Seq (Group i (Alt (Plus digit) (lit "-"))) (Seq (chr 32) r))
            (MState pos (size ++ 32%N :: rest) caps) k) P.
Proof.
  intros [-> | [Hne Hd]]; apply yields_step; intros m Hm;
    rewrite rmatch_Seq, rmatch_Group, rmatch_Alt.
  - unfold Plus, digit at 1. rewrite rmatch_Seq. cbn [js map list_ascii_of_string app].
    change (N_of_ascii "-") with 45%N.
    rewrite rmatch_Chr_cons. change (is_digit 45) with false. cbv iota.
    change (lit "-") with (chr 45). rewrite rmatch_chr.
    change (set_cap i (MState pos (45%N :: 32%N :: rest) caps)
              (MState (S pos) (32%N :: rest) caps))
      with (set_cap i (MState pos ([45%N] ++ 32%N :: rest) caps)
              (MState (S pos) (32%N :: rest) caps)).
    replace (S pos) with (pos + List.length [45%N])%nat by (cbn; lia).
    rewrite set_cap_app. exact Hm.
  - assert (H : rmatch (Plus digit) (MState pos (size ++ 32%N :: rest) caps)
                  (fun st' => rmatch (Seq (chr 32) r)
                                (set_cap i (MState pos (size ++ 32%N :: rest) caps) st') k)
                = Some m).
    { apply step_plus; try assumption; [reflexivity|].
      now rewrite set_cap_app. }
    now rewrite H.
Qed.

End Steps.

(** The end of the line pattern: the closing quote of the user agent and
    the optional quoted forwarded-for. *)
Lemma yields_forwarded fwd pos caps :
  (forall f, fwd = Some f -> no_quote f) ->
  yields
    (rmatch
       (Seq (chr 34)
          (Opt (Seq (Plus space)
                  (Seq (chr 34) (Seq (Group 10 (Star (not_chr 34))) (chr 34))))))
       (MState pos
          (34%N :: match fwd with Some f => 32%N :: 34%N :: f ++ [34%N] | None => [] end)
          caps) Some)
    (fun m => m_caps m
              = match fwd with Some f => [(10%nat, f)] | None => [] end ++ caps).
Proof.
  intros Hfwd. apply yields_chr. rewrite rmatch_Opt.
  destruct fwd as [f|].
  - specialize (Hfwd f eq_refl).
    assert (H : yields
                  (rmatch (Seq (Plus space)
                             (Seq (chr 34) (Seq (Group 10 (Star (not_chr 34))) (chr 34))))
                     (MState (S pos) (32%N :: 34%N :: f ++ [34%N]) caps)
                     (fun nxt => if progressed
                                      (MState (S pos) (32%N :: 34%N :: f ++ [34%N]) caps) nxt
                                 then Some nxt else None))
                  (fun m => m_caps m = (10%nat, f) :: caps)).
    { apply (yields_plus _ _ _ isWhiteSpace [32%N]);
        [discriminate | repeat constructor | reflexivity |].
      apply yields_chr. apply yields_step with
        (y := Some (MState (S (S (S pos + 1) + List.length f)) [] ((10%nat, f) :: caps))).
      - intros m Hm. rewrite rmatch_Seq.
        apply step_group_star; [assumption | reflexivity |].
        rewrite rmatch_chr.
        match goal with
        | |- (if ?c then _ else _) = _ => replace c with true
        end; [exact Hm|].
        symmetry. unfold progressed. cbn [m_pos].
        apply negb_true_iff, Nat.eqb_neq. cbn [List.length]. lia.
      - apply yields_Some. reflexivity. }
    destruct H as (m & -> & Hc). exists m. auto.
  - unfold Plus, space. rewrite !rmatch_Seq, rmatch_Chr_nil.
    apply yields_Some. reflexivity.
Qed.

Lemma NGINX_LOG_REGEX_format ip user1 user2 ts method url proto status size ref ua fwd :
  ip <> [] -> no_space ip ->
  user1 <> [] -> no_space user1 ->
  user2 <> [] -> no_space user2 ->
  ts <> [] -> Forall (fun c => negb (N.eqb c 93) = true) ts ->
  method <> [] -> no_space method ->
  no_quote url ->
  proto <> [] -> no_space proto -> no_quote proto ->
  status <> [] -> all_digits status ->
  (size = js "-" \/ (size <> [] /\ all_digits size)) ->
  no_quote ref -> no_quote ua ->
  (forall f, fwd = Some f -> no_quote f) ->
  yields
    (regex_exec NGINX_LOG_REGEX
      (format_line ip user1 user2 ts method url proto status size ref ua fwd))
    (fun m =>
       m_caps m
       = match fwd with Some f => [(10%nat, f)] | None => [] end
         ++ [ (9%nat, ua); (8%nat, ref); (7%nat, size); (6%nat, status);
              (5%nat, proto); (4%nat, url); (3%nat, method); (2%nat, ts);
              (1%nat, ip) ]).
Proof.
  intros Hip0 Hip Hu10 Hu1 Hu20 Hu2 Hts0 Hts Hme0 Hme Hurl Hpr0 Hpr Hprq
         Hst0 Hst Hsize Href Hua Hfwd.
  apply yields_step with
    (y := rmatch NGINX_LOG_REGEX
            (MState 0 (format_line ip user1 user2 ts method url proto status size
                         ref ua fwd) []) Some);
    [intros m; apply regex_exec_at_start|].
  unfold format_line, NGINX_LOG_REGEX. cbn [seqs].
  apply yields_Bol.
  apply yields_group_plus; [assumption.. | reflexivity |].
  apply yields_chr.
  apply yields_plus; [assumption.. | reflexivity |].
  apply yields_chr.
  apply yields_plus; [assumption.. | reflexivity |].
  apply yields_chr. apply yields_chr.
  apply yields_group_plus; [assumption.. | reflexivity |].
  apply yields_chr. apply yields_chr. apply yields_chr.
  apply yields_group_plus; [assumption.. | reflexivity |].
  apply yields_chr.
  apply yields_group_url; [assumption..|].
  apply yields_chr.
  apply yields_group_proto; [assumption..|].
  apply yields_chr. apply yields_chr.
  apply yields_group_plus; [assumption.. | reflexivity |].
  apply yields_chr.
  apply yields_group_size; [assumption|].
  apply yields_chr. apply yields_chr.
  apply yields_group_star; [assumption | reflexivity |].
  apply yields_chr. apply yields_chr. apply yields_chr.
  apply yields_group_star; [assumption | reflexivity |].
  apply yields_forwarded. exact Hfwd.
Qed.

(* ================================================================== *)
(** * The time stamp pattern: what it accepts *)
(* ================================================================== *)

Lemma timestampRegex_inv s m :
  regex_exec timestampRegex s = Some m ->
  exists d1 d2 m1 m2 m3 y1 y2 y3 y4 h1 h2 mi1 mi2 s1 s2 sg o1 o2 o3 o4,
    s = timestamp_token [d1; d2] [m1; m2; m3] [y1; y2; y3; y4] [h1; h2]
          [mi1; mi2] [s1; s2] [sg; o1; o2; o3; o4] /\
    all_digits [d1; d2; y1; y2; y3; y4; h1; h2; mi1; mi2; s1; s2; o1; o2; o3; o4] /\
    Forall (fun c => is_word c = true) [m1; m2; m3] /\
    (sg = 43%N \/ sg = 45%N) /\
    m_caps m = [ (7%nat, [sg; o1; o2; o3; o4]); (6%nat, [s1; s2]);
                 (5%nat, [mi1; mi2]); (4%nat, [h1; h2]);
                 (3%nat, [y1; y2; y3; y4]); (2%nat, [m1; m2; m3]);
                 (1%nat, [d1; d2]) ].
Proof.
  unfold timestampRegex. cbn [seqs]. intros H.
  apply regex_exec_Bol in H as (st' & Hrun & ->).
  unfold lit, digit, word, chr in Hrun. cbn [seqs map js list_ascii_of_string] in Hrun.
  repeat match goal with
         | H : run (Seq _ _) _ _ |- _ => inversion H; clear H; subst
         | H : run (Group _ _) _ _ |- _ => inversion H; clear H; subst
         | H : run (Chr _) _ _ |- _ =>
             inversion H; clear H; subst; cbn [m_rest advance set_cap] in *
         | H : run Eol _ _ |- _ =>
             inversion H; clear H; subst; cbn [m_rest advance set_cap] in *
         | H : MState _ _ _ = _ |- _ => injection H as ? ? ?; subst
         | H : _ = MState _ _ _ |- _ => injection H as ? ? ?; subst
         | H : @eq jsstring ?x (_ :: _) |- _ => is_var x; subst x
         | H : @eq (list N) ?x (_ :: _) |- _ => is_var x; subst x
         | H : _ :: _ = _ :: _ |- _ => injection H as ? ?; subst
         end.
  repeat match goal with
         | H : (_ =? _)%N = true |- _ => apply N.eqb_eq in H; subst
         end.
  do 20 eexists. unfold timestamp_token. cbn [app].
  split; [reflexivity|].
  split; [repeat constructor; assumption|].
  split; [repeat constructor; assumption|].
  split.
  - match goal with
    | H : (_ =? 43)%N || _ = true |- _ =>
        apply orb_true_iff in H as [H|H]; apply N.eqb_eq in H; auto
    end.
  - reflexivity.
Qed.

(** The normalizer accepts exactly the tokens of the shape
    [DD/Mon/YYYY:HH:MM:SS +HHMM] whose month is in the table. *)
Lemma parseNginxTimestamp_accepts tz s :
  parseNginxTimestamp tz s <> None <->
  exists d1 d2 mon y1 y2 y3 y4 h1 h2 mi1 mi2 s1 s2 sg o1 o2 o3 o4,
    s = timestamp_token [d1; d2] mon [y1; y2; y3; y4] [h1; h2]
          [mi1; mi2] [s1; s2] [sg; o1; o2; o3; o4] /\
    all_digits [d1; d2; y1; y2; y3; y4; h1; h2; mi1; mi2; s1; s2; o1; o2; o3; o4] /\
    lookup_month months mon <> None /\
    (sg = 43%N \/ sg = 45%N).
Proof.
  split.
  - intros H. unfold parseNginxTimestamp in H.
    destruct (regex_exec timestampRegex s) as [m|] eqn:Hm; [|congruence].
    apply timestampRegex_inv in Hm
      as (d1 & d2 & m1 & m2 & m3 & y1 & y2 & y3 & y4 & h1 & h2 & mi1 & mi2
          & s1 & s2 & sg & o1 & o2 & o3 & o4 & -> & Hd & Hw & Hsg & Hcaps).
    rewrite Hcaps in H. cbn [capture Nat.eqb] in H.
    exists d1, d2, [m1; m2; m3], y1, y2, y3, y4, h1, h2, mi1, mi2, s1, s2, sg,
      o1, o2, o3, o4.
    repeat split; try assumption.
    destruct (lookup_month months [m1; m2; m3]); congruence.
  - intros (d1 & d2 & mon & y1 & y2 & y3 & y4 & h1 & h2 & mi1 & mi2 & s1 & s2
            & sg & o1 & o2 & o3 & o4 & -> & Hd & Hmon & Hsg).
    destruct (lookup_month months mon) as [mo|] eqn:Hmo; [|congruence].
    rewrite (parseNginxTimestamp_token tz _ _ _ _ _ _ _ _ _ _ _ _ _ _ _ _ _ _ _
               Hd Hmo Hsg).
    discriminate.
Qed.

(* ================================================================== *)
(** * White space, and the round trip of a line *)
(* ================================================================== *)

Lemma trimStart_blank_app w s : blank w -> trimStart (w ++ s) = trimStart s.
Proof.
  induction 1 as [|c w Hc _ IH]; cbn [app trimStart]; [reflexivity|].
  now rewrite Hc.
Qed.

Lemma trimStart_app s v : trimStart s <> [] -> trimStart (s ++ v) = trimStart s ++ v.
Proof.
  induction s as [|c s IH]; cbn [app trimStart]; intros H; [contradiction|].
  destruct (isWhiteSpace c); [now apply IH | reflexivity].
Qed.

Lemma trimStart_nil_blank s : trimStart s = [] -> blank s.
Proof.
  induction s as [|c s IH]; cbn [trimStart]; intros H; [constructor|].
  destruct (isWhiteSpace c) eqn:E; [|discriminate].
  constructor; [exact E | now apply IH].
Qed.

Lemma blank_rev w : blank w -> blank (rev w).
Proof. unfold blank. rewrite !Forall_forall. intros H c Hc. apply H, in_rev, Hc. Qed.

Lemma blank_app a b : blank a -> blank b -> blank (a ++ b).
Proof. intros Ha Hb. apply Forall_app. now split. Qed.

Lemma trimEnd_blank_app s w : blank w -> trimEnd (s ++ w) = trimEnd s.
Proof.
  intros Hw. unfold trimEnd. rewrite rev_app_distr.
  now rewrite trimStart_blank_app by now apply blank_rev.
Qed.

Lemma trimEnd_app a b : trimEnd b <> [] -> trimEnd (a ++ b) = a ++ trimEnd b.
Proof.
  unfold trimEnd. intros H. rewrite rev_app_distr, trimStart_app.
  - now rewrite rev_app_distr, rev_involutive.
  - intros E. apply H. now rewrite E.
Qed.

(** White space around a line does not count. *)
Lemma trim_blank_around w1 s w2 :
  blank w1 -> blank w2 -> trim (w1 ++ s ++ w2) = trim s.
Proof.
  intros H1 H2. unfold trim. rewrite trimStart_blank_app by assumption.
  destruct (trimStart s) as [|c t] eqn:E.
  - apply trimStart_nil_blank in E.
    now rewrite (trimStart_blank _ (blank_app _ _ E H2)).
  - rewrite trimStart_app by (rewrite E; discriminate).
    rewrite E. now apply trimEnd_blank_app.
Qed.

Lemma ends_well_quote : ends_well [34%N].
Proof. split; [reflexivity | discriminate]. Qed.

Lemma ends_well_app a b : ends_well b -> ends_well (a ++ b).
Proof.
  intros [H Hne]. split.
  - rewrite trimEnd_app; rewrite H; [reflexivity | exact Hne].
  - intros E. apply app_eq_nil in E as [_ E]. contradiction.
Qed.

Lemma ends_well_cons x b : ends_well b -> ends_well (x :: b).
Proof. apply (ends_well_app [x]). Qed.

Lemma trim_format_line ip user1 user2 ts method url proto status size ref ua fwd :
  ip <> [] -> no_space ip ->
  trim (format_line ip user1 user2 ts method url proto status size ref ua fwd)
  = format_line ip user1 user2 ts method url proto status size ref ua fwd.
Proof.
  intros Hne Hip. unfold trim.
  assert (Hs : trimStart (format_line ip user1 user2 ts method url proto status
                            size ref ua fwd)
               = format_line ip user1 user2 ts method url proto status size ref ua fwd).
  { unfold format_line. destruct ip as [|x ip]; [contradiction|].
    inversion Hip as [|? ? Hx _]; subst. cbn [app trimStart].
    apply negb_true_iff in Hx. now rewrite Hx. }
  rewrite Hs.
  assert (He : ends_well (format_line ip user1 user2 ts method url proto status
                            size ref ua fwd)).
  { unfold format_line. destruct fwd as [f|];
      repeat first [exact ends_well_quote | apply ends_well_app
                   | apply ends_well_cons]. }
  apply He.
Qed.

Lemma digit_not_bracket c : is_digit c = true -> negb (N.eqb c 93) = true.
Proof.
  unfold is_digit. intros H. apply andb_true_iff in H as [_ H].
  apply N.leb_le in H. apply negb_true_iff, N.eqb_neq. lia.
Qed.

Lemma word_not_bracket c : is_word c = true -> negb (N.eqb c 93) = true.
Proof.
  unfold is_word, is_digit, is_upper, is_lower. intros H.
  apply negb_true_iff, N.eqb_neq. intros ->. discriminate.
Qed.

(** A token that the normalizer accepts is not empty and has no closing
    bracket in it. *)
Lemma accepted_timestamp_shape tz ts t :
  parseNginxTimestamp tz ts = Some t ->
  ts <> [] /\ Forall (fun c => negb (N.eqb c 93) = true) ts.
Proof.
  intros H.
  assert (Hne : parseNginxTimestamp tz ts <> None) by congruence.
  apply parseNginxTimestamp_accepts in Hne
    as (d1 & d2 & mon & y1 & y2 & y3 & y4 & h1 & h2 & mi1 & mi2 & s1 & s2
        & sg & o1 & o2 & o3 & o4 & -> & Hd & Hmon & Hsg).
  destruct (lookup_month months mon) as [mo|] eqn:Hmo; [|congruence].
  destruct (months_are_words mon mo Hmo) as (m1 & m2 & m3 & -> & Hw).
  split; [discriminate|].
  unfold timestamp_token. cbn [app].
  repeat match goal with
         | H : all_digits (_ :: _) |- _ =>
             let Hc := fresh "Hc" in inversion H as [|? ? Hc ?]; subst; clear H
         | H : Forall _ (_ :: _) |- _ =>
             let Hc := fresh "Hc" in inversion H as [|? ? Hc ?]; subst; clear H
         end.
  repeat constructor;
    try (now apply digit_not_bracket); try (now apply word_not_bracket).
  destruct Hsg as [-> | ->]; reflexivity.
Qed.

Lemma digits_not_dash size :
  size <> [] -> all_digits size -> str_eqb size (js "-") = false.
Proof.
  intros Hne Hd. apply str_eqb_neq. intros ->.
  inversion Hd as [|? ? Hc _]; subst. discriminate.
Qed.

(** X1. Round trip.  A line written in the access-log format from its
    fields is parsed back to those fields: the address, method, URL,
    protocol and user agent as written, the time stamp as
    [parseNginxTimestamp] reads it, the status and the size as numbers
    (a size of [-] as 0), the referrer [-] as the empty string, and the
    forwarded-for field when it is there and not empty.  The fields must
    not contain what delimits them: no white space in the address, the
    users, the method and the protocol, no double quote in the quoted
    fields; and the status and the size must be at most 2^53, the range
    in which [parseInt] returns the integer that the digits denote. *)
Theorem X1_parseLogLine_round_trip
  tz ip user1 user2 ts t method url proto status size ref ua fwd :
  ip <> [] -> no_space ip ->
  user1 <> [] -> no_space user1 ->
  user2 <> [] -> no_space user2 ->
  parseNginxTimestamp tz ts = Some t ->
  method <> [] -> no_space method ->
  no_quote url ->
  proto <> [] -> no_space proto -> no_quote proto ->
  status <> [] -> all_digits status -> exact_number (digits_value status) ->
  (size = js "-" \/
   (size <> [] /\ all_digits size /\ exact_number (digits_value size))) ->
  no_quote ref -> no_quote ua ->
  (forall f, fwd = Some f -> no_quote f) ->
  parseLogLine tz (format_line ip user1 user2 ts method url proto status size ref ua fwd)
  = Some (mkLogEntry ip t method url proto (digits_value status)
            (if str_eqb size (js "-") then 0 else digits_value size)
            (if str_eqb ref (js "-") then [] else ref)
            ua
            (match fwd with Some [] | None => None | Some f => Some f end)).
Proof.
  intros Hip0 Hip Hu10 Hu1 Hu20 Hu2 Hts Hme0 Hme Hurl Hpr0 Hpr Hprq
         Hst0 Hst _ Hsize' Href Hua Hfwd.
  assert (Hsize : size = js "-" \/ (size <> [] /\ all_digits size)).
  { destruct Hsize' as [E | (Hne & Hd & _)]; [now left | now right]. }
  destruct (accepted_timestamp_shape tz ts t Hts) as [Hts0 Htsb].
  destruct (NGINX_LOG_REGEX_format ip user1 user2 ts method url proto status size
              ref ua fwd Hip0 Hip Hu10 Hu1 Hu20 Hu2 Hts0 Htsb Hme0 Hme Hurl Hpr0
              Hpr Hprq Hst0 Hst Hsize Href Hua Hfwd) as (m & Hm & Hcaps).
  unfold parseLogLine. rewrite trim_format_line by assumption.
  destruct (format_line ip user1 user2 ts method url proto status size ref ua fwd)
    as [|c0 l0] eqn:Hline.
  { unfold format_line in Hline. destruct ip; [contradiction | discriminate]. }
  rewrite Hm, Hcaps.
  assert (Hstatus : parseInt10 status = Some (digits_value status)).
  { destruct status; [contradiction|]. now apply parseInt10_digits. }
  assert (Hsz : (if str_eqb size (js "-") then Some 0 else parseInt10 size)
                = Some (if str_eqb size (js "-") then 0 else digits_value size)).
  { destruct Hsize as [-> | [Hne Hd]]; [reflexivity|].
    rewrite digits_not_dash by assumption.
    destruct size; [contradiction|]. now apply parseInt10_digits. }
  destruct fwd as [f|]; cbn [app capture Nat.eqb]; rewrite Hts, Hstatus, Hsz;
    reflexivity.
Qed.

Lemma X1_witness :
  format_line (js "172.16.6.142") (js "-") (js "-")
    (js "06/Sep/2025:11:01:23 -0700") (js "GET") (js "/js/script.js")
    (js "HTTP/1.1") (js "200") (js "1650") (js "https://example.com/")
    (js "Mozilla/5.0...") (Some (js "205.169.39.128"))
  = sample_line /\
  parseLogLine tzUTC
    (format_line (js "172.16.6.142") (js "-") (js "-")
       (js "06/Sep/2025:11:01:23 -0700") (js "GET") (js "/js/script.js")
       (js "HTTP/1.1") (js "200") (js "1650") (js "https://example.com/")
       (js "Mozilla/5.0...") (Some (js "205.169.39.128")))
  = Some sample_entry.
Proof.
  split; [reflexivity|].
  apply (X1_parseLogLine_round_trip tzUTC (js "172.16.6.142") (js "-") (js "-")
           (js "06/Sep/2025:11:01:23 -0700") (instant 2025 9 6 18 1 23 0)
           (js "GET") (js "/js/script.js") (js "HTTP/1.1") (js "200") (js "1650")
           (js "https://example.com/") (js "Mozilla/5.0...")
           (Some (js "205.169.39.128")));
    match goal with
    | |- _ <> _ => discriminate
    | |- parseNginxTimestamp _ _ = _ => vm_compute; reflexivity
    | |- exact_number _ => vm_compute; split; discriminate
    | |- _ \/ _ =>
        right; split; [discriminate|];
        split; [repeat constructor | vm_compute; split; discriminate]
    | |- forall _, _ => intros f [= <-]; repeat constructor
    | |- _ => repeat constructor
    end.
Defined.

(* ================================================================== *)
(** * The line pattern: what it accepts *)
(* ================================================================== *)

Lemma reads_trans a b c s1 s2 :
  reads a s1 b -> reads b s2 c -> reads a (s1 ++ s2) c.
Proof.
  intros [H1 P1] [H2 P2]. split.
  - now rewrite H1, H2, app_assoc.
  - rewrite P2, P1, length_app. lia.
Qed.

Lemma run_Chr_inv p st st' :
  run (Chr p) st st' ->
  exists c, p c = true /\ reads st [c] st' /\ m_caps st' = m_caps st.
Proof.
  inversion 1; subst. exists c. split; [assumption|]. split; [|reflexivity].
  split; cbn [advance m_rest m_pos app List.length]; [assumption | lia].
Qed.

Lemma run_chr_inv c st st' :
  run (chr c) st st' -> reads st [c] st' /\ m_caps st' = m_caps st.
Proof.
  intros H. apply run_Chr_inv in H as (x & Hx & H). apply N.eqb_eq in Hx. now subst.
Qed.

Lemma run_Star_Chr_inv p st st' :
  run (Star (Chr p)) st st' ->
  exists s, Forall (fun c => p c = true) s /\ reads st s st'
            /\ m_caps st' = m_caps st.
Proof.
  intros H. remember (Star (Chr p)) as r eqn:Hr. revert Hr.
  induction H; intros Hr; try discriminate; injection Hr as ->.
  - exists []. split; [constructor|]. split; [|reflexivity].
    split; cbn [app List.length]; [reflexivity | lia].
  - apply run_Chr_inv in H as (c & Hc & Hrd & Hcaps).
    destruct (IHrun2 eq_refl) as (s & Hs & Hrd2 & Hcaps2).
    exists (c :: s). split; [now constructor|]. split.
    + exact (reads_trans _ _ _ _ _ Hrd Hrd2).
    + congruence.
Qed.

Lemma run_Plus_Chr_inv p st st' :
  run (Plus (Chr p)) st st' ->
  exists s, s <> [] /\ Forall (fun c => p c = true) s /\ reads st s st'
            /\ m_caps st' = m_caps st.
Proof.
  unfold Plus. inversion 1; subst.
  match goal with H : run (Chr _) _ _ |- _ =>
    apply run_Chr_inv in H as (c & Hc & Hrd & Hcaps) end.
  match goal with H : run (Star _) _ _ |- _ =>
    apply run_Star_Chr_inv in H as (s & Hs & Hrd2 & Hcaps2) end.
  exists (c :: s). split; [discriminate|]. split; [now constructor|]. split.
  - exact (reads_trans _ _ _ _ _ Hrd Hrd2).
  - congruence.
Qed.

Lemma set_cap_reads i st st1 s :
  reads st s st1 ->
  reads st s (set_cap i st st1)
  /\ m_caps (set_cap i st st1) = (i, s) :: m_caps st1.
Proof.
  intros [H P]. unfold set_cap. cbn [m_rest m_pos m_caps]. split; [now split|].
  rewrite H, P. replace (m_pos st + List.length s - m_pos st)%nat
    with (List.length s + 0)%nat by lia.
  now rewrite firstn_app_2, firstn_O, app_nil_r.
Qed.

Lemma run_Group_Plus_inv i p st st' :
  run (Group i (Plus (Chr p))) st st' ->
  exists s, s <> [] /\ Forall (fun c => p c = true) s /\ reads st s st'
            /\ m_caps st' = (i, s) :: m_caps st.
Proof.
  inversion 1; subst.
  match goal with H : run (Plus _) _ _ |- _ =>
    apply run_Plus_Chr_inv in H as (s & Hne & Hs & Hrd & Hcaps) end.
  exists s. destruct (set_cap_reads i _ _ _ Hrd) as [Hr Hc].
  repeat split; try assumption; try apply Hr. now rewrite Hc, Hcaps.
Qed.

Lemma run_Group_Star_inv i p st st' :
  run (Group i (Star (Chr p))) st st' ->
  exists s, Forall (fun c => p c = true) s /\ reads st s st'
            /\ m_caps st' = (i, s) :: m_caps st.
Proof.
  inversion 1; subst.
  match goal with H : run (Star _) _ _ |- _ =>
    apply run_Star_Chr_inv in H as (s & Hs & Hrd & Hcaps) end.
  exists s. destruct (set_cap_reads i _ _ _ Hrd) as [Hr Hc].
  repeat split; try assumption; try apply Hr. now rewrite Hc, Hcaps.
Qed.

Lemma run_Group_size_inv i st st' :
  run (Group i (Alt (Plus digit) (chr 45))) st st' ->
  exists s, (s = js "-" \/ (s <> [] /\ all_digits s)) /\ reads st s st'
            /\ m_caps st' = (i, s) :: m_caps st.
Proof.
  inversion 1; subst.
  match goal with H : run (Alt _ _) _ _ |- _ => inversion H; subst end.
  - match goal with H : run (Plus _) _ _ |- _ =>
      apply run_Plus_Chr_inv in H as (s & Hne & Hs & Hrd & Hcaps) end.
    exists s. destruct (set_cap_reads i _ _ _ Hrd) as [Hr Hc].
    split; [right; now split|]. split; [exact Hr|]. now rewrite Hc, Hcaps.
  - match goal with H : run (chr _) _ _ |- _ =>
      apply run_chr_inv in H as (Hrd & Hcaps) end.
    exists [45%N]. destruct (set_cap_reads i _ _ _ Hrd) as [Hr Hc].
    split; [now left|]. split; [exact Hr|]. now rewrite Hc, Hcaps.
Qed.

Lemma run_Opt_inv a st st' : run (Opt a) st st' -> st' = st \/ run a st st'.
Proof. inversion 1; subst; auto. Qed.

Lemma format_line_app ip user1 user2 ts method url proto status size ref ua tail :
  format_line ip user1 user2 ts method url proto status size ref ua None ++ tail
  = ip ++ 32%N :: user1 ++ 32%N :: user2 ++ 32%N :: 91%N :: ts ++ 93%N :: 32%N
    :: 34%N :: method ++ 32%N :: url ++ 32%N :: proto ++ 34%N :: 32%N
    :: status ++ 32%N :: size ++ 32%N :: 34%N :: ref ++ 34%N :: 32%N
    :: 34%N :: ua ++ 34%N :: tail.
Proof.
  unfold format_line.
  repeat (rewrite <- ?app_assoc; cbn [app]; try rewrite <- !app_comm_cons).
  reflexivity.
Qed.

(** What the line pattern accepts: the fields in their places, anything
    after the user agent's closing quote. *)
Lemma NGINX_LOG_REGEX_inv line m :
  regex_exec NGINX_LOG_REGEX line = Some m ->
  exists ip user1 user2 ts method url proto status size ref ua fwd tail,
    line = format_line ip user1 user2 ts method url proto status size ref ua None
           ++ tail /\
    (ip <> [] /\ no_space ip) /\
    (user1 <> [] /\ no_space user1) /\
    (user2 <> [] /\ no_space user2) /\
    ts <> [] /\
    (method <> [] /\ no_space method) /\
    no_quote url /\
    (proto <> [] /\ no_space proto) /\
    (status <> [] /\ all_digits status) /\
    (size = js "-" \/ (size <> [] /\ all_digits size)) /\
    no_quote ref /\ no_quote ua /\
    match fwd with
    | Some f => exists w rest, tail = w ++ 34%N :: f ++ 34%N :: rest
                               /\ w <> [] /\ blank w /\ no_quote f
    | None => True
    end /\
    m_caps m = match fwd with Some f => [(10%nat, f)] | None => [] end
               ++ [ (9%nat, ua); (8%nat, ref); (7%nat, size); (6%nat, status);
                    (5%nat, proto); (4%nat, url); (3%nat, method); (2%nat, ts);
                    (1%nat, ip) ].
Proof.
  unfold NGINX_LOG_REGEX. cbn [seqs]. intros H.
  apply regex_exec_Bol in H as (st' & Hrun & ->).
  unfold lit in Hrun. cbn [seqs map js list_ascii_of_string] in Hrun.
  change (N_of_ascii " ") with 32%N in Hrun.
  change (N_of_ascii "-") with 45%N in Hrun.
  unfold nonspace, digit, space, not_chr in Hrun.
  repeat match goal with
         | H : run (Seq _ _) _ _ |- _ => inversion H; clear H; subst
         end.
  match goal with H : run (Opt _) _ _ |- _ => apply run_Opt_inv in H as [-> | H] end.
  all: repeat match goal with
         | H : run (Seq _ _) _ _ |- _ => inversion H; clear H; subst
         end.
  all: repeat match goal with
         | H : run (chr _) _ _ |- _ => apply run_chr_inv in H as [? ?]
         | H : run (Group _ (Plus (Chr _))) _ _ |- _ =>
             apply run_Group_Plus_inv in H as (? & ? & ? & ? & ?)
         | H : run (Group _ (Star (Chr _))) _ _ |- _ =>
             apply run_Group_Star_inv in H as (? & ? & ? & ?)
         | H : run (Group _ (Alt _ _)) _ _ |- _ =>
             apply run_Group_size_inv in H as (? & ? & ? & ?)
         | H : run (Plus (Chr _)) _ _ |- _ =>
             apply run_Plus_Chr_inv in H as (? & ? & ? & ? & ?)
         end.
  all: repeat match goal with
         | H1 : reads ?a ?s1 ?b, H2 : reads ?b ?s2 ?c |- _ =>
             pose proof (reads_trans _ _ _ _ _ H1 H2); clear H1 H2
         end.
  - match goal with
    | H : reads (MState 0 line []) _ _ |- _ => destruct H as [Hline _]
    end.
    cbn [m_rest] in Hline. rewrite <- ?app_assoc in Hline. cbn [app] in Hline.
    do 11 eexists. exists None. eexists.
    split. { rewrite format_line_app. exact Hline. }
    unfold no_space, no_quote, all_digits.
    repeat match goal with |- _ /\ _ => split end; try assumption; try exact I.
    repeat match goal with
           | H : m_caps ?b = _ |- context [m_caps ?b] => rewrite H
           end.
      reflexivity.
  - match goal with
    | H : reads (MState 0 line []) _ _ |- _ => destruct H as [Hline _]
    end.
    cbn [m_rest] in Hline. rewrite <- ?app_assoc in Hline. cbn [app] in Hline.
    do 11 eexists. eexists (Some _). eexists.
    split. { rewrite format_line_app. exact Hline. }
    unfold no_space, no_quote, all_digits, blank.
    repeat match goal with |- _ /\ _ => split end; try assumption.
    + do 2 eexists. split; [reflexivity|]. repeat split; assumption.
    + repeat match goal with
           | H : m_caps ?b = _ |- context [m_caps ?b] => rewrite H
           end.
      reflexivity.
Qed.

Lemma parseInt10_all_digits s :
  s <> [] -> all_digits s -> parseInt10 s = Some (digits_value s).
Proof. destruct s; [contradiction|]. intros _. apply parseInt10_digits. Qed.

Lemma size_value size :
  size = js "-" \/ (size <> [] /\ all_digits size) ->
  (if str_eqb size (js "-") then Some 0 else parseInt10 size)
  = Some (if str_eqb size (js "-") then 0 else digits_value size).
Proof.
  intros [-> | [Hne Hd]]; [reflexivity|].
  rewrite digits_not_dash by assumption. now apply parseInt10_all_digits.
Qed.

Lemma parseLogLine_inv tz line e :
  parseLogLine tz line = Some e -> line_shape tz line e.
Proof.
  unfold parseLogLine, line_shape. intros H.
  destruct (trim line) as [|c0 l0] eqn:Hline; [discriminate|].
  destruct (regex_exec NGINX_LOG_REGEX (c0 :: l0)) as [m|] eqn:Hm; [|discriminate].
  apply NGINX_LOG_REGEX_inv in Hm
    as (a & user1 & user2 & ts & me & u & proto & status & size & ref & ua
        & fwd & tail & Hshape & Hip & Hu1 & Hu2 & Hts & Hme & Hurl & Hpr & Hst
        & Hsz & Href & Hua & Hfwd & Hcaps).
  rewrite Hcaps in H.
  assert (Hcap : forall i, (1 <= i <= 9)%nat ->
            capture (match fwd with Some f => [(10%nat, f)] | None => [] end
                     ++ [ (9%nat, ua); (8%nat, ref); (7%nat, size); (6%nat, status);
                          (5%nat, proto); (4%nat, u); (3%nat, me); (2%nat, ts);
                          (1%nat, a) ]) i
            = capture [ (9%nat, ua); (8%nat, ref); (7%nat, size); (6%nat, status);
                        (5%nat, proto); (4%nat, u); (3%nat, me); (2%nat, ts);
                        (1%nat, a) ] i).
  { intros i Hi. destruct fwd; [|reflexivity]. cbn [app capture].
    destruct (Nat.eqb i 10) eqn:E; [apply Nat.eqb_eq in E; lia | reflexivity]. }
  rewrite !Hcap in H by lia. cbn [capture Nat.eqb] in H.
  destruct (parseNginxTimestamp tz ts) as [t|] eqn:Ht; [|discriminate].
  destruct Hst as [Hst0 Hst].
  rewrite (parseInt10_all_digits status Hst0 Hst), (size_value size Hsz) in H.
  injection H as <-. cbn [ip method url protocol userAgent timestamp
                          statusCode responseSize referrer forwardedFor].
  exists user1, user2, ts, status, size, ref, fwd, tail.
  destruct Hip, Hu1, Hu2, Hme, Hpr.
  repeat match goal with |- _ /\ _ => split end;
    try assumption; try exact eq_refl;
    match goal with
    | |- 0 <= digits_value _ => now apply digits_value_nonneg
    | |- exact_number _ -> _ => intros _; reflexivity
    | |- _ \/ _ =>
        destruct Hsz as [-> | [Hne Hd]];
        [ left; split; reflexivity
        | right; rewrite digits_not_dash by assumption;
          split; [exact Hne|]; split; [exact Hd|];
          split; [now apply digits_value_nonneg | intros _; reflexivity] ]
    | |- _ => idtac
    end.
  destruct fwd as [f|]; cbn [app capture Nat.eqb]; [|reflexivity].
  split; [exact Hfwd | now destruct f].
Qed.

(** X2. Every line that [parseLogLine] accepts is, once the white space
    around it is removed, an access-log line: the address, two more
    fields, the bracketed time stamp, the quoted request, the status,
    the size, the quoted referrer and the quoted user agent, each
    separated by one space, followed by anything.  The entry holds the
    text fields as they stand in the line and the time stamp as
    [parseNginxTimestamp] reads it; its status and its size are not
    negative, and they are the integers that the digits of the line
    denote whenever these are at most 2^53, the range in which
    [parseInt] does not round. *)
Theorem X2_parseLogLine_shape tz line e :
  parseLogLine tz line = Some e -> line_shape tz line e.
Proof. apply parseLogLine_inv. Qed.

Lemma X2_witness :
  parseLogLine tzUTC sample_line = Some sample_entry /\
  line_shape tzUTC sample_line sample_entry.
Proof.
  assert (H : parseLogLine tzUTC sample_line = Some sample_entry)
    by (vm_compute; reflexivity).
  split; [exact H|].
  exact (X2_parseLogLine_shape tzUTC sample_line sample_entry H).
Defined.

(** X3. An entry that [parseLogLine] returns has an address, a method
    and a protocol that are not empty and hold no white space, a URL, a
    referrer and a user agent without double quote, a status and a size
    that are not negative, never the referrer [-], and never an empty
    forwarded-for field. *)
Theorem X3_parseLogLine_guarantees tz line e :
  parseLogLine tz line = Some e -> entry_guarantees e.
Proof.
  intros H. apply parseLogLine_inv in H
    as (user1 & user2 & ts & status & size & ref & fwd & tail & _ & Hip & _ & _
        & _ & Hme & Hurl & Hpr & (_ & _ & Hsv & _) & Hsz & (Href & Hrv)
        & Hua & Hfwd).
  unfold entry_guarantees.
  repeat match goal with |- _ /\ _ => split end; try tauto.
  - destruct Hsz as [[_ E] | (_ & _ & Hnn & _)]; [rewrite E; lia | exact Hnn].
  - rewrite Hrv. destruct (str_eqb ref (js "-")) eqn:E; [discriminate|].
    now apply str_eqb_neq.
  - rewrite Hrv. destruct (str_eqb ref (js "-")); [constructor | exact Href].
  - intros f Hf. destruct fwd as [g|]; [|congruence].
    destruct Hfwd as ((w & rest & _ & _ & _ & Hq) & Hff).
    rewrite Hff in Hf. destruct g; [discriminate|]. injection Hf as <-.
    split; [discriminate | exact Hq].
Qed.

Lemma X3_witness :
  parseLogLine tzUTC sample_line = Some sample_entry /\
  entry_guarantees sample_entry.
Proof.
  assert (H : parseLogLine tzUTC sample_line = Some sample_entry)
    by (vm_compute; reflexivity).
  split; [exact H|].
  exact (X3_parseLogLine_guarantees tzUTC sample_line sample_entry H).
Defined.

(* ================================================================== *)
(** * Lines, files and the bot classifier *)
(* ================================================================== *)

(** X4. White space before or after a line, such as the carriage return
    that a CRLF file leaves at the end of each line, does not change what
    [parseLogLine] returns. *)
Theorem X4_parseLogLine_whitespace tz w1 line w2 :
  blank w1 -> blank w2 ->
  parseLogLine tz (w1 ++ line ++ w2) = parseLogLine tz line.
Proof.
  intros H1 H2. unfold parseLogLine. now rewrite trim_blank_around.
Qed.

Lemma X4_witness :
  parseLogLine tzUTC (js "  " ++ sample_line ++ [13%N])
  = parseLogLine tzUTC sample_line.
Proof.
  apply (X4_parseLogLine_whitespace tzUTC (js "  ") sample_line [13%N]);
    repeat constructor.
Defined.

Lemma split_lines_nonempty s : split_lines s <> [].
Proof.
  destruct s as [|c s]; cbn [split_lines]; [discriminate|].
  destruct (c =? 10)%N; [discriminate|].
  destruct (split_lines s); discriminate.
Qed.

Lemma split_lines_app a b :
  split_lines (a ++ 10%N :: b) = split_lines a ++ split_lines b.
Proof.
  induction a as [|c a IH]; cbn [app split_lines].
  - reflexivity.
  - destruct (c =? 10)%N.
    + now rewrite IH.
    + rewrite IH. destruct (split_lines a) as [|l ls] eqn:E.
      * now destruct (split_lines_nonempty a).
      * reflexivity.
Qed.

Lemma parse_lines_app tz l1 l2 :
  parse_lines tz (l1 ++ l2) = parse_lines tz l1 ++ parse_lines tz l2.
Proof.
  induction l1 as [|l l1 IH]; cbn [app parse_lines]; [reflexivity|].
  destruct (trim l); [exact IH|].
  destruct (parseLogLine tz l); [now rewrite IH | exact IH].
Qed.

(** X5. The entries of two pieces of log joined by a line feed are the
    entries of the first piece followed by those of the second: a file
    is read line by line, in order. *)
Theorem X5_parseLogFile_app tz a b :
  parseLogFile tz (a ++ 10%N :: b) = parseLogFile tz a ++ parseLogFile tz b.
Proof. unfold parseLogFile. now rewrite split_lines_app, parse_lines_app. Qed.

Lemma parse_lines_In tz lines e :
  In e (parse_lines tz lines) <->
  exists line, In line lines /\ parseLogLine tz line = Some e.
Proof.
  induction lines as [|l lines IH]; cbn [parse_lines In].
  - split; [contradiction | intros (? & [] & _)].
  - assert (Hblank : trim l = [] -> parseLogLine tz l = None).
    { intros E. unfold parseLogLine. now rewrite E. }
    destruct (trim l) as [|c t] eqn:E.
    + rewrite IH. split.
      * intros (x & Hx & Hp). exists x. auto.
      * intros (x & [<- | Hx] & Hp); [rewrite Hblank in Hp by reflexivity; discriminate|].
        now exists x.
    + destruct (parseLogLine tz l) as [e0|] eqn:Hp; cbn [In]; rewrite ?IH; split.
      * intros [<- | (x & Hx & Hq)]; [exists l; auto | exists x; auto].
      * intros (x & [<- | Hx] & Hq); [left; congruence | right; now exists x].
      * intros (x & Hx & Hq). exists x. auto.
      * intros (x & [<- | Hx] & Hq); [congruence | now exists x].
Qed.

(** X6. The entries that [parseLogFile] returns are exactly the results
    of [parseLogLine] on the lines of the content that it accepts: a
    line that does not parse is skipped, and costs no other line its
    entry. *)
Theorem X6_parseLogFile_entries tz content e :
  In e (parseLogFile tz content) <->
  exists line, In line (split_lines content) /\ parseLogLine tz line = Some e.
Proof. apply parse_lines_In. Qed.

Lemma parse_lines_length tz lines :
  (List.length (parse_lines tz lines) <= List.length lines)%nat.
Proof.
  induction lines as [|l lines IH]; cbn [parse_lines List.length]; [lia|].
  destruct (trim l); [lia|]. destruct (parseLogLine tz l); cbn [List.length]; lia.
Qed.

(** ** The bot classifier looks for substrings *)

Lemma contains_unfold ps s :
  contains ps s
  = match match_prefix ps s with
    | Some _ => true
    | None => match s with [] => false | _ :: tl => contains ps tl end
    end.
Proof. destruct s; reflexivity. Qed.

Lemma match_prefix_app ps : forall s r post,
  match_prefix ps s = Some r -> match_prefix ps (s ++ post) = Some (r ++ post).
Proof.
  induction ps as [|p ps IH]; intros s r post H; cbn [match_prefix] in *.
  - injection H as <-. reflexivity.
  - destruct s as [|c s]; [discriminate|]. cbn [app match_prefix].
    destruct (p c); [now apply IH | discriminate].
Qed.

Lemma match_prefix_nil ps s : match_prefix ps [] = Some s -> ps = [].
Proof. destruct ps; [reflexivity | discriminate]. Qed.

Lemma contains_app_r ps s post : contains ps s = true -> contains ps (s ++ post) = true.
Proof.
  induction s as [|c s IH]; intros H; rewrite contains_unfold in H.
  - destruct (match_prefix ps []) eqn:E; [|discriminate].
    apply match_prefix_nil in E as ->. rewrite contains_unfold.
    now destruct ([] ++ post).
  - rewrite contains_unfold. destruct (match_prefix ps (c :: s)) eqn:E.
    + now rewrite (match_prefix_app _ _ _ post E).
    + cbn [app]. destruct (match_prefix ps (c :: s ++ post)); [reflexivity|].
      now apply IH.
Qed.

Lemma contains_app_l ps pre s : contains ps s = true -> contains ps (pre ++ s) = true.
Proof.
  intros H. induction pre as [|c pre IH]; [exact H|].
  cbn [app]. rewrite contains_unfold.
  destruct (match_prefix ps (c :: pre ++ s)); [reflexivity | exact IH].
Qed.

(** X7. Text added before or after a user agent that [isBot] classifies
    as a bot leaves it a bot: the patterns are looked for anywhere in
    the string. *)
Theorem X7_isBot_monotone pre ua post :
  isBot ua = true -> isBot (pre ++ ua ++ post) = true.
Proof.
  rewrite !isBot_spec, !existsb_exists. intros (w & Hw & H).
  exists w. split; [exact Hw|]. unfold contains_ci in *.
  now apply contains_app_l, contains_app_r.
Qed.

Lemma X7_witness :
  isBot (js "curl/8.4.0") = true /\
  isBot (js "Mozilla/5.0 (compatible; " ++ js "curl/8.4.0" ++ js ")") = true.
Proof.
  split; [reflexivity|].
  apply (X7_isBot_monotone (js "Mozilla/5.0 (compatible; ") (js "curl/8.4.0")
           (js ")")).
  reflexivity.
Defined.

(** X8. [parseNginxTimestamp] returns a date exactly for the tokens of
    the shape [DD/Mon/YYYY:HH:MM:SS +HHMM] (or [-HHMM]) whose month is one
    of the twelve English abbreviations; no field is checked for its
    range.  The date is the instant of the calendar fields, with a year
    below 100 read as 19YY, minus the stated offset and minus the host's
    own offset at that local time. *)
Theorem X8_parseNginxTimestamp_spec tz s t :
  parseNginxTimestamp tz s = Some t <->
  exists d1 d2 mon mo y1 y2 y3 y4 h1 h2 mi1 mi2 s1 s2 sg o1 o2 o3 o4,
    s = timestamp_token [d1; d2] mon [y1; y2; y3; y4] [h1; h2]
          [mi1; mi2] [s1; s2] [sg; o1; o2; o3; o4] /\
    all_digits [d1; d2; y1; y2; y3; y4; h1; h2; mi1; mi2; s1; s2; o1; o2; o3; o4] /\
    lookup_month months mon = Some mo /\
    (sg = 43%N \/ sg = 45%N) /\
    let year := digits_value [y1; y2; y3; y4] in
    let local :=
      fields_instant (if year <=? 99 then 1900 + year else year) mo
        (digits_value [d1; d2]) (digits_value [h1; h2]) (digits_value [mi1; mi2])
        (digits_value [s1; s2]) in
    t = local - stated_offset sg (digits_value [o1; o2]) (digits_value [o3; o4])
        - tz local.
Proof.
  split.
  - intros H.
    assert (Hne : parseNginxTimestamp tz s <> None) by congruence.
    apply parseNginxTimestamp_accepts in Hne
      as (d1 & d2 & mon & y1 & y2 & y3 & y4 & h1 & h2 & mi1 & mi2 & s1 & s2
          & sg & o1 & o2 & o3 & o4 & -> & Hd & Hmon & Hsg).
    destruct (lookup_month months mon) as [mo|] eqn:Hmo; [|congruence].
    exists d1, d2, mon, mo, y1, y2, y3, y4, h1, h2, mi1, mi2, s1, s2, sg,
      o1, o2, o3, o4.
    split; [reflexivity|]. split; [exact Hd|]. split; [exact Hmo|].
    split; [exact Hsg|].
    rewrite (parseNginxTimestamp_token tz _ _ _ _ _ _ _ _ _ _ _ _ _ _ _ _ _ _ _
               Hd Hmo Hsg) in H.
    cbv zeta in *. congruence.
  - intros (d1 & d2 & mon & mo & y1 & y2 & y3 & y4 & h1 & h2 & mi1 & mi2 & s1
            & s2 & sg & o1 & o2 & o3 & o4 & -> & Hd & Hmo & Hsg & Ht).
    rewrite (parseNginxTimestamp_token tz _ _ _ _ _ _ _ _ _ _ _ _ _ _ _ _ _ _ _
               Hd Hmo Hsg).
    cbv zeta in *. now rewrite Ht.
Qed.

(* ================================================================== *)
(** * The store: row ids, hosts of entries, derived columns *)
(* ================================================================== *)

Lemma insertLogEntries_cases f now entries name db :
  let hostId := fst (getOrCreateHost now name db) in
  let db1 := snd (getOrCreateHost now name db) in
  insertLogEntries f now entries name db = (Done, committed hostId entries db1)
  \/ insertLogEntries f now entries name db = (Failed StorageFailure, db1).
Proof.
  cbv zeta. unfold insertLogEntries, transaction.
  destruct (getOrCreateHost now name db) as [hostId db1] eqn:E. cbn [fst snd].
  destruct (insert_loop f hostId entries db1) as [db'|] eqn:El; [|now right].
  destruct (commit_fails f db'); [now right|].
  left. now rewrite (insert_loop_spec _ _ _ _ _ El).
Qed.

Lemma insertLogEntry_cases f now entry name db :
  let hostId := fst (getOrCreateHost now name db) in
  let db1 := snd (getOrCreateHost now name db) in
  insertLogEntry f now entry name db = (Done, committed hostId [entry] db1)
  \/ insertLogEntry f now entry name db = (Failed StorageFailure, db1).
Proof.
  cbv zeta. unfold insertLogEntry.
  destruct (getOrCreateHost now name db) as [hostId db1] eqn:E. cbn [fst snd].
  destruct (run_fails f db1 entry); [now right | now left].
Qed.

(** Induction over the reachable stores, one case per effect. *)
Lemma reachable_effects (P : Database -> Prop) :
  P emptyDatabase ->
  (forall now name db, reachable db -> P db ->
     P (snd (getOrCreateHost now name db))) ->
  (forall now name entries db, reachable db -> P db ->
     P (snd (getOrCreateHost now name db)) ->
     P (committed (fst (getOrCreateHost now name db)) entries
          (snd (getOrCreateHost now name db)))) ->
  (forall db, reachable db -> P db -> P (clearAllData db)) ->
  forall db, reachable db -> P db.
Proof.
  intros H0 Hhost Hrows Hclear db Hr.
  induction Hr as [|f now entries name db Hr IH|f now entry name db Hr IH|db Hr IH].
  - exact H0.
  - destruct (insertLogEntries_cases f now entries name db) as [E|E];
      rewrite E; cbn [snd]; auto.
  - destruct (insertLogEntry_cases f now entry name db) as [E|E];
      rewrite E; cbn [snd]; auto.
  - auto.
Qed.

(** ** Row ids *)

Lemma StronglySorted_app_lt l1 l2 b :
  StronglySorted Z.lt l1 -> StronglySorted Z.lt l2 ->
  Forall (fun x => x <= b) l1 -> Forall (fun y => b < y) l2 ->
  StronglySorted Z.lt (l1 ++ l2).
Proof.
  intros H1 H2 Hb1 Hb2. induction H1 as [|x l1 Hs IH Hx]; cbn [app]; [exact H2|].
  inversion Hb1; subst. constructor; [now apply IH|].
  apply Forall_app. split; [exact Hx|].
  eapply Forall_impl; [|exact Hb2]. cbn beta. intros; lia.
Qed.

Lemma rows_from_ids hostId entries : forall seq,
  StronglySorted Z.lt (map col_id (rows_from seq hostId entries)) /\
  Forall (fun r => seq < col_id r <= seq + Z.of_nat (List.length entries))
         (rows_from seq hostId entries).
Proof.
  induction entries as [|e entries IH]; intros seq; cbn [rows_from map List.length].
  - split; constructor.
  - destruct (IH (seq + 1)) as [Hs Hb]. split.
    + constructor; [exact Hs|]. rewrite Forall_map.
      eapply Forall_impl; [|exact Hb]. cbn [entry_row col_id]. intros; lia.
    + constructor; [cbn [entry_row col_id]; lia|].
      eapply Forall_impl; [|exact Hb]. cbn beta. intros; lia.
Qed.

Lemma map_host_id_update now id l :
  map host_id
      (map (fun h => if host_id h =? id then set_updated_at now h else h) l)
  = map host_id l.
Proof.
  rewrite map_map. apply map_ext. intros h. now destruct (host_id h =? id).
Qed.

Lemma getOrCreateHost_ids now name db :
  ids_ok db -> ids_ok (snd (getOrCreateHost now name db)).
Proof.
  intros (Hs & Hb & Hhs & Hhb & H0 & H1). unfold getOrCreateHost.
  destruct (find _ (hosts db)) as [h|] eqn:E; cbn [snd]; unfold ids_ok;
    cbn [hosts log_entries hosts_seq log_entries_seq].
  - rewrite map_host_id_update. repeat split; try assumption.
    rewrite Forall_map. eapply Forall_impl; [|exact Hhb]. cbn beta.
    intros a Ha. now destruct (host_id a =? host_id h).
  - repeat split; try assumption; try lia.
    + rewrite map_app. cbn [map host_id].
      apply StronglySorted_app_lt with (b := hosts_seq db); try assumption.
      * repeat constructor.
      * rewrite Forall_map. eapply Forall_impl; [|exact Hhb]. cbn beta. intros; lia.
      * repeat constructor. lia.
    + apply Forall_app. split.
      * eapply Forall_impl; [|exact Hhb]. cbn beta. intros; lia.
      * repeat constructor; cbn [host_id]; lia.
Qed.

Lemma committed_ids hostId entries db1 :
  ids_ok db1 -> ids_ok (committed hostId entries db1).
Proof.
  intros (Hs & Hb & Hhs & Hhb & H0 & H1). unfold committed, ids_ok.
  cbn [hosts log_entries hosts_seq log_entries_seq].
  destruct (rows_from_ids hostId entries (log_entries_seq db1)) as [Rs Rb].
  repeat split; try assumption; try lia.
  - rewrite map_app. apply StronglySorted_app_lt with (b := log_entries_seq db1);
      try assumption.
    + rewrite Forall_map. eapply Forall_impl; [|exact Hb]. cbn beta. intros; lia.
    + rewrite Forall_map. eapply Forall_impl; [|exact Rb]. cbn beta. intros; lia.
  - apply Forall_app. split.
    + eapply Forall_impl; [|exact Hb]. cbn beta. intros; lia.
    + eapply Forall_impl; [|exact Rb]. cbn beta. intros; lia.
Qed.

Lemma reachable_ids db : reachable db -> ids_ok db.
Proof.
  apply reachable_effects.
  - unfold ids_ok. cbn. repeat split; try constructor; lia.
  - intros now name d _. apply getOrCreateHost_ids.
  - intros now name entries d _ _. apply committed_ids.
  - intros d _ (Hs & Hb & Hhs & Hhb & H0 & H1). unfold ids_ok, clearAllData.
    cbn [hosts log_entries hosts_seq log_entries_seq map].
    repeat split; try constructor; assumption.
Qed.

(** X9. In every store that the program can produce, the row ids of
    both tables grow in insertion order and stay within the
    AUTOINCREMENT counters; [clearAllData] keeps the counters, so the
    entries inserted after it get ids above every id that was in use
    before it. *)
Theorem X9_row_ids_increase db :
  reachable db ->
  StronglySorted Z.lt (map col_id (log_entries db)) /\
  Forall (fun r => 0 < col_id r <= log_entries_seq db) (log_entries db) /\
  StronglySorted Z.lt (map host_id (hosts db)) /\
  Forall (fun h => 0 < host_id h <= hosts_seq db) (hosts db) /\
  (forall f now entries name r r',
     In r (log_entries db) ->
     In r' (log_entries (snd (insertLogEntries f now entries name (clearAllData db)))) ->
     col_id r < col_id r').
Proof.
  intros H. destruct (reachable_ids db H) as (Hs & Hb & Hhs & Hhb & _ & _).
  repeat split; try assumption.
  intros f now entries name r r' Hr Hr'.
  rewrite Forall_forall in Hb. specialize (Hb r Hr).
  destruct (insertLogEntries_cases f now entries name (clearAllData db)) as [E|E];
    rewrite E in Hr'; cbn [snd] in Hr'.
  - unfold committed in Hr'. cbn [log_entries] in Hr'.
    destruct (getOrCreateHost_keeps_entries now name (clearAllData db))
      as (A & _ & B).
    rewrite A, B in Hr'. cbn [clearAllData log_entries log_entries_seq app] in Hr'.
    destruct (rows_from_ids (fst (getOrCreateHost now name (clearAllData db)))
                entries (log_entries_seq db)) as [_ Hnew].
    rewrite Forall_forall in Hnew. specialize (Hnew r' Hr'). lia.
  - rewrite (proj1 (getOrCreateHost_keeps_entries now name (clearAllData db))) in Hr'.
    contradiction.
Qed.

Lemma X9_witness :
  StronglySorted Z.lt (map col_id (log_entries sample_db)) /\
  Forall (fun r => 0 < col_id r <= log_entries_seq sample_db) (log_entries sample_db) /\
  StronglySorted Z.lt (map host_id (hosts sample_db)) /\
  Forall (fun h => 0 < host_id h <= hosts_seq sample_db) (hosts sample_db) /\
  (forall f now entries name r r',
     In r (log_entries sample_db) ->
     In r' (log_entries
              (snd (insertLogEntries f now entries name (clearAllData sample_db)))) ->
     col_id r < col_id r').
Proof.
  exact (X9_row_ids_increase sample_db (load_entries_reachable _)).
Defined.

(** ** Referential integrity and the derived columns *)

Lemma getOrCreateHost_id_In now name db :
  In (fst (getOrCreateHost now name db))
     (map host_id (hosts (snd (getOrCreateHost now name db)))).
Proof.
  unfold getOrCreateHost.
  destruct (find _ (hosts db)) as [h|] eqn:E; cbn [fst snd hosts].
  - rewrite map_host_id_update. apply in_map. now apply find_some in E.
  - rewrite map_app. apply in_or_app. right. now left.
Qed.

Lemma getOrCreateHost_ids_incl now name db x :
  In x (map host_id (hosts db)) ->
  In x (map host_id (hosts (snd (getOrCreateHost now name db)))).
Proof.
  unfold getOrCreateHost.
  destruct (find _ (hosts db)) as [h|] eqn:E; cbn [fst snd hosts].
  - now rewrite map_host_id_update.
  - rewrite map_app. intros H. apply in_or_app. now left.
Qed.

Lemma rows_from_ok hostId entries : forall seq r,
  In r (rows_from seq hostId entries) ->
  col_host_id r = hostId /\
  col_is_bot r = (if isBot (col_user_agent r) then 1 else 0) /\
  col_date_only r = toISODate (col_timestamp r) /\
  exists e, In e entries /\ r = entry_row (col_id r) hostId e.
Proof.
  induction entries as [|e entries IH]; intros seq r; cbn [rows_from In];
    [contradiction|].
  intros [<- | H].
  - cbn [entry_row col_host_id col_is_bot col_user_agent col_date_only
         col_timestamp col_id]. repeat split. exists e. auto.
  - destruct (IH _ _ H) as (A & B & C & e' & He & Hr). repeat split; try assumption.
    exists e'. auto.
Qed.

Lemma reachable_rows db : reachable db -> Forall (row_ok db) (log_entries db).
Proof.
  revert db.
  apply (reachable_effects (fun db => Forall (row_ok db) (log_entries db))).
  - constructor.
  - intros now name d _ H.
    rewrite (proj1 (getOrCreateHost_keeps_entries now name d)).
    eapply Forall_impl; [|exact H]. intros r (A & B & C). split; [|now split].
    now apply getOrCreateHost_ids_incl.
  - intros now name entries d _ _ H. unfold committed. cbn [log_entries].
    apply Forall_app. split.
    + eapply Forall_impl; [|exact H]. intros r (A & B & C). now split.
    + apply Forall_forall. intros r Hr.
      destruct (rows_from_ok _ _ _ _ Hr) as (A & B & C & _).
      split; [|now split]. cbn [hosts]. rewrite A. apply getOrCreateHost_id_In.
  - intros d _ _. constructor.
Qed.

(** X10. In every store that the program can produce, the [host_id] of
    each stored entry is the id of exactly one row of [hosts]. *)
Theorem X10_entries_have_a_host db r :
  reachable db -> In r (log_entries db) ->
  exists h, filter (fun h => host_id h =? col_host_id r) (hosts db) = [h].
Proof.
  intros Hr Hin.
  pose proof (reachable_rows db Hr) as Hrows. rewrite Forall_forall in Hrows.
  destruct (Hrows r Hin) as (Hhost & _).
  destruct (reachable_ids db Hr) as (_ & _ & Hs & _).
  revert Hs Hhost. generalize (col_host_id r) as z. generalize (hosts db) as l.
  induction l as [|h l IH]; cbn [map In filter]; intros z Hs Hin'; [contradiction|].
  inversion Hs as [|? ? Hs' Hlt]; subst.
  destruct (host_id h =? z) eqn:E.
  - apply Z.eqb_eq in E. exists h. f_equal.
    assert (Hnone : forall l', Forall (Z.lt z) (map host_id l') ->
                      filter (fun h0 => host_id h0 =? z) l' = []).
    { induction l' as [|a l' IHl]; cbn [map filter]; intros Hf; [reflexivity|].
      inversion Hf as [|? ? Ha Hf']. destruct (host_id a =? z) eqn:Ea.
      - apply Z.eqb_eq in Ea. lia.
      - now apply IHl. }
    apply Hnone. now rewrite <- E.
  - apply Z.eqb_neq in E. destruct Hin' as [Hx | Hx]; [contradiction|].
    now apply IH.
Qed.

Lemma X10_witness :
  In sample_row (log_entries sample_db) /\
  exists h,
    filter (fun h => host_id h =? col_host_id sample_row) (hosts sample_db) = [h].
Proof.
  assert (H : In sample_row (log_entries sample_db))
    by (vm_compute; left; reflexivity).
  split; [exact H|].
  exact (X10_entries_have_a_host sample_db sample_row (load_entries_reachable _) H).
Defined.

(** X11. In every store that the program can produce, the two derived
    columns of each stored entry agree with the columns they are derived
    from: [is_bot] is 1 when [isBot] accepts the stored user agent and 0
    when it does not, and [date_only] is the UTC date of the stored
    time stamp. *)
Theorem X11_derived_columns db r :
  reachable db -> In r (log_entries db) ->
  col_is_bot r = (if isBot (col_user_agent r) then 1 else 0) /\
  col_date_only r = toISODate (col_timestamp r).
Proof.
  intros Hr Hin.
  pose proof (reachable_rows db Hr) as Hrows. rewrite Forall_forall in Hrows.
  now destruct (Hrows r Hin) as (_ & H).
Qed.

Lemma X11_witness :
  In sample_row (log_entries sample_db) /\
  col_is_bot sample_row = (if isBot (col_user_agent sample_row) then 1 else 0) /\
  col_date_only sample_row = toISODate (col_timestamp sample_row).
Proof.
  assert (H : In sample_row (log_entries sample_db))
    by (vm_compute; left; reflexivity).
  split; [exact H|].
  exact (X11_derived_columns sample_db sample_row (load_entries_reachable _) H).
Defined.

(* ================================================================== *)
(** * The store: how the operations compose *)
(* ================================================================== *)

Lemma rows_from_app hostId es1 es2 : forall seq,
  rows_from seq hostId (es1 ++ es2)
  = rows_from seq hostId es1
    ++ rows_from (seq + Z.of_nat (List.length es1)) hostId es2.
Proof.
  induction es1 as [|e es1 IH]; intros seq; cbn [app rows_from List.length].
  - now rewrite Z.add_0_r.
  - rewrite IH. do 3 f_equal. lia.
Qed.

Lemma insertLogEntries_noFaults now entries name db :
  insertLogEntries noFaults now entries name db
  = (Done, committed (fst (getOrCreateHost now name db)) entries
             (snd (getOrCreateHost now name db))).
Proof.
  destruct (insertLogEntries_cases noFaults now entries name db) as [E|E];
    [exact E|].
  exfalso. unfold insertLogEntries, transaction in E.
  destruct (getOrCreateHost now name db) as [hostId db1].
  destruct (insert_loop noFaults hostId entries db1) eqn:El.
  - cbn [commit_fails noFaults] in E. discriminate.
  - now apply insert_loop_noFaults in El.
Qed.

Lemma committed_entries hostId entries db1 :
  log_entries (committed hostId entries db1)
  = log_entries db1 ++ rows_from (log_entries_seq db1) hostId entries.
Proof. reflexivity. Qed.

Lemma committed_seq hostId entries db1 :
  log_entries_seq (committed hostId entries db1)
  = log_entries_seq db1 + Z.of_nat (List.length entries).
Proof. reflexivity. Qed.

(** X12. When the COMMIT of the storage engine does not fail,
    [insertLogEntry] does to the store, and reports, what
    [insertLogEntries] does with a batch of that one entry. *)
Theorem X12_insertLogEntry_is_batch_of_one f now entry name db :
  (forall d, commit_fails f d = false) ->
  insertLogEntry f now entry name db = insertLogEntries f now [entry] name db.
Proof.
  intros Hc. unfold insertLogEntry, insertLogEntries, transaction.
  destruct (getOrCreateHost now name db) as [hostId db1].
  cbn [insert_loop]. destruct (run_fails f db1 entry); [reflexivity|].
  now rewrite Hc.
Qed.

Lemma X12_witness :
  insertLogEntry noFaults 5000 sample_entry (js "example.com") emptyDatabase
  = insertLogEntries noFaults 5000 [sample_entry] (js "example.com") emptyDatabase.
Proof.
  apply (X12_insertLogEntry_is_batch_of_one noFaults 5000 sample_entry
           (js "example.com") emptyDatabase).
  intros d. reflexivity.
Defined.

Lemma find_hostname_update now id name l :
  find (fun h => str_eqb (hostname h) name)
       (map (fun h => if host_id h =? id then set_updated_at now h else h) l)
  = option_map (fun h => if host_id h =? id then set_updated_at now h else h)
      (find (fun h => str_eqb (hostname h) name) l).
Proof.
  induction l as [|h l IH]; cbn [map find option_map]; [reflexivity|].
  assert (E : hostname (if host_id h =? id then set_updated_at now h else h)
              = hostname h) by now destruct (host_id h =? id).
  rewrite E. destruct (str_eqb (hostname h) name); [reflexivity | exact IH].
Qed.

Lemma find_app_none {A : Type} (p : A -> bool) l x :
  find p l = None -> find p (l ++ [x]) = if p x then Some x else None.
Proof.
  induction l as [|a l IH]; cbn [app find]; [reflexivity|].
  destruct (p a); [discriminate | exact IH].
Qed.

(** The host id that a second call finds is the one that the first call
    returned; the entries are not touched. *)
Lemma getOrCreateHost_again now1 now2 name db :
  fst (getOrCreateHost now2 name (snd (getOrCreateHost now1 name db)))
  = fst (getOrCreateHost now1 name db).
Proof.
  unfold getOrCreateHost at 2 3.
  destruct (find _ (hosts db)) as [h|] eqn:E; cbn [fst snd].
  - unfold getOrCreateHost. cbn [hosts]. rewrite find_hostname_update, E.
    cbn [option_map fst]. now destruct (host_id h =? host_id h).
  - unfold getOrCreateHost. cbn [hosts]. rewrite (find_app_none _ _ _ E).
    cbn [hostname]. now rewrite str_eqb_refl.
Qed.

(** X13. Without storage faults, two batches inserted for a host one
    after the other leave the same entry rows, with the same row ids
    and the same host id, and the same counter as the two batches
    inserted as one. *)
Theorem X13_insertLogEntries_app now1 now2 now es1 es2 name db :
  let r1 := insertLogEntries noFaults now1 es1 name db in
  let r2 := insertLogEntries noFaults now2 es2 name (snd r1) in
  let r := insertLogEntries noFaults now (es1 ++ es2) name db in
  fst r2 = Done /\ fst r = Done /\
  log_entries (snd r2) = log_entries (snd r) /\
  log_entries_seq (snd r2) = log_entries_seq (snd r).
Proof.
  cbv zeta. rewrite !insertLogEntries_noFaults. cbn [fst snd].
  split; [reflexivity|]. split; [reflexivity|].
  set (c1 := committed (fst (getOrCreateHost now1 name db)) es1
               (snd (getOrCreateHost now1 name db))).
  assert (Hid : fst (getOrCreateHost now2 name c1)
                = fst (getOrCreateHost now1 name db)).
  { rewrite <- (getOrCreateHost_again now1 now2 name db).
    unfold getOrCreateHost at 1 2. unfold c1, committed. cbn [hosts hosts_seq].
    now destruct (find _ (hosts (snd (getOrCreateHost now1 name db)))). }
  assert (Hid' : fst (getOrCreateHost now name db)
                 = fst (getOrCreateHost now1 name db)).
  { unfold getOrCreateHost. now destruct (find _ (hosts db)). }
  rewrite !committed_entries, !committed_seq, Hid, Hid'.
  destruct (getOrCreateHost_keeps_entries now2 name c1) as (A & _ & B).
  destruct (getOrCreateHost_keeps_entries now name db) as (A2 & _ & B2).
  rewrite A, B, A2, B2. unfold c1. rewrite committed_entries, committed_seq.
  destruct (getOrCreateHost_keeps_entries now1 name db) as (A1 & _ & B1).
  rewrite A1, B1, rows_from_app, length_app, Nat2Z.inj_add, <- app_assoc.
  split; [reflexivity | lia].
Qed.

(** ** Loading for one host leaves the other hosts alone *)

Lemma sorted_ids_unique l h h' :
  StronglySorted Z.lt (map host_id l) -> In h l -> In h' l ->
  host_id h = host_id h' -> h = h'.
Proof.
  induction l as [|a l IH]; cbn [map In]; intros Hs Hh Hh' E; [contradiction|].
  inversion Hs as [|? ? Hs' Hlt]; subst. rewrite Forall_map, Forall_forall in Hlt.
  destruct Hh as [<- | Hh], Hh' as [<- | Hh']; auto.
  - specialize (Hlt _ Hh'). lia.
  - specialize (Hlt _ Hh). lia.
Qed.

(** X14. In every store that the program can produce, a bulk insert for
    one host name leaves the host row of every other name as it was,
    and keeps every entry that was stored before. *)
Theorem X14_other_hosts_untouched f now entries name other db :
  reachable db -> other <> name ->
  let db' := snd (insertLogEntries f now entries name db) in
  host_rows other db' = host_rows other db /\
  (forall r, In r (log_entries db) -> In r (log_entries db')).
Proof.
  intros Hr Hne. cbv zeta. split.
  - unfold host_rows. rewrite insertLogEntries_hosts. unfold getOrCreateHost.
    destruct (find _ (hosts db)) as [h|] eqn:E; cbn [snd hosts].
    + destruct (reachable_ids db Hr) as (_ & _ & Hs & _).
      pose proof (find_some _ _ E) as [Hin Hname]. apply str_eqb_eq in Hname.
      revert Hs Hin. generalize (hosts db) as l.
      intros l Hs Hin.
      assert (Hl : forall a, In a l -> str_eqb (hostname a) other = true ->
                     (host_id a =? host_id h) = false).
      { intros a Ha Hn. apply str_eqb_eq in Hn. apply Z.eqb_neq. intros Hid.
        apply (sorted_ids_unique l a h Hs Ha Hin) in Hid. subst a. congruence. }
      clear Hs Hin. induction l as [|a l IH]; cbn [map filter]; [reflexivity|].
      assert (Ea : hostname (if host_id a =? host_id h then set_updated_at now a else a)
                   = hostname a) by now destruct (host_id a =? host_id h).
      rewrite Ea. destruct (str_eqb (hostname a) other) eqn:Eo.
      * rewrite (Hl a (or_introl eq_refl) Eo). f_equal.
        apply IH. intros x Hx. apply Hl. now right.
      * apply IH. intros x Hx. apply Hl. now right.
    + rewrite filter_app. cbn [filter hostname].
      assert (En : str_eqb name other = false) by (apply str_eqb_neq; congruence).
      rewrite En. apply app_nil_r.
  - intros r Hin.
    destruct (insertLogEntries_cases f now entries name db) as [E|E]; rewrite E;
      cbn [snd]; unfold committed; cbn [log_entries];
      rewrite (proj1 (getOrCreateHost_keeps_entries now name db));
      [apply in_or_app; now left | exact Hin].
Qed.

Lemma X14_witness :
  let db' := snd (insertLogEntries noFaults 6000 [sample_entry]
                    (js "blog.example.com") sample_db) in
  js "example.com" <> js "blog.example.com" /\
  host_rows (js "example.com") db' = host_rows (js "example.com") sample_db /\
  (forall r, In r (log_entries sample_db) -> In r (log_entries db')).
Proof.
  split; [discriminate|].
  apply (X14_other_hosts_untouched noFaults 6000 [sample_entry]
           (js "blog.example.com") (js "example.com") sample_db).
  - apply load_entries_reachable.
  - discriminate.
Defined.

(** ** The outcomes of [loadLogFile] *)

(** X15. What [loadLogFile] leaves behind.  When it succeeds, the file
    was readable, the host name was not blank, the content held at
    least one entry, and the store has exactly the entries of the content
    more, in the order of the file, so that [getLogCount] grows by their
    number.  When it fails in the storage engine the store is as
    [getOrCreateHost] left it; when it fails for any other reason the
    store is untouched. *)
Theorem X15_loadLogFile_outcomes tz fs f now filePath name db :
  let res := loadLogFile tz fs f now filePath name db in
  match fst res with
  | Done =>
      exists content,
        fs filePath = File content /\ trim name <> [] /\
        parseLogFile tz content <> [] /\
        log_entries (snd res)
        = log_entries db
          ++ rows_from (log_entries_seq db) (fst (getOrCreateHost now name db))
               (parseLogFile tz content) /\
        getLogCount (snd res)
        = getLogCount db + Z.of_nat (List.length (parseLogFile tz content))
  | Failed StorageFailure =>
      snd res = snd (getOrCreateHost now name db)
  | Failed _ => snd res = db
  end.
Proof.
  cbv zeta. unfold loadLogFile, existsSync, readFileSync.
  destruct (fs filePath) as [| |content] eqn:Efs; cbn [negb fst snd];
    try reflexivity.
  - destruct (hostname_missing name); reflexivity.
  - destruct (hostname_missing name) eqn:Eh; [reflexivity|].
    destruct (parseLogFile tz content) as [|e es] eqn:Ep; [reflexivity|].
    destruct (insertLogEntries_cases f now (e :: es) name db) as [E|E]; rewrite E;
      cbn [fst snd]; [|reflexivity].
    exists content. split; [reflexivity|]. split.
    { intros Ht. apply hostname_missing_blank in Ht. congruence. }
    rewrite Ep. split; [discriminate|].
    unfold committed, getLogCount. cbn [log_entries].
    destruct (getOrCreateHost_keeps_entries now name db) as (A & _ & B).
    rewrite A, B. split; [reflexivity|].
    rewrite length_app, Nat2Z.inj_add. f_equal. f_equal.
    generalize (log_entries_seq db) as s. generalize (e :: es) as l.
    induction l as [|x l IH]; intros s; cbn [rows_from List.length]; [reflexivity|].
    now rewrite IH.
Qed.

(** X29. The outcome of [loadLogFile], check by check: the file is looked
    for first, then the host name is tested, then the file is read, then
    its content is parsed.  It fails with [InputNotFound] exactly when
    the file does not exist, with [InvalidHost] exactly when the file
    exists and the host name is blank, with [ReadFailure] exactly when
    the file exists, cannot be read and the host name is not blank, with
    [EmptyResult] exactly when the file is read, the host name is not
    blank and no line of the content parses; and without storage faults
    it succeeds in exactly the remaining case. *)
Theorem X29_loadLogFile_result tz fs f now filePath name db :
  let res := fst (loadLogFile tz fs f now filePath name db) in
  (res = Failed InputNotFound <-> fs filePath = Missing) /\
  (res = Failed InvalidHost <-> fs filePath <> Missing /\ trim name = []) /\
  (res = Failed ReadFailure <-> fs filePath = Unreadable /\ trim name <> []) /\
  (res = Failed EmptyResult <->
   exists content, fs filePath = File content /\ trim name <> []
                   /\ parseLogFile tz content = []) /\
  (fst (loadLogFile tz fs noFaults now filePath name db) = Done <->
   exists content, fs filePath = File content /\ trim name <> []
                   /\ parseLogFile tz content <> []).
Proof.
  cbv zeta. unfold loadLogFile, existsSync, readFileSync.
  pose proof (hostname_missing_blank name) as Hb.
  destruct (fs filePath) as [| |content] eqn:Efs; cbn [negb fst snd].
  - repeat split; try discriminate; try tauto; try congruence;
      try (intros (c & Hc & _); discriminate); intros [Hc _]; congruence.
  - destruct (hostname_missing name) eqn:Eh; cbn [fst].
    + assert (Ht : trim name = []) by now apply Hb.
      repeat split; try discriminate; try tauto; try congruence;
        try (intros (c & Hc & _); discriminate); intros [_ Hc]; congruence.
    + assert (Ht : trim name <> []) by (intros E; apply Hb in E; congruence).
      repeat split; try discriminate; try tauto; try congruence;
        try (intros (c & Hc & _); discriminate); intros [_ Hc]; congruence.
  - destruct (hostname_missing name) eqn:Eh; cbn [fst].
    + assert (Ht : trim name = []) by now apply Hb.
      repeat split; try discriminate; try tauto; try congruence;
        try (intros (c & _ & Hc & _); congruence); intros [Hc _]; congruence.
    + assert (Ht : trim name <> []) by (intros E; apply Hb in E; congruence).
      destruct (parseLogFile tz content) as [|e es] eqn:Ep; cbn [fst].
      * repeat split; try discriminate; try tauto; try congruence;
          try (intros [Hc _]; congruence).
        -- intros _. exists content. now repeat split.
        -- intros (c & Hc & _ & Hp). injection Hc as <-. congruence.
      * rewrite insertLogEntries_noFaults. cbn [fst].
        destruct (insertLogEntries_cases f now (e :: es) name db) as [E|E];
          rewrite E; cbn [fst];
          repeat split; try discriminate; try tauto; try congruence;
            try (intros [Hc _]; congruence);
            try (intros (c & Hc & _ & Hp); injection Hc as <-; congruence);
            intros _; exists content; repeat split; try assumption;
              rewrite Ep; discriminate.
Qed.

(** ** The empty store *)

Lemma sql_limit_nil {A : Type} n : sql_limit n (@nil A) = [].
Proof. unfold sql_limit. destruct (n <? 0); [reflexivity | apply firstn_nil]. Qed.

(** X16. On a store without entries, such as a new one or one after
    [clearAllData], [analyze] returns six empty reports and a summary
    of zero requests, zero addresses, zero bytes, no status code, and
    the most active day [N/A]. *)
Theorem X16_empty_store_reports subDays now l1 l2 l3 l4 l5 db :
  log_entries db = [] ->
  analyze subDays now l1 l2 l3 l4 l5 db
  = AnalysisResults.mk [] [] [] [] [] []
      (Summary.mk 0 0 0 (js "N/A") []).
Proof.
  intros E. unfold analyze, getUserAgentStats, getPageStats, getReferrerStats,
    getErrorStats, getBandwidthStats, getTopIPs, calculateSummary, getLogCount.
  rewrite E. cbn [filter group_by map nodup order_by fold_right List.length
                  count_distinct_ip sum_of Z.of_nat].
  now rewrite !sql_limit_nil.
Qed.

Lemma X16_witness :
  analyze subDays_fixed (instant 2025 9 8 0 0 0 0) 50 50 50 50 50
    (clearAllData sample_db)
  = AnalysisResults.mk [] [] [] [] [] [] (Summary.mk 0 0 0 (js "N/A") []).
Proof.
  apply (X16_empty_store_reports subDays_fixed (instant 2025 9 8 0 0 0 0)
           50 50 50 50 50 (clearAllData sample_db)).
  reflexivity.
Defined.

(* ================================================================== *)
(** * Ranking *)
(* ================================================================== *)

Lemma insert_sorted_In {A : Type} (after : A -> A -> bool) x l w :
  In w (insert_sorted after x l) -> w = x \/ In w l.
Proof.
  intros H. apply (Permutation_in _ (insert_sorted_Permutation after x l)) in H.
  destruct H; auto.
Qed.

Section Ordering.

Variable A : Type.
Variable after : A -> A -> bool.
Hypothesis after_asym : forall x y, after y x = true -> after x y = false.
Hypothesis after_trans :
  forall x y z, after z y = true -> after y x = true -> after z x = true.

Lemma insert_sorted_sorted x l :
  StronglySorted (fun a b => after a b = false) l ->
  StronglySorted (fun a b => after a b = false) (insert_sorted after x l).
Proof.
  induction 1 as [|y l Hs IH Hy]; cbn [insert_sorted].
  - repeat constructor.
  - destruct (after y x) eqn:E.
    + constructor; [now constructor|]. constructor; [now apply after_asym|].
      rewrite Forall_forall in *. intros z Hz. specialize (Hy z Hz).
      destruct (after x z) eqn:Ez; [|reflexivity].
      rewrite (after_trans z x y E Ez) in Hy. discriminate.
    + constructor; [exact IH|]. rewrite Forall_forall in *. intros z Hz.
      apply insert_sorted_In in Hz as [-> | Hz]; auto.
Qed.

Lemma order_by_sorted l :
  StronglySorted (fun a b => after a b = false) (order_by after l).
Proof.
  induction l as [|x l IH]; cbn [order_by fold_right]; [constructor|].
  now apply insert_sorted_sorted.
Qed.

End Ordering.

Lemma StronglySorted_impl {A : Type} (R S : A -> A -> Prop) l :
  (forall a b, R a b -> S a b) -> StronglySorted R l -> StronglySorted S l.
Proof.
  intros HRS. induction 1 as [|x l Hs IH Hx]; constructor; [exact IH|].
  eapply Forall_impl; [|exact Hx]. intros; now apply HRS.
Qed.

Lemma order_by_desc {A : Type} (key : A -> Z) l :
  StronglySorted (fun a b => key b <= key a)
    (order_by (fun y x => key y <? key x) l).
Proof.
  apply StronglySorted_impl with (R := fun a b => (key a <? key b) = false).
  - intros a b H. apply Z.ltb_ge in H. exact H.
  - apply order_by_sorted.
    + intros x y H. apply Z.ltb_lt in H. apply Z.ltb_ge. lia.
    + intros x y z H1 H2. apply Z.ltb_lt in H1, H2. apply Z.ltb_lt. lia.
Qed.

Lemma StronglySorted_app_inv {A : Type} (R : A -> A -> Prop) l1 l2 :
  StronglySorted R (l1 ++ l2) ->
  StronglySorted R l1 /\ forall a b, In a l1 -> In b l2 -> R a b.
Proof.
  induction l1 as [|x l1 IH]; cbn [app]; intros H.
  - split; [constructor | contradiction].
  - inversion H as [|? ? Hs Hx]; subst. destruct (IH Hs) as [Hs1 Hc].
    apply Forall_app in Hx as [Hx1 Hx2]. split; [now constructor|].
    intros a b [<- | Ha] Hb; [|now apply Hc].
    rewrite Forall_forall in Hx2. now apply Hx2.
Qed.

Lemma sql_limit_split {A : Type} n (l : list A) :
  exists rest, l = sql_limit n l ++ rest.
Proof.
  unfold sql_limit. destruct (n <? 0).
  - exists []. now rewrite app_nil_r.
  - exists (skipn (Z.to_nat n) l). now rewrite firstn_skipn.
Qed.

Lemma ranking {B : Type} (key : B -> Z) n rows :
  ranked_cut key (sql_limit n (order_by (fun y x => key y <? key x) rows))
    (order_by (fun y x => key y <? key x) rows).
Proof.
  pose proof (order_by_desc key rows) as Hs.
  destruct (sql_limit_split n (order_by (fun y x => key y <? key x) rows))
    as [rest Hrest].
  rewrite Hrest in Hs. apply StronglySorted_app_inv in Hs as [Hs Hc].
  split; [exact Hs|]. exists rest. split; [exact Hrest|].
  intros r r' Hr Hr'. now apply Hc.
Qed.

Lemma sql_limit_none {A : Type} (l : list A) : sql_limit (-1) l = l.
Proof. reflexivity. Qed.

(** X17. Each of the five windowed reports is in descending order of
    its 30-day request count, and the limit cuts the ranking at its
    tail: the report with a limit is the head of the report without one
    (limit -1), and no row that is cut off has more requests in the
    30-day window than a row that is returned. *)
Theorem X17_reports_ranked subDays now limit db :
  ranked_cut UserAgentStats.requests30d
    (getUserAgentStats subDays now limit db) (getUserAgentStats subDays now (-1) db) /\
  ranked_cut PageStats.requests30d
    (getPageStats subDays now limit db) (getPageStats subDays now (-1) db) /\
  ranked_cut ReferrerStats.requests30d
    (getReferrerStats subDays now limit db) (getReferrerStats subDays now (-1) db) /\
  ranked_cut ErrorStats.requests30d
    (getErrorStats subDays now limit db) (getErrorStats subDays now (-1) db) /\
  ranked_cut TopIPStats.requests30d
    (getTopIPs subDays now limit db) (getTopIPs subDays now (-1) db).
Proof.
  unfold getUserAgentStats, getPageStats, getReferrerStats, getErrorStats, getTopIPs.
  cbv zeta. rewrite !sql_limit_none.
  repeat split; apply ranking.
Qed.

(** ** Text order *)

Lemma str_ltb_asym a : forall b, str_ltb a b = true -> str_ltb b a = false.
Proof.
  induction a as [|x a IH]; intros [|y b]; cbn [str_ltb]; intros H;
    try reflexivity; try discriminate.
  apply orb_true_iff in H as [H | H].
  - apply N.ltb_lt in H. apply orb_false_iff. split.
    + apply N.ltb_ge. lia.
    + apply andb_false_iff. left. apply N.eqb_neq. lia.
  - apply andb_true_iff in H as [E H]. apply N.eqb_eq in E. subst y.
    rewrite N.ltb_irrefl, N.eqb_refl. cbn [orb andb]. now apply IH.
Qed.

Lemma str_ltb_trans a : forall b c,
  str_ltb a b = true -> str_ltb b c = true -> str_ltb a c = true.
Proof.
  induction a as [|x a IH]; intros [|y b] [|z c]; cbn [str_ltb]; intros H1 H2;
    try reflexivity; try discriminate.
  apply orb_true_iff in H1. apply orb_true_iff in H2. apply orb_true_iff.
  destruct H1 as [H1 | H1], H2 as [H2 | H2];
    rewrite ?andb_true_iff, ?N.ltb_lt, ?N.eqb_eq in *.
  - left. lia.
  - left. destruct H2 as [-> _]. exact H1.
  - left. destruct H1 as [-> _]. exact H2.
  - right. destruct H1 as [-> H1], H2 as [-> H2]. split; [reflexivity|].
    now apply (IH b c).
Qed.

Lemma str_ltb_total a : forall b, a <> b -> str_ltb a b = true \/ str_ltb b a = true.
Proof.
  induction a as [|x a IH]; intros [|y b] H; cbn [str_ltb];
    [congruence | now left | now right |].
  destruct (N.lt_trichotomy x y) as [L | [E | L]].
  - left. apply orb_true_iff. left. now apply N.ltb_lt.
  - subst y. assert (Hab : a <> b) by congruence.
    rewrite N.ltb_irrefl, N.eqb_refl. cbn [orb andb]. now apply IH.
  - right. apply orb_true_iff. left. now apply N.ltb_lt.
Qed.

(** X18. In every store that the program can produce and whose host
    names are ASCII text, [getAllHosts] returns every host row once, in
    strictly ascending order of host name.  (The host names are taken
    to be ASCII because the order of [str_ltb], by code units, is then
    the order of the BINARY collation of SQLite, by bytes.) *)
Theorem X18_getAllHosts_sorted db :
  reachable db ->
  Forall (fun h => ascii_text (hostname h)) (hosts db) ->
  Permutation (getAllHosts db) (hosts db) /\
  StronglySorted (fun a b => str_ltb (hostname a) (hostname b) = true)
    (getAllHosts db).
Proof.
  intros Hr _. unfold getAllHosts. split; [apply order_by_Permutation|].
  assert (Hs : StronglySorted
                 (fun a b => str_ltb (hostname b) (hostname a) = false)
                 (order_by (fun y x => str_ltb (hostname x) (hostname y)) (hosts db))).
  { apply (order_by_sorted HostRow
             (fun y x => str_ltb (hostname x) (hostname y))).
    - intros x y. apply str_ltb_asym.
    - intros x y z H1 H2. exact (str_ltb_trans _ _ _ H2 H1). }
  assert (Hnd : NoDup (map hostname
                 (order_by (fun y x => str_ltb (hostname x) (hostname y)) (hosts db)))).
  { apply (Permutation_NoDup (l := map hostname (hosts db))).
    - apply Permutation_map, Permutation_sym, order_by_Permutation.
    - now apply reachable_ok in Hr as [Hn _]. }
  revert Hs Hnd.
  generalize (order_by (fun y x => str_ltb (hostname x) (hostname y)) (hosts db)) as l.
  induction l as [|h l IH]; intros Hs Hnd; [constructor|].
  inversion Hs as [|? ? Hs' Hh]; subst. cbn [map] in Hnd.
  inversion Hnd as [|? ? Hnin Hnd']; subst.
  constructor; [now apply IH|].
  rewrite Forall_forall in *. intros b Hb. specialize (Hh b Hb).
  destruct (str_ltb_total (hostname h) (hostname b)) as [L | L]; [|exact L|congruence].
  intros E. apply Hnin. rewrite E. now apply in_map.
Qed.

Lemma X18_witness :
  Permutation (getAllHosts two_hosts_db) (hosts two_hosts_db) /\
  StronglySorted (fun a b => str_ltb (hostname a) (hostname b) = true)
    (getAllHosts two_hosts_db).
Proof.
  apply (X18_getAllHosts_sorted two_hosts_db).
  - unfold two_hosts_db. constructor. apply load_entries_reachable.
  - vm_compute. repeat constructor.
Defined.

(* ================================================================== *)
(** * Reports: rows and keys *)
(* ================================================================== *)

Lemma count_where_filter p q rows :
  count_where p (filter q rows) = count_where (fun r => q r && p r) rows.
Proof.
  unfold count_where. f_equal. f_equal.
  induction rows as [|r rows IH]; cbn [filter]; [reflexivity|].
  destruct (q r); cbn [filter andb]; [|exact IH].
  destruct (p r); [now rewrite IH | exact IH].
Qed.

Lemma count_where_ext p q rows :
  (forall r, p r = q r) -> count_where p rows = count_where q rows.
Proof.
  intros H. unfold count_where. f_equal. f_equal. apply filter_ext. exact H.
Qed.

Lemma sql_limit_length {A : Type} n (l : list A) :
  0 <= n ->
  Z.of_nat (List.length (sql_limit n l)) = Z.min n (Z.of_nat (List.length l)).
Proof.
  intros Hn. unfold sql_limit. destruct (n <? 0) eqn:E; [apply Z.ltb_lt in E; lia|].
  rewrite length_firstn. lia.
Qed.

Lemma order_by_length {A : Type} (after : A -> A -> bool) l :
  List.length (order_by after l) = List.length l.
Proof. apply Permutation_length, order_by_Permutation. Qed.

Lemma report_length {A B : Type} (mk : A -> B) after n (groups : list A) :
  0 <= n ->
  Z.of_nat (List.length (sql_limit n (order_by after (map mk groups))))
  = Z.min n (Z.of_nat (List.length groups)).
Proof.
  intros Hn. now rewrite sql_limit_length, order_by_length, length_map.
Qed.

(** X19. With a limit that is not negative, a report has as many rows as
    the store has distinct keys for it (user agents with their bot flag,
    URLs, referrers other than the empty one and [-], pairs of URL and
    status code from 400 on, addresses), but no more than the limit; the
    bandwidth report has as many rows as the store has dates, but no
    more than 30, and [topStatusCodes] as many as the store has status
    codes, but no more than 10. *)
Theorem X19_reports_length subDays now limit db :
  0 <= limit ->
  let rows := log_entries db in
  Z.of_nat (List.length (getUserAgentStats subDays now limit db))
    = Z.min limit (Z.of_nat (List.length (userAgentGroups db))) /\
  Z.of_nat (List.length (getPageStats subDays now limit db))
    = Z.min limit (distinct jsstring_eq_dec col_url rows) /\
  Z.of_nat (List.length (getReferrerStats subDays now limit db))
    = Z.min limit
        (distinct jsstring_eq_dec col_referrer
           (filter (fun r => negb (str_eqb (col_referrer r) [])
                             && negb (str_eqb (col_referrer r) (js "-"))) rows)) /\
  Z.of_nat (List.length (getErrorStats subDays now limit db))
    = Z.min limit
        (distinct (pair_dec jsstring_eq_dec Z.eq_dec)
           (fun r => (col_url r, col_status_code r))
           (filter (fun r => 400 <=? col_status_code r) rows)) /\
  Z.of_nat (List.length (getTopIPs subDays now limit db))
    = Z.min limit (distinct jsstring_eq_dec col_ip rows) /\
  Z.of_nat (List.length (getBandwidthStats db))
    = Z.min 30 (Z.of_nat (List.length (activeDays db))) /\
  Z.of_nat (List.length (Summary.topStatusCodes (calculateSummary db)))
    = Z.min 10 (Z.of_nat (List.length (statusCodes db))).
Proof.
  intros Hl. cbv zeta.
  unfold getUserAgentStats, getPageStats, getReferrerStats, getErrorStats,
    getTopIPs, getBandwidthStats, calculateSummary, userAgentGroups, activeDays,
    statusCodes, distinct.
  cbv zeta. cbn [Summary.topStatusCodes].
  repeat split; (rewrite report_length by lia); now rewrite group_by_length.
Qed.

Lemma X19_witness :
  let now := instant 2025 9 8 0 0 0 0 in
  let rows := log_entries sample_db in
  Z.of_nat (List.length (getUserAgentStats subDays_fixed now 2 sample_db))
    = Z.min 2 (Z.of_nat (List.length (userAgentGroups sample_db))) /\
  Z.of_nat (List.length (getPageStats subDays_fixed now 2 sample_db))
    = Z.min 2 (distinct jsstring_eq_dec col_url rows) /\
  Z.of_nat (List.length (getReferrerStats subDays_fixed now 2 sample_db))
    = Z.min 2
        (distinct jsstring_eq_dec col_referrer
           (filter (fun r => negb (str_eqb (col_referrer r) [])
                             && negb (str_eqb (col_referrer r) (js "-"))) rows)) /\
  Z.of_nat (List.length (getErrorStats subDays_fixed now 2 sample_db))
    = Z.min 2
        (distinct (pair_dec jsstring_eq_dec Z.eq_dec)
           (fun r => (col_url r, col_status_code r))
           (filter (fun r => 400 <=? col_status_code r) rows)) /\
  Z.of_nat (List.length (getTopIPs subDays_fixed now 2 sample_db))
    = Z.min 2 (distinct jsstring_eq_dec col_ip rows) /\
  Z.of_nat (List.length (getBandwidthStats sample_db))
    = Z.min 30 (Z.of_nat (List.length (activeDays sample_db))) /\
  Z.of_nat (List.length (Summary.topStatusCodes (calculateSummary sample_db)))
    = Z.min 10 (Z.of_nat (List.length (statusCodes sample_db))).
Proof.
  apply (X19_reports_length subDays_fixed (instant 2025 9 8 0 0 0 0) 2 sample_db).
  lia.
Defined.

(** ** One row per key *)

Lemma NoDup_firstn {A : Type} n (l : list A) : NoDup l -> NoDup (firstn n l).
Proof.
  intros H. rewrite <- (firstn_skipn n l) in H. now apply NoDup_app_remove_r in H.
Qed.

Lemma sql_limit_NoDup {A : Type} n (l : list A) : NoDup l -> NoDup (sql_limit n l).
Proof. unfold sql_limit. destruct (n <? 0); [auto | apply NoDup_firstn]. Qed.

Lemma sql_limit_map {A B : Type} (f : A -> B) n l :
  map f (sql_limit n l) = sql_limit n (map f l).
Proof.
  unfold sql_limit. destruct (n <? 0); [reflexivity | symmetry; apply firstn_map].
Qed.

Lemma report_keys_NoDup {K B : Type} (K_dec : forall a b : K, {a = b} + {a <> b})
  (key : LogRow -> K) (mk : K * list LogRow -> B) (kof : B -> K) after n rows :
  (forall g, kof (mk g) = fst g) ->
  NoDup (map kof (sql_limit n (order_by after (map mk (group_by K_dec key rows))))).
Proof.
  intros Hk. rewrite sql_limit_map. apply sql_limit_NoDup.
  apply (Permutation_NoDup
           (l := map kof (map mk (group_by K_dec key rows)))).
  - apply Permutation_map, Permutation_sym, order_by_Permutation.
  - rewrite map_map. rewrite (map_ext _ fst) by exact Hk.
    unfold group_by. rewrite map_map. cbn [fst]. rewrite map_id.
    apply NoDup_nodup.
Qed.

(** X20. No report has two rows for the same key: the page report for
    the same URL, the referrer report for the same referrer, the error
    report for the same URL and status code, the IP report for the same
    address, the bandwidth report for the same date, [topStatusCodes]
    for the same code. *)
Theorem X20_report_keys_unique subDays now limit db :
  NoDup (map PageStats.url (getPageStats subDays now limit db)) /\
  NoDup (map ReferrerStats.referrer (getReferrerStats subDays now limit db)) /\
  NoDup (map (fun r => (ErrorStats.url r, ErrorStats.statusCode r))
             (getErrorStats subDays now limit db)) /\
  NoDup (map TopIPStats.ip (getTopIPs subDays now limit db)) /\
  NoDup (map BandwidthStats.date (getBandwidthStats db)) /\
  NoDup (map StatusCodeCount.code (Summary.topStatusCodes (calculateSummary db))).
Proof.
  unfold getPageStats, getReferrerStats, getErrorStats, getTopIPs,
    getBandwidthStats, calculateSummary.
  cbv zeta. cbn [Summary.topStatusCodes].
  repeat split; apply report_keys_NoDup; intros g;
    repeat match goal with g : (_ * _)%type |- _ => destruct g end; reflexivity.
Qed.

(** ** What a row counts *)

Lemma group_by_key_In {K : Type} (K_dec : forall a b : K, {a = b} + {a <> b})
  (key : LogRow -> K) rows g :
  In g (group_by K_dec key rows) -> exists x, In x rows /\ key x = fst g.
Proof.
  unfold group_by. intros H. apply in_map_iff in H as (k & <- & Hk).
  apply nodup_In, in_map_iff in Hk as (x & Hx & Hin). exists x. auto.
Qed.

Lemma group_count {K : Type} (K_dec : forall a b : K, {a = b} + {a <> b})
  (key : LogRow -> K) rows g p :
  In g (group_by K_dec key rows) ->
  count_where p (snd g)
  = count_where (fun x => (if K_dec (key x) (fst g) then true else false) && p x)
      rows.
Proof.
  intros H. rewrite (group_by_inv K_dec key rows g H). apply count_where_filter.
Qed.

(** X21. Every row of the page report stands for a URL that occurs in
    the store, every row of the IP report for an address that does, and
    the three request counts of the row are the numbers of stored
    entries with that URL, or that address, in the three windows. *)
Theorem X21_rows_count_their_key subDays now limit db :
  (forall r, In r (getPageStats subDays now limit db) ->
     let mine x := str_eqb (col_url x) (PageStats.url r) in
     (exists x, In x (log_entries db) /\ mine x = true) /\
     PageStats.requests1d r = hits mine (subDays now 1) db /\
     PageStats.requests7d r = hits mine (subDays now 7) db /\
     PageStats.requests30d r = hits mine (subDays now 30) db) /\
  (forall r, In r (getTopIPs subDays now limit db) ->
     let mine x := str_eqb (col_ip x) (TopIPStats.ip r) in
     (exists x, In x (log_entries db) /\ mine x = true) /\
     TopIPStats.requests1d r = hits mine (subDays now 1) db /\
     TopIPStats.requests7d r = hits mine (subDays now 7) db /\
     TopIPStats.requests30d r = hits mine (subDays now 30) db).
Proof.
  split; intros r Hr; cbv zeta.
  - unfold getPageStats in Hr. cbv zeta in Hr. apply report_row_inv in Hr.
    destruct Hr as ([u rows] & Hg & ->). cbn [PageStats.url PageStats.requests1d
      PageStats.requests7d PageStats.requests30d]. split.
    + destruct (group_by_key_In _ _ _ _ Hg) as (x & Hx & Hk). exists x.
      split; [exact Hx | now apply str_eqb_eq].
    + unfold hits.
      repeat split;
        exact (group_count jsstring_eq_dec col_url _ (u, rows) _ Hg).
  - unfold getTopIPs in Hr. cbv zeta in Hr. apply report_row_inv in Hr.
    destruct Hr as ([u rows] & Hg & ->). cbn [TopIPStats.ip TopIPStats.requests1d
      TopIPStats.requests7d TopIPStats.requests30d]. split.
    + destruct (group_by_key_In _ _ _ _ Hg) as (x & Hx & Hk). exists x.
      split; [exact Hx | now apply str_eqb_eq].
    + unfold hits.
      repeat split;
        exact (group_count jsstring_eq_dec col_ip _ (u, rows) _ Hg).
Qed.

Lemma pair_key_eqb (x : LogRow) u c :
  (if pair_dec jsstring_eq_dec Z.eq_dec (col_url x, col_status_code x) (u, c)
   then true else false)
  = str_eqb (col_url x) u && (col_status_code x =? c).
Proof.
  destruct (pair_dec _ _ _ _) as [E|E].
  - injection E as -> ->. now rewrite str_eqb_refl, Z.eqb_refl.
  - destruct (str_eqb (col_url x) u) eqn:E1; [|reflexivity].
    destruct (col_status_code x =? c) eqn:E2; [|reflexivity].
    apply str_eqb_eq in E1. apply Z.eqb_eq in E2. exfalso. apply E. congruence.
Qed.

(** X22. The referrer report has no row for the empty referrer or for
    the referrer [-], and the error report has rows only for status
    codes from 400 on.  Each row stands for a referrer, or a pair of
    URL and status code, that occurs in the store, and its three counts
    are the numbers of stored entries with it in the three windows. *)
Theorem X22_filtered_reports subDays now limit db :
  (forall r, In r (getReferrerStats subDays now limit db) ->
     let mine x := str_eqb (col_referrer x) (ReferrerStats.referrer r) in
     ReferrerStats.referrer r <> [] /\ ReferrerStats.referrer r <> js "-" /\
     (exists x, In x (log_entries db) /\ mine x = true) /\
     ReferrerStats.requests1d r = hits mine (subDays now 1) db /\
     ReferrerStats.requests7d r = hits mine (subDays now 7) db /\
     ReferrerStats.requests30d r = hits mine (subDays now 30) db) /\
  (forall r, In r (getErrorStats subDays now limit db) ->
     let mine x := str_eqb (col_url x) (ErrorStats.url r)
                   && (col_status_code x =? ErrorStats.statusCode r) in
     400 <= ErrorStats.statusCode r /\
     (exists x, In x (log_entries db) /\ mine x = true) /\
     ErrorStats.requests1d r = hits mine (subDays now 1) db /\
     ErrorStats.requests7d r = hits mine (subDays now 7) db /\
     ErrorStats.requests30d r = hits mine (subDays now 30) db).
Proof.
  split; intros r Hr; cbv zeta.
  - unfold getReferrerStats in Hr. cbv zeta in Hr. apply report_row_inv in Hr.
    destruct Hr as ([u rows] & Hg & ->).
    cbn [ReferrerStats.referrer ReferrerStats.requests1d ReferrerStats.requests7d
         ReferrerStats.requests30d].
    destruct (group_by_key_In _ _ _ _ Hg) as (x & Hx & Hk). cbn [fst] in Hk.
    apply filter_In in Hx as [Hx Hsel].
    apply andb_true_iff in Hsel as [S1 S2].
    apply negb_true_iff, str_eqb_neq in S1, S2. subst u.
    split; [exact S1|]. split; [exact S2|].
    split; [exists x; split; [exact Hx | apply str_eqb_refl]|].
    assert (Hc : forall th,
               count_where (since th) rows
               = hits (fun y => str_eqb (col_referrer y) (col_referrer x)) th db).
    { intros th.
      pose proof (group_count jsstring_eq_dec col_referrer _ _ (since th) Hg) as Hgc.
      cbn [fst snd] in Hgc. rewrite Hgc, count_where_filter. unfold hits.
      apply count_where_ext. intros y.
      change (if jsstring_eq_dec (col_referrer y) (col_referrer x) then true else false)
        with (str_eqb (col_referrer y) (col_referrer x)).
      destruct (str_eqb (col_referrer y) (col_referrer x)) eqn:E;
        [|now rewrite andb_false_r].
      apply str_eqb_eq in E. rewrite E.
      apply str_eqb_neq in S1, S2. now rewrite S1, S2. }
    now rewrite !Hc.
  - unfold getErrorStats in Hr. cbv zeta in Hr. apply report_row_inv in Hr.
    destruct Hr as ([[u c] rows] & Hg & ->).
    cbn [ErrorStats.url ErrorStats.statusCode ErrorStats.requests1d
         ErrorStats.requests7d ErrorStats.requests30d].
    destruct (group_by_key_In _ _ _ _ Hg) as (x & Hx & Hk). cbn [fst] in Hk.
    apply filter_In in Hx as [Hx Hsel]. injection Hk as <- <-.
    apply Z.leb_le in Hsel. split; [exact Hsel|].
    split; [exists x; split; [exact Hx | now rewrite str_eqb_refl, Z.eqb_refl]|].
    assert (Hc : forall th,
               count_where (since th) rows
               = hits (fun y => str_eqb (col_url y) (col_url x)
                                && (col_status_code y =? col_status_code x)) th db).
    { intros th.
      pose proof (group_count (pair_dec jsstring_eq_dec Z.eq_dec)
                    (fun r => (col_url r, col_status_code r)) _ _ (since th) Hg)
        as Hgc.
      cbn [fst snd] in Hgc. rewrite Hgc, count_where_filter. unfold hits.
      apply count_where_ext. intros y. rewrite pair_key_eqb.
      destruct (str_eqb (col_url y) (col_url x)); [|now rewrite andb_false_r].
      destruct (col_status_code y =? col_status_code x) eqn:E; [|now rewrite andb_false_r].
      apply Z.eqb_eq in E. rewrite E.
      apply Z.leb_le in Hsel. now rewrite Hsel. }
    now rewrite !Hc.
Qed.

(* ================================================================== *)
(** * Reports on the stores that the program produces *)
(* ================================================================== *)

Lemma count_where_ext_in p q rows :
  (forall r, In r rows -> p r = q r) -> count_where p rows = count_where q rows.
Proof.
  intros H. unfold count_where. f_equal. f_equal.
  induction rows as [|r rows IH]; cbn [filter]; [reflexivity|].
  rewrite (H r (or_introl eq_refl)), IH; [reflexivity|].
  intros x Hx. apply H. now right.
Qed.

Lemma report_NoDup {B K : Type} (kof : B -> K) after n (l : list B) :
  NoDup (map kof l) -> NoDup (map kof (sql_limit n (order_by after l))).
Proof.
  intros H. rewrite sql_limit_map. apply sql_limit_NoDup.
  apply (Permutation_NoDup (l := map kof l)); [|exact H].
  apply Permutation_map, Permutation_sym, order_by_Permutation.
Qed.

Lemma NoDup_map_fst {A B : Type} (g : A -> B) (l : list (A * B)) :
  NoDup l -> (forall p, In p l -> snd p = g (fst p)) -> NoDup (map fst l).
Proof.
  induction 1 as [|a l Hn Hnd IH]; intros Hg; cbn [map]; constructor.
  - intros Hin. apply in_map_iff in Hin as (p & Hp & Hin). apply Hn.
    assert (p = a); [|now subst].
    destruct p as [p1 p2], a as [a1 a2]. cbn [fst] in Hp. subst p1.
    pose proof (Hg _ (or_intror Hin)) as E1. pose proof (Hg _ (or_introl eq_refl)) as E2.
    cbn [fst snd] in E1, E2. congruence.
  - apply IH. intros p Hp. apply Hg. now right.
Qed.

Lemma flag_of_agent db x :
  reachable db -> In x (log_entries db) ->
  col_is_bot x = if isBot (col_user_agent x) then 1 else 0.
Proof.
  intros Hr Hx. pose proof (reachable_rows db Hr) as H.
  rewrite Forall_forall in H. now destruct (H x Hx) as (_ & E & _).
Qed.

(** X23. In every store that the program can produce, the user-agent
    report has no two rows for the same user agent; the bot flag of a
    row is what [isBot] says of its user agent, the user agent occurs
    in the store, and the three counts of the row are the numbers of
    stored entries with that user agent in the three windows. *)
Theorem X23_userAgent_rows subDays now limit db :
  reachable db ->
  NoDup (map UserAgentStats.userAgent (getUserAgentStats subDays now limit db)) /\
  forall r, In r (getUserAgentStats subDays now limit db) ->
    let mine x := str_eqb (col_user_agent x) (UserAgentStats.userAgent r) in
    UserAgentStats.isBot r = isBot (UserAgentStats.userAgent r) /\
    (exists x, In x (log_entries db) /\ mine x = true) /\
    UserAgentStats.requests1d r = hits mine (subDays now 1) db /\
    UserAgentStats.requests7d r = hits mine (subDays now 7) db /\
    UserAgentStats.requests30d r = hits mine (subDays now 30) db.
Proof.
  intros Hreach. unfold getUserAgentStats. cbv zeta. split.
  - apply report_NoDup. rewrite map_map.
    rewrite (map_ext _ (fun g : (jsstring * Z) * list LogRow => fst (fst g)))
      by (intros [[ua b] rows]; reflexivity).
    unfold group_by. rewrite map_map. cbn [fst].
    apply (NoDup_map_fst (fun ua => if isBot ua then 1 else 0)).
    + apply NoDup_nodup.
    + intros p Hp. apply nodup_In, in_map_iff in Hp as (x & <- & Hx).
      cbn [fst snd]. now apply flag_of_agent with (db := db).
  - intros r Hr. apply report_row_inv in Hr. destruct Hr as ([[ua b] rows] & Hg & ->).
    cbn [UserAgentStats.userAgent UserAgentStats.isBot UserAgentStats.requests1d
         UserAgentStats.requests7d UserAgentStats.requests30d].
    destruct (group_by_key_In _ _ _ _ Hg) as (x & Hx & Hk). cbn [fst] in Hk.
    injection Hk as <- <-.
    split.
    { rewrite (flag_of_agent db x Hreach Hx). now destruct (isBot (col_user_agent x)). }
    split; [exists x; split; [exact Hx | apply str_eqb_refl]|].
    assert (Hc : forall th,
               count_where (since th) rows
               = hits (fun y => str_eqb (col_user_agent y) (col_user_agent x)) th db).
    { intros th.
      pose proof (group_count (pair_dec jsstring_eq_dec Z.eq_dec)
                    (fun r => (col_user_agent r, col_is_bot r)) _ _ (since th) Hg)
        as Hgc.
      cbn [fst snd] in Hgc. rewrite Hgc. unfold hits.
      apply count_where_ext_in. intros y Hy. f_equal.
      destruct (pair_dec _ _ _ _) as [E|E].
      - injection E as E _. rewrite E. symmetry. apply str_eqb_refl.
      - symmetry. apply str_eqb_neq. intros Eua. apply E.
        rewrite (flag_of_agent db y Hreach Hy), (flag_of_agent db x Hreach Hx).
        now rewrite Eua. }
    now rewrite !Hc.
Qed.

Lemma X23_witness :
  let report := getUserAgentStats subDays_fixed (instant 2025 9 8 0 0 0 0) 50
                  sample_db in
  reachable sample_db /\
  NoDup (map UserAgentStats.userAgent report) /\
  forall r, In r report ->
    let mine x := str_eqb (col_user_agent x) (UserAgentStats.userAgent r) in
    UserAgentStats.isBot r = isBot (UserAgentStats.userAgent r) /\
    (exists x, In x (log_entries sample_db) /\ mine x = true) /\
    UserAgentStats.requests1d r
      = hits mine (subDays_fixed (instant 2025 9 8 0 0 0 0) 1) sample_db /\
    UserAgentStats.requests7d r
      = hits mine (subDays_fixed (instant 2025 9 8 0 0 0 0) 7) sample_db /\
    UserAgentStats.requests30d r
      = hits mine (subDays_fixed (instant 2025 9 8 0 0 0 0) 30) sample_db.
Proof.
  split; [apply load_entries_reachable|].
  apply (X23_userAgent_rows subDays_fixed (instant 2025 9 8 0 0 0 0) 50 sample_db).
  apply load_entries_reachable.
Defined.

(** ** The bot flag of an address *)

Lemma fold_max_flags l : forall a,
  (a = 0 \/ a = 1) -> Forall (fun z => z = 0 \/ z = 1) l ->
  (fold_left Z.max l a = 1 /\ (a = 1 \/ In 1 l))
  \/ (fold_left Z.max l a = 0 /\ a = 0 /\ Forall (fun z => z = 0) l).
Proof.
  induction l as [|z l IH]; intros a Ha Hl; cbn [fold_left].
  - destruct Ha as [-> | ->]; [right | left]; auto.
  - inversion Hl as [|? ? Hz Hl']; subst.
    assert (Hm : Z.max a z = 0 \/ Z.max a z = 1) by lia.
    destruct (IH (Z.max a z) Hm Hl') as [[E H] | (E & H0 & Hall)].
    + left. split; [exact E|]. destruct H as [H | H]; [|right; now right].
      destruct Ha as [-> | ->], Hz as [-> | ->]; cbn in H; try discriminate; auto.
      right. now left.
    + right. split; [exact E|].
      destruct Ha as [-> | ->], Hz as [-> | ->]; cbn in H0; try discriminate.
      split; [reflexivity|]. now constructor.
Qed.

Lemma max_is_bot_flag rows :
  Forall bot_flag_ok rows ->
  Boolean (max_is_bot rows) = existsb (fun y => col_is_bot y =? 1) rows.
Proof.
  intros H. destruct rows as [|r rows]; [reflexivity|].
  inversion H as [|? ? Hr Hrows]; subst. cbn [max_is_bot existsb].
  assert (Hl : Forall (fun z => z = 0 \/ z = 1) (map col_is_bot rows)).
  { rewrite Forall_map. exact Hrows. }
  destruct (fold_max_flags _ _ Hr Hl) as [[E Hin] | (E & H0 & Hall)]; rewrite E.
  - cbn. symmetry. destruct Hin as [-> | Hin]; [reflexivity|].
    apply orb_true_iff. right. apply existsb_exists.
    apply in_map_iff in Hin as (y & Hy & Hin). exists y. split; [exact Hin|].
    now rewrite Hy.
  - cbn. symmetry. rewrite H0. cbn [Z.eqb orb].
    destruct (existsb _ rows) eqn:Ex; [|reflexivity].
    apply existsb_exists in Ex as (y & Hy & Hy1). apply Z.eqb_eq in Hy1.
    rewrite Forall_map, Forall_forall in Hall. specialize (Hall y Hy). lia.
Qed.

(** X24. In every store that the program can produce, a row of the IP
    report is flagged as a bot exactly when [isBot] accepts the user
    agent of at least one stored entry from that address. *)
Theorem X24_topIPs_isBot subDays now limit db r :
  reachable db -> In r (getTopIPs subDays now limit db) ->
  TopIPStats.isBot r = true <->
  exists x, In x (log_entries db) /\ col_ip x = TopIPStats.ip r
            /\ isBot (col_user_agent x) = true.
Proof.
  intros Hreach Hr. unfold getTopIPs in Hr. cbv zeta in Hr.
  apply report_row_inv in Hr. destruct Hr as ([a rows] & Hg & ->).
  cbn [TopIPStats.isBot TopIPStats.ip].
  pose proof (group_by_inv jsstring_eq_dec col_ip _ _ Hg) as Hrows.
  cbn [fst snd] in Hrows.
  assert (Hflags : Forall bot_flag_ok rows).
  { apply reachable_ok in Hreach as [_ Hf]. rewrite Forall_forall in *.
    intros y Hy. apply Hf. rewrite Hrows in Hy. now apply filter_In in Hy. }
  rewrite (max_is_bot_flag rows Hflags), existsb_exists. split.
  - intros (y & Hy & Hb). rewrite Hrows in Hy. apply filter_In in Hy as [Hy Hip].
    exists y. split; [exact Hy|]. split.
    + now destruct (jsstring_eq_dec (col_ip y) a).
    + apply Z.eqb_eq in Hb. rewrite (flag_of_agent db y Hreach Hy) in Hb.
      destruct (isBot (col_user_agent y)); [reflexivity | discriminate].
  - intros (y & Hy & Hip & Hb). exists y. split.
    + rewrite Hrows. apply filter_In. split; [exact Hy|].
      now destruct (jsstring_eq_dec (col_ip y) a).
    + rewrite (flag_of_agent db y Hreach Hy), Hb. reflexivity.
Qed.

Lemma X24_witness :
  let r := TopIPStats.mk (js "172.16.6.142") 3 5 5 true in
  In r (getTopIPs subDays_fixed (instant 2025 9 8 0 0 0 0) 50 sample_db) /\
  (TopIPStats.isBot r = true <->
   exists x, In x (log_entries sample_db) /\ col_ip x = TopIPStats.ip r
             /\ isBot (col_user_agent x) = true).
Proof.
  assert (H : In (TopIPStats.mk (js "172.16.6.142") 3 5 5 true)
                (getTopIPs subDays_fixed (instant 2025 9 8 0 0 0 0) 50 sample_db))
    by (vm_compute; left; reflexivity).
  split; [exact H|].
  exact (X24_topIPs_isBot subDays_fixed (instant 2025 9 8 0 0 0 0) 50 sample_db _
           (load_entries_reachable _) H).
Defined.

(** ** Distinct addresses *)

Lemma nodup_length_le {A : Type} (dec : forall a b : A, {a = b} + {a <> b}) l :
  (List.length (nodup dec l) <= List.length l)%nat.
Proof.
  induction l as [|x l IH]; cbn [nodup List.length]; [lia|].
  destruct (in_dec dec x l); cbn [List.length]; lia.
Qed.

Lemma nodup_nonempty {A : Type} (dec : forall a b : A, {a = b} + {a <> b}) l :
  l <> [] -> nodup dec l <> [].
Proof.
  destruct l as [|x l]; [contradiction|]. intros _ E.
  assert (H : In x (nodup dec (x :: l))) by (apply nodup_In; now left).
  rewrite E in H. contradiction.
Qed.

Lemma count_distinct_ip_bounds p rows :
  count_distinct_ip p rows <= count_where p rows /\
  (0 < count_where p rows -> 0 < count_distinct_ip p rows).
Proof.
  unfold count_distinct_ip, count_where. split.
  - pose proof (nodup_length_le jsstring_eq_dec (map col_ip (filter p rows))) as H.
    rewrite length_map in H. lia.
  - intros H. destruct (filter p rows) as [|x l] eqn:E; [cbn in H; lia|].
    pose proof (nodup_nonempty jsstring_eq_dec (map col_ip (x :: l))) as Hn.
    destruct (nodup jsstring_eq_dec (map col_ip (x :: l)));
      [exfalso; apply Hn; [discriminate | reflexivity] | cbn [List.length]; lia].
Qed.

(** X25. In each window of each row of the page report, and in the
    summary, the number of distinct addresses is at most the number of
    requests, and it is not zero when there was a request. *)
Theorem X25_unique_ips_bounded subDays now limit db :
  (forall r, In r (getPageStats subDays now limit db) ->
     (PageStats.uniqueIPs1d r <= PageStats.requests1d r /\
      (0 < PageStats.requests1d r -> 0 < PageStats.uniqueIPs1d r)) /\
     (PageStats.uniqueIPs7d r <= PageStats.requests7d r /\
      (0 < PageStats.requests7d r -> 0 < PageStats.uniqueIPs7d r)) /\
     (PageStats.uniqueIPs30d r <= PageStats.requests30d r /\
      (0 < PageStats.requests30d r -> 0 < PageStats.uniqueIPs30d r))) /\
  (Summary.totalUniqueIPs (calculateSummary db)
     <= Summary.totalRequests (calculateSummary db) /\
   (0 < Summary.totalRequests (calculateSummary db) ->
    0 < Summary.totalUniqueIPs (calculateSummary db))).
Proof.
  split.
  - intros r Hr. unfold getPageStats in Hr. cbv zeta in Hr.
    apply report_row_inv in Hr. destruct Hr as ([u rows] & _ & ->).
    cbn [PageStats.uniqueIPs1d PageStats.uniqueIPs7d PageStats.uniqueIPs30d
         PageStats.requests1d PageStats.requests7d PageStats.requests30d].
    repeat split; apply count_distinct_ip_bounds.
  - rewrite totalRequests_count. unfold calculateSummary. cbv zeta.
    cbn [Summary.totalUniqueIPs]. apply count_distinct_ip_bounds.
Qed.

(* ================================================================== *)
(** * The summary and the bandwidth report *)
(* ================================================================== *)

Lemma sorted_strict {A K : Type} (R : A -> A -> bool) (k : A -> K) l :
  (forall a b, k a <> k b -> R a b = true \/ R b a = true) ->
  NoDup (map k l) ->
  StronglySorted (fun a b => R b a = false) l ->
  StronglySorted (fun a b => R a b = true) l.
Proof.
  intros Htot. induction l as [|h l IH]; intros Hnd Hs; [constructor|].
  inversion Hs as [|? ? Hs' Hh]; subst. cbn [map] in Hnd.
  inversion Hnd as [|? ? Hnin Hnd']; subst.
  constructor; [now apply IH|].
  rewrite Forall_forall in *. intros b Hb. specialize (Hh b Hb).
  destruct (Htot h b) as [L | L]; [|exact L|congruence].
  intros E. apply Hnin. rewrite E. now apply in_map.
Qed.

Lemma group_size {K : Type} (K_dec : forall a b : K, {a = b} + {a <> b})
  (key : LogRow -> K) rows g :
  In g (group_by K_dec key rows) ->
  count_where (fun _ => true) (snd g)
  = count_where (fun x => if K_dec (key x) (fst g) then true else false) rows
  /\ 0 < count_where (fun _ => true) (snd g).
Proof.
  intros Hg. rewrite (group_count K_dec key rows g (fun _ => true) Hg). split.
  - apply count_where_ext. intros r. apply andb_true_r.
  - destruct (group_by_key_In K_dec key rows g Hg) as (x & Hx & Hk).
    unfold count_where.
    assert (Hin : In x (filter (fun x0 => (if K_dec (key x0) (fst g) then true else false)
                                          && true) rows)).
    { apply filter_In. split; [exact Hx|]. rewrite Hk.
      now destruct (K_dec (fst g) (fst g)). }
    destruct (filter _ rows); [contradiction | cbn [List.length]; lia].
Qed.

Lemma toISODate_nonempty t : toISODate t <> [].
Proof.
  unfold toISODate. destruct (civil_from_days (t / msPerDay)) as [[y m] d].
  intros E. apply app_eq_nil in E as [_ E]. discriminate.
Qed.

(** X26. In every store that the program can produce and that holds an
    entry, [mostActiveDay] of the summary is a UTC date on which an
    entry was stored, and no date of the store has more entries. *)
Theorem X26_mostActiveDay_max db :
  reachable db -> log_entries db <> [] ->
  let d := Summary.mostActiveDay (calculateSummary db) in
  In d (activeDays db) /\
  forall day, In day (activeDays db) -> requests_on day db <= requests_on d db.
Proof.
  intros Hreach Hne. cbv zeta. unfold calculateSummary. cbv zeta.
  cbn [Summary.mostActiveDay].
  set (pairs := map (fun g : jsstring * list LogRow =>
                       (fst g, count_where (fun _ => true) (snd g)))
                    (group_by jsstring_eq_dec col_date_only (log_entries db))).
  assert (Hpairs : forall p, In p pairs ->
            In (fst p) (activeDays db) /\ snd p = requests_on (fst p) db).
  { intros p Hp. apply in_map_iff in Hp as (g & <- & Hg). cbn [fst snd]. split.
    - unfold group_by in Hg. apply in_map_iff in Hg as (k & <- & Hk). exact Hk.
    - exact (proj1 (group_size _ _ _ _ Hg)). }
  assert (Hall : forall day, In day (activeDays db) ->
            In (day, requests_on day db) pairs).
  { intros day Hd. apply in_map_iff.
    exists (day, filter (fun r => if jsstring_eq_dec (col_date_only r) day
                                  then true else false) (log_entries db)).
    assert (Hg : In (day, filter (fun r => if jsstring_eq_dec (col_date_only r) day
                                           then true else false) (log_entries db))
                    (group_by jsstring_eq_dec col_date_only (log_entries db))).
    { unfold group_by. apply in_map_iff. exists day. split; [reflexivity | exact Hd]. }
    split; [|exact Hg]. cbn [fst snd]. f_equal.
    exact (proj1 (group_size _ _ _ _ Hg)). }
  pose proof (order_by_desc (@snd jsstring Z) pairs) as Hs.
  pose proof (order_by_Permutation (fun y x : jsstring * Z => snd y <? snd x) pairs)
    as Hperm.
  destruct (order_by (fun y x : jsstring * Z => snd y <? snd x) pairs)
    as [|[d0 c0] rest] eqn:Edays.
  { exfalso. apply Permutation_nil in Hperm.
    destruct (log_entries db) as [|x l] eqn:El; [now apply Hne|].
    assert (Hd : In (col_date_only x) (activeDays db)).
    { unfold activeDays. rewrite El. apply nodup_In. now left. }
    apply Hall in Hd. rewrite Hperm in Hd. contradiction. }
  change (sql_limit 1 ((d0, c0) :: rest)) with [(d0, c0)].
  assert (H0 : In (d0, c0) pairs).
  { apply (Permutation_in _ Hperm). now left. }
  destruct (Hpairs _ H0) as [Hd0 Hc0]. cbn [fst snd] in Hd0, Hc0.
  assert (Hd0ne : d0 <> []).
  { unfold activeDays in Hd0. apply nodup_In, in_map_iff in Hd0 as (x & <- & Hx).
    pose proof (reachable_rows db Hreach) as Hrows. rewrite Forall_forall in Hrows.
    destruct (Hrows x Hx) as (_ & _ & ->). apply toISODate_nonempty. }
  destruct d0 as [|c d0]; [contradiction|]. cbv beta iota.
  split; [exact Hd0|].
  intros day Hday. apply Hall in Hday.
  apply (Permutation_in _ (Permutation_sym Hperm)) in Hday.
  inversion Hs as [|? ? _ Hhead]; subst. rewrite Forall_forall in Hhead.
  destruct Hday as [E | Hin].
  - injection E as <- _. lia.
  - specialize (Hhead _ Hin). cbn [snd] in Hhead. lia.
Qed.

Lemma X26_witness :
  let d := Summary.mostActiveDay (calculateSummary sample_db) in
  log_entries sample_db <> [] /\
  In d (activeDays sample_db) /\
  forall day, In day (activeDays sample_db) ->
    requests_on day sample_db <= requests_on d sample_db.
Proof.
  assert (H : log_entries sample_db <> []) by (vm_compute; discriminate).
  split; [exact H|].
  exact (X26_mostActiveDay_max sample_db (load_entries_reachable _) H).
Defined.

Lemma pad_digits_ascii n : forall v, ascii_text (pad_digits n v).
Proof.
  induction n as [|n IH]; intros v; cbn [pad_digits]; [constructor|].
  apply Forall_app. split; [apply IH|]. constructor; [|constructor].
  pose proof (Z.mod_pos_bound v 10 ltac:(lia)). lia.
Qed.

Lemma toISODate_ascii t : ascii_text (toISODate t).
Proof.
  unfold toISODate. destruct (civil_from_days (t / msPerDay)) as [[y m] d].
  assert (Hdash : ascii_text (js "-")) by (repeat constructor).
  assert (Hplus : ascii_text (js "+")) by (repeat constructor).
  assert (Hys : ascii_text
                  (if (0 <=? y) && (y <=? 9999) then pad_digits 4 y
                   else (if y <? 0 then js "-" else js "+")
                        ++ pad_digits 6 (Z.abs y))).
  { destruct ((0 <=? y) && (y <=? 9999)); [apply pad_digits_ascii|].
    apply Forall_app. split; [|apply pad_digits_ascii].
    destruct (y <? 0); assumption. }
  unfold ascii_text in *. rewrite !Forall_app.
  repeat split; try assumption; apply pad_digits_ascii.
Qed.

Lemma sum_of_filter_bounds (p : LogRow -> bool) rows :
  Forall (fun x => 0 <= col_response_size x) rows ->
  0 <= sum_of col_response_size (filter p rows)
    <= sum_of col_response_size rows.
Proof.
  induction 1 as [|x rows Hx _ IH]; cbn [filter sum_of fold_right]; [lia|].
  fold (sum_of col_response_size rows).
  destruct (p x); cbn [sum_of fold_right];
    fold (sum_of col_response_size (filter p rows)); lia.
Qed.

(** X27. In every store that the program can produce, whose response
    sizes are not negative and sum to at most 2^53 (so that the sums are
    Numbers, which the program reads without rounding): the date of each
    row of the bandwidth report is the UTC date of the time stamp of a
    stored entry, an ASCII text; the row gives the sum of the response
    sizes, itself at most 2^53, and the number of the stored entries of
    that date, which is not zero; the rows are in strictly descending
    order of the date as a text, the order that the query sorts by, and
    a date of the store that is not in the report is below every date
    that is, in that order. *)
Theorem X27_bandwidth_rows db :
  reachable db ->
  Forall (fun x => 0 <= col_response_size x) (log_entries db) ->
  exact_number (sum_of col_response_size (log_entries db)) ->
  (forall r, In r (getBandwidthStats db) ->
     let mine x := str_eqb (col_date_only x) (BandwidthStats.date r) in
     (exists x, In x (log_entries db)
                /\ BandwidthStats.date r = toISODate (col_timestamp x)) /\
     ascii_text (BandwidthStats.date r) /\
     BandwidthStats.totalBytes r
       = sum_of col_response_size (filter mine (log_entries db)) /\
     exact_number (BandwidthStats.totalBytes r) /\
     BandwidthStats.totalRequests r = requests_on (BandwidthStats.date r) db /\
     0 < BandwidthStats.totalRequests r) /\
  StronglySorted
    (fun a b => str_ltb (BandwidthStats.date b) (BandwidthStats.date a) = true)
    (getBandwidthStats db) /\
  (forall day r,
     In day (activeDays db) ->
     ~ In day (map BandwidthStats.date (getBandwidthStats db)) ->
     In r (getBandwidthStats db) ->
     str_ltb day (BandwidthStats.date r) = true).
Proof.
  intros Hreach Hsizes Htotal. unfold getBandwidthStats. cbv zeta.
  set (mk := fun g : jsstring * list LogRow =>
               let '(date, rows) := g in
               BandwidthStats.mk date (sum_of col_response_size rows)
                 (count_where (fun _ => true) rows)).
  set (after := fun y x => str_ltb (BandwidthStats.date y) (BandwidthStats.date x)).
  set (groups := group_by jsstring_eq_dec col_date_only (log_entries db)).
  assert (Hnd : NoDup (map BandwidthStats.date (order_by after (map mk groups)))).
  { apply (Permutation_NoDup (l := map BandwidthStats.date (map mk groups))).
    - apply Permutation_map, Permutation_sym, order_by_Permutation.
    - rewrite map_map. rewrite (map_ext _ fst) by (intros [d rows]; reflexivity).
      unfold groups, group_by. rewrite map_map. cbn [fst]. rewrite map_id.
      apply NoDup_nodup. }
  assert (Hs : StronglySorted
                 (fun a b => str_ltb (BandwidthStats.date b) (BandwidthStats.date a) = true)
                 (order_by after (map mk groups))).
  { apply (sorted_strict
             (fun a b => str_ltb (BandwidthStats.date b) (BandwidthStats.date a))
             BandwidthStats.date).
    - intros a b Hab. destruct (str_ltb_total _ _ Hab); auto.
    - exact Hnd.
    - apply (order_by_sorted BandwidthStats.t after).
      + intros x y. apply str_ltb_asym.
      + intros x y z. apply str_ltb_trans. }
  destruct (sql_limit_split 30 (order_by after (map mk groups))) as [rest Hrest].
  rewrite Hrest in Hs. apply StronglySorted_app_inv in Hs as [Hs Hcut].
  split; [|split].
  - intros r Hr. cbv zeta. apply report_row_inv in Hr.
    destruct Hr as ([d rows] & Hg & ->).
    cbn [mk BandwidthStats.date BandwidthStats.totalBytes BandwidthStats.totalRequests].
    destruct (group_size _ _ _ _ Hg) as [Hc Hpos]. cbn [fst snd] in Hc, Hpos.
    destruct (group_by_key_In _ _ _ _ Hg) as (x & Hx & Hk). cbn [fst] in Hk.
    assert (Hdate : d = toISODate (col_timestamp x)).
    { rewrite <- Hk. pose proof (reachable_rows db Hreach) as Hrows.
      rewrite Forall_forall in Hrows. now destruct (Hrows x Hx) as (_ & _ & E). }
    pose proof (group_by_inv jsstring_eq_dec col_date_only _ _ Hg) as Hrows.
    cbn [fst snd] in Hrows.
    split; [exists x; split; [exact Hx | exact Hdate]|].
    split; [rewrite Hdate; apply toISODate_ascii|].
    split; [now rewrite Hrows|].
    split; [|split; [exact Hc | exact Hpos]].
    rewrite Hrows.
    pose proof (sum_of_filter_bounds
                  (fun r => if jsstring_eq_dec (col_date_only r) d then true else false)
                  (log_entries db) Hsizes) as Hb.
    unfold exact_number in *. lia.
  - exact Hs.
  - intros day r Hday Hnot Hr.
    assert (Hin : In day (map BandwidthStats.date (order_by after (map mk groups)))).
    { apply (Permutation_in (l := map BandwidthStats.date (map mk groups))).
      - apply Permutation_map, Permutation_sym, order_by_Permutation.
      - rewrite map_map. rewrite (map_ext _ fst) by (intros [d rows]; reflexivity).
        unfold groups, group_by. rewrite map_map. cbn [fst]. rewrite map_id.
        exact Hday. }
    rewrite Hrest, map_app in Hin. apply in_app_or in Hin as [Hin | Hin];
      [contradiction|].
    apply in_map_iff in Hin as (b & <- & Hb). now apply Hcut.
Qed.

Lemma X27_witness :
  Forall (fun x => 0 <= col_response_size x) (log_entries month_db) /\
  exact_number (sum_of col_response_size (log_entries month_db)) /\
  (forall r, In r (getBandwidthStats month_db) ->
     let mine x := str_eqb (col_date_only x) (BandwidthStats.date r) in
     (exists x, In x (log_entries month_db)
                /\ BandwidthStats.date r = toISODate (col_timestamp x)) /\
     ascii_text (BandwidthStats.date r) /\
     BandwidthStats.totalBytes r
       = sum_of col_response_size (filter mine (log_entries month_db)) /\
     exact_number (BandwidthStats.totalBytes r) /\
     BandwidthStats.totalRequests r = requests_on (BandwidthStats.date r) month_db /\
     0 < BandwidthStats.totalRequests r) /\
  StronglySorted
    (fun a b => str_ltb (BandwidthStats.date b) (BandwidthStats.date a) = true)
    (getBandwidthStats month_db) /\
  (forall day r,
     In day (activeDays month_db) ->
     ~ In day (map BandwidthStats.date (getBandwidthStats month_db)) ->
     In r (getBandwidthStats month_db) ->
     str_ltb day (BandwidthStats.date r) = true).
Proof.
  assert (Hsizes : Forall (fun x => 0 <= col_response_size x) (log_entries month_db)).
  { vm_compute. repeat (apply Forall_cons; [discriminate|]). apply Forall_nil. }
  assert (Htotal : exact_number (sum_of col_response_size (log_entries month_db))).
  { vm_compute. split; discriminate. }
  split; [exact Hsizes|]. split; [exact Htotal|].
  exact (X27_bandwidth_rows month_db (load_entries_reachable _) Hsizes Htotal).
Defined.

(** X28. Each row of [topStatusCodes] gives the number of stored entries
    with its status code, which is not zero; the rows are in descending
    order of that number, and a status code of the store that is not
    listed has no more entries than any code that is. *)
Theorem X28_topStatusCodes_rows db :
  let top := Summary.topStatusCodes (calculateSummary db) in
  (forall c, In c top ->
     StatusCodeCount.count c = requests_with (StatusCodeCount.code c) db /\
     0 < StatusCodeCount.count c) /\
  StronglySorted (fun a b => StatusCodeCount.count b <= StatusCodeCount.count a) top /\
  (forall code c,
     In code (statusCodes db) ->
     ~ In code (map StatusCodeCount.code top) ->
     In c top ->
     requests_with code db <= StatusCodeCount.count c).
Proof.
  cbv zeta. unfold calculateSummary. cbv zeta. cbn [Summary.topStatusCodes].
  set (mk := fun g : Z * list LogRow =>
               StatusCodeCount.mk (fst g) (count_where (fun _ => true) (snd g))).
  set (groups := group_by Z.eq_dec col_status_code (log_entries db)).
  assert (Hrow : forall c, In c (map mk groups) ->
            StatusCodeCount.count c = requests_with (StatusCodeCount.code c) db /\
            0 < StatusCodeCount.count c).
  { intros c Hc. apply in_map_iff in Hc as ([code rows] & <- & Hg).
    cbn [mk fst snd StatusCodeCount.count StatusCodeCount.code].
    destruct (group_size _ _ _ _ Hg) as [Hc Hpos]. cbn [fst snd] in Hc, Hpos.
    split; [|exact Hpos]. rewrite Hc. unfold requests_with.
    apply count_where_ext. intros r.
    destruct (Z.eq_dec (col_status_code r) code) as [E|E].
    - symmetry. now apply Z.eqb_eq.
    - symmetry. now apply Z.eqb_neq. }
  destruct (ranking StatusCodeCount.count 10 (map mk groups)) as (Hs & rest & Hrest & Hcut).
  split; [|split].
  - intros c Hc. apply Hrow. apply sql_limit_In in Hc.
    now apply (Permutation_in _ (order_by_Permutation _ _)) in Hc.
  - exact Hs.
  - intros code c Hcode Hnot Hc.
    assert (Hin : In code (map StatusCodeCount.code
                             (order_by (fun y x => StatusCodeCount.count y
                                                   <? StatusCodeCount.count x)
                                (map mk groups)))).
    { apply (Permutation_in (l := map StatusCodeCount.code (map mk groups))).
      - apply Permutation_map, Permutation_sym, order_by_Permutation.
      - rewrite map_map. cbn [mk StatusCodeCount.code].
        unfold groups, group_by. rewrite map_map. cbn [fst]. rewrite map_id.
        exact Hcode. }
    rewrite Hrest, map_app in Hin. apply in_app_or in Hin as [Hin | Hin];
      [contradiction|].
    apply in_map_iff in Hin as (b & <- & Hb).
    assert (Hb' : In b (map mk groups)).
    { apply (Permutation_in (l := order_by (fun y x => StatusCodeCount.count y
                                                       <? StatusCodeCount.count x)
                                    (map mk groups))).
      - apply order_by_Permutation.
      - rewrite Hrest. apply in_or_app. now right. }
    rewrite <- (proj1 (Hrow b Hb')). now apply Hcut.
Qed.
